(** * PhotoWall: the thumbnail provider (photowall-qt/src/core/ThumbnailProvider.cpp)

    A shallow embedding of [ThumbnailProvider] and [ThumbnailResponse]:
    the request-token parser, the bounded image cache, the registry of
    pending requests and the per-request state machine, together with the
    properties of the thumbnail subsystem that the specification states.

    Conventions.
    - A [QString] is modelled by the byte string of its UTF-8 encoding, so
      [toUtf8] / [fromUtf8] are the identity and the ASCII delimiters '/',
      '|' and '%' are single bytes.
    - [QHash<QString, QSet<ThumbnailResponse*>>] is a [gmap string (gset addr)],
      a [ThumbnailResponse*] is an address into a heap of live responses.
    - The two mutexes are not modelled: every member function runs
      atomically, which is the sequential reading of the code. *)

From Stdlib Require Import ZArith NArith Ascii String List Lia.
From stdpp Require Import gmap strings list fin_maps.

Local Open Scope Z_scope.

(** ** QString operations used by the parser *)

Module QStr.

(** [QString::split(sep)] with the default [Qt::KeepEmptyParts]. *)
Fixpoint split (sep : ascii) (s : string) : list string :=
  match s with
  | EmptyString => [EmptyString]
  | String c s' =>
      if Ascii.eqb c sep then EmptyString :: split sep s'
      else match split sep s' with
           | [] => [String c EmptyString]
           | p :: ps => String c p :: ps
           end
  end.

(** [QList::value(i, defaultValue)]. *)
Definition value (parts : list string) (i : nat) (dflt : string) : string :=
  nth i parts dflt.

(** [QString::indexOf(ch)]: the first position of [ch], or -1. *)
Fixpoint indexOf (ch : ascii) (s : string) : Z :=
  match s with
  | EmptyString => -1
  | String c s' =>
      if Ascii.eqb c ch then 0
      else let r := indexOf ch s' in if r <? 0 then -1 else r + 1
  end.

Fixpoint drop (n : nat) (s : string) : string :=
  match n, s with
  | O, _ => s
  | S n', EmptyString => EmptyString
  | S n', String _ s' => drop n' s'
  end.

Fixpoint take (n : nat) (s : string) : string :=
  match n, s with
  | O, _ => EmptyString
  | S n', EmptyString => EmptyString
  | S n', String c s' => String c (take n' s')
  end.

(** [QString::mid(position)] for a position that is not negative. *)
Definition mid (s : string) (position : Z) : string := drop (Z.to_nat position) s.

(** [QString::left(n)]: the whole string when [n] is negative or too large. *)
Definition left (s : string) (n : Z) : string :=
  if n <? 0 then s else take (Z.to_nat n) s.

Definition isEmpty (s : string) : bool :=
  match s with EmptyString => true | _ => false end.

(** Membership of a byte in a string. *)
Fixpoint occurs (ch : ascii) (s : string) : bool :=
  match s with
  | EmptyString => false
  | String c s' => Ascii.eqb c ch || occurs ch s'
  end.

End QStr.

(** ** Percent encoding (QByteArray::toPercentEncoding / fromPercentEncoding) *)

Module Percent.

(** The unreserved bytes, which [toPercentEncoding] leaves alone when its
    exclude and include lists are empty, as in
    [QUrl::toPercentEncoding(photo.filePath)] of PhotoModel.cpp. *)
Definition unreserved (c : ascii) : bool :=
  let n := N_of_ascii c in
  ((97 <=? n) && (n <=? 122) || (65 <=? n) && (n <=? 90)
   || (48 <=? n) && (n <=? 57)
   || (n =? 45) || (n =? 46) || (n =? 95) || (n =? 126))%N.

(** [QtMiscUtils::toHexUpper]. *)
Definition toHexUpper (v : N) : ascii :=
  nth (N.to_nat v)
      ["0";"1";"2";"3";"4";"5";"6";"7";"8";"9";"A";"B";"C";"D";"E";"F"]%char
      "0"%char.

Definition encodeByte (c : ascii) : string :=
  if unreserved c then String c EmptyString
  else
    let n := N_of_ascii c in
    String "%"%char
      (String (toHexUpper (N.shiftr (N.land n 240) 4))
         (String (toHexUpper (N.land n 15)) EmptyString)).

Fixpoint toPercentEncoding (s : string) : string :=
  match s with
  | EmptyString => EmptyString
  | String c s' => encodeByte c ++ toPercentEncoding s'
  end.

(** The digit value [q_fromPercentEncoding] computes for one character:
    a character that is no hexadecimal digit keeps its code. *)
Definition hexval (a : ascii) : N :=
  let n := N_of_ascii a in
  (if (48 <=? n) && (n <=? 57) then n - 48
   else if (97 <=? n) && (n <=? 102) then n - 97 + 10
   else if (65 <=? n) && (n <=? 70) then n - 65 + 10
   else n)%N.

(** [(char)((a << 4) | b)]. *)
Definition joinNibbles (a b : N) : ascii :=
  ascii_of_N ((N.lor (N.shiftl a 4) b) mod 256)%N.

(** [QByteArray::fromPercentEncoding]: a '%' followed by at least two more
    bytes is replaced, with them, by one byte; every other byte is copied. *)
Fixpoint fromPercentEncoding (s : string) : string :=
  match s with
  | EmptyString => EmptyString
  | String c s1 =>
      match s1 with
      | String a (String b rest) =>
          if Ascii.eqb c "%"%char
          then String (joinNibbles (hexval a) (hexval b)) (fromPercentEncoding rest)
          else String c (fromPercentEncoding s1)
      | _ => String c (fromPercentEncoding s1)
      end
  end.

End Percent.

(** ** The request token: [fileHash|encodedPath/size] *)

Record Token := {
  t_hash : string;
  t_filePath : string;
  t_size : string
}.

(** The parsing part of [ThumbnailProvider::requestImageResponse]. *)
Definition parseId (id : string) : Token :=
  let parts := QStr.split "/"%char id in
  let hashPart := QStr.value parts 0 EmptyString in
  let size := QStr.value parts 1 "medium"%string in
  let separator := QStr.indexOf "|"%char hashPart in
  if 0 <=? separator
  then {| t_hash := QStr.left hashPart separator;
          t_filePath := Percent.fromPercentEncoding (QStr.mid hashPart (separator + 1));
          t_size := size |}
  else {| t_hash := hashPart; t_filePath := EmptyString; t_size := size |}.

(** The token PhotoModel.cpp builds for a photo with a file path, with the
    size as a parameter. *)
Definition thumbnailToken (fileHash filePath size : string) : string :=
  (fileHash ++ String "|"%char (Percent.toPercentEncoding filePath ++ String "/"%char size))%string.

(** ** Images and sizes *)

Record QSize := { sz_w : Z; sz_h : Z }.

(** [QSize::isValid]: both dimensions are at least 0. *)
Definition isValid (s : QSize) : bool := (0 <=? sz_w s) && (0 <=? sz_h s).

(** A [QImage] is the null image or pixel data of some size. *)
Inductive QImage :=
| NullImage
| Image (size : QSize) (pixels : string).

Definition isNull (img : QImage) : bool :=
  match img with NullImage => true | Image _ _ => false end.

Definition imageSize (img : QImage) : QSize :=
  match img with NullImage => {| sz_w := 0; sz_h := 0 |} | Image s _ => s end.

(** ** QCache<QString, QImage>

    Qt's cache (qcache.h, Qt 6): a chain of nodes with the most recently
    used node first, a maximum cost [mx] and the sum [total] of the costs of
    the nodes it holds. (Qt 5 differs in [insert] only, and only for a key
    that is already in the cache: it removes the old node before it trims.) *)

Module QCache.

Record Node := { n_key : string; n_t : QImage; n_cost : Z }.

Record t := { chain : list Node; mx : Z; total : Z }.

(** [QCache(maxCost)]. *)
Definition create (maxCost : Z) : t := {| chain := []; mx := maxCost; total := 0 |}.

Definition hasKey (key : string) (n : Node) : bool := String.eqb (n_key n) key.

Definition findNode (key : string) (c : t) : option Node :=
  List.find (hasKey key) (chain c).

Definition without (key : string) (l : list Node) : list Node :=
  List.filter (fun n => negb (hasKey key n)) l.

(** The loop of [trim], on the chain read from its least recently used end:
    nodes are unlinked while there is one and [total] exceeds [m]. *)
Fixpoint trimFromBack (m : Z) (back : list Node) (tot : Z) : list Node * Z :=
  match back with
  | [] => ([], tot)
  | n :: rest =>
      if m <? tot then trimFromBack m rest (tot - n_cost n) else (back, tot)
  end.

Definition trim (m : Z) (c : t) : t :=
  let '(back, tot) := trimFromBack m (rev (chain c)) (total c) in
  {| chain := rev back; mx := mx c; total := tot |}.

(** [remove(key)]: unlink the node, if there is one. *)
Definition remove (key : string) (c : t) : t :=
  match findNode key c with
  | Some n => {| chain := without key (chain c); mx := mx c; total := total c - n_cost n |}
  | None => c
  end.

(** [insert(key, object, cost)], with the flag it returns. *)
Definition insert (key : string) (object : QImage) (cost : Z) (c : t) : t * bool :=
  if mx c <? cost then (remove key c, false)
  else
    let c1 := trim (mx c - cost) c in
    let n := {| n_key := key; n_t := object; n_cost := cost |} in
    match findNode key c1 with
    | Some old =>
        ({| chain := n :: without key (chain c1); mx := mx c1;
            total := total c1 + (cost - n_cost old) |}, true)
    | None =>
        ({| chain := n :: chain c1; mx := mx c1; total := total c1 + cost |}, true)
    end.

(** [object(key)], that is [relink(key)]: the node found moves to the front
    of the chain. *)
Definition object (key : string) (c : t) : option QImage * t :=
  match findNode key c with
  | Some n => (Some (n_t n), {| chain := n :: without key (chain c); mx := mx c; total := total c |})
  | None => (None, c)
  end.

Definition contains (key : string) (c : t) : bool :=
  match findNode key c with Some _ => true | None => false end.

Definition setMaxCost (m : Z) (c : t) : t :=
  trim m {| chain := chain c; mx := m; total := total c |}.

Definition clear (c : t) : t := {| chain := []; mx := mx c; total := 0 |}.

(** [size()]: the number of objects held. *)
Definition count (c : t) : Z := Z.of_nat (length (chain c)).

(** The contents as a function from keys to objects. *)
Definition lookup (key : string) (c : t) : option QImage :=
  option_map n_t (findNode key c).

Definition keys (c : t) : list string := map n_key (chain c).

End QCache.

(** ** The provider, its responses and their collaborators *)

Definition addr := nat.

Record ThumbnailResponse := {
  m_fileHash : string;
  m_filePath : string;
  m_size : string;
  m_requestedSize : QSize;
  m_image : QImage;
  m_errorString : string;
  m_finished : bool
}.

(** One element of the JSON array given to [enqueueThumbnailsBatch]. *)
Record ThumbRequest := { rq_filePath : string; rq_fileHash : string; rq_size : string }.

(** The arguments of [handleThumbnailReady]. *)
Record Completion := {
  cp_path : string;
  cp_isPlaceholder : bool;
  cp_placeholderBase64 : string;
  cp_useOriginal : bool
}.

(** A use of a decoder by a response. *)
Inductive Decode :=
| ReadPath (path : string) (scaledSize : option QSize)
| LoadData (base64 : string).

(** What the code reaches outside the provider: the Rust bridge's disk
    probe, the file system and Qt's image decoders. *)
Record Env := {
  getThumbnailPath : string -> string -> string;
  fileExists : string -> bool;
  (** [QImageReader reader(path)] with auto transform, the scaled size when
      one was set, then [read()]: the image, null on failure. *)
  readerRead : string -> option QSize -> QImage;
  (** [reader.errorString()] after that read. *)
  readerErrorString : string -> option QSize -> string;
  (** [QByteArray::fromBase64(base64.toLatin1())]. *)
  fromBase64 : string -> string;
  (** [QImage::loadFromData]: the image, null exactly when it returns false. *)
  imageFromData : string -> QImage
}.

(** The provider with the objects around it. The last four fields record
    what the code does to the outside, oldest first: the calls of
    [RustBridge::enqueueThumbnailsBatch], the calls of
    [handleThumbnailReady], the decoder uses, and the emissions of
    [finished()]. *)
Record World := {
  m_imageCache : QCache.t;
  m_pendingRequests : gmap string (gset addr);
  heap : gmap addr ThumbnailResponse;
  enqueued : list (list ThumbRequest);
  handled : list (addr * Completion);
  decodes : list (addr * Decode);
  finishedSignals : list addr
}.

Definition DEFAULT_CACHE_SIZE : Z := 200.

(** [ThumbnailProvider::ThumbnailProvider], with no response alive. *)
Definition newWorld : World :=
  {| m_imageCache := QCache.create DEFAULT_CACHE_SIZE;
     m_pendingRequests := ∅; heap := ∅;
     enqueued := []; handled := []; decodes := []; finishedSignals := [] |}.

Definition setCache (c : QCache.t) (w : World) : World :=
  {| m_imageCache := c; m_pendingRequests := m_pendingRequests w; heap := heap w;
     enqueued := enqueued w; handled := handled w; decodes := decodes w;
     finishedSignals := finishedSignals w |}.

Definition setPending (p : gmap string (gset addr)) (w : World) : World :=
  {| m_imageCache := m_imageCache w; m_pendingRequests := p; heap := heap w;
     enqueued := enqueued w; handled := handled w; decodes := decodes w;
     finishedSignals := finishedSignals w |}.

Definition setHeap (h : gmap addr ThumbnailResponse) (w : World) : World :=
  {| m_imageCache := m_imageCache w; m_pendingRequests := m_pendingRequests w; heap := h;
     enqueued := enqueued w; handled := handled w; decodes := decodes w;
     finishedSignals := finishedSignals w |}.

Definition logEnqueue (b : list ThumbRequest) (w : World) : World :=
  {| m_imageCache := m_imageCache w; m_pendingRequests := m_pendingRequests w; heap := heap w;
     enqueued := enqueued w ++ [b]; handled := handled w; decodes := decodes w;
     finishedSignals := finishedSignals w |}.

Definition logHandled (this : addr) (c : Completion) (w : World) : World :=
  {| m_imageCache := m_imageCache w; m_pendingRequests := m_pendingRequests w; heap := heap w;
     enqueued := enqueued w; handled := handled w ++ [(this, c)]; decodes := decodes w;
     finishedSignals := finishedSignals w |}.

Definition logDecode (this : addr) (d : Decode) (w : World) : World :=
  {| m_imageCache := m_imageCache w; m_pendingRequests := m_pendingRequests w; heap := heap w;
     enqueued := enqueued w; handled := handled w; decodes := decodes w ++ [(this, d)];
     finishedSignals := finishedSignals w |}.

(** [emit finished()]. *)
Definition emitFinished (this : addr) (w : World) : World :=
  {| m_imageCache := m_imageCache w; m_pendingRequests := m_pendingRequests w; heap := heap w;
     enqueued := enqueued w; handled := handled w; decodes := decodes w;
     finishedSignals := finishedSignals w ++ [this] |}.

(** ** ThumbnailProvider: cache management *)

Definition clearCache (w : World) : World :=
  setCache (QCache.clear (m_imageCache w)) w.

Definition setCacheSize (maxImages : Z) (w : World) : World :=
  setCache (QCache.setMaxCost maxImages (m_imageCache w)) w.

(** [m_imageCache.insert(key, new QImage(image))]: the cost is QCache's
    default, 1. *)
Definition cacheImage (key : string) (image : QImage) (w : World) : World :=
  setCache (fst (QCache.insert key image 1 (m_imageCache w))) w.

(** [getCachedImage] is const for C++, but [QCache::object] moves the node
    it finds to the front of the chain: the world is returned too. *)
Definition getCachedImage (key : string) (w : World) : QImage * World :=
  let '(cached, c) := QCache.object key (m_imageCache w) in
  (match cached with Some img => img | None => NullImage end, setCache c w).

Definition hasCachedImage (key : string) (w : World) : bool :=
  QCache.contains key (m_imageCache w).

(** ** ThumbnailProvider: the pending requests *)

(** [m_pendingRequests[fileHash].insert(response)]. *)
Definition addPendingRequest (fileHash : string) (response : addr) (w : World) : World :=
  setPending
    (<[fileHash := default ∅ (m_pendingRequests w !! fileHash) ∪ {[response]}]>
       (m_pendingRequests w)) w.

Definition removePendingRequest (fileHash : string) (response : addr) (w : World) : World :=
  match m_pendingRequests w !! fileHash with
  | Some responses =>
      let responses' := responses ∖ {[response]} in
      if decide (responses' = ∅)
      then setPending (delete fileHash (m_pendingRequests w)) w
      else setPending (<[fileHash := responses']> (m_pendingRequests w)) w
  | None => w
  end.

(** [RustBridge::enqueueThumbnailsBatch(requests)]. *)
Definition enqueueThumbnailsBatch (requests : list ThumbRequest) (w : World) : World :=
  logEnqueue requests w.

(** ** ThumbnailResponse *)

(** [QStringLiteral("%1/%2").arg(fileHash, size)]. *)
Definition cacheKey (fileHash size : string) : string :=
  (fileHash ++ String "/"%char size)%string.

Definition withImage (image : QImage) (r : ThumbnailResponse) : ThumbnailResponse :=
  {| m_fileHash := m_fileHash r; m_filePath := m_filePath r; m_size := m_size r;
     m_requestedSize := m_requestedSize r;
     m_image := image; m_errorString := m_errorString r; m_finished := true |}.

Definition withError (error : string) (r : ThumbnailResponse) : ThumbnailResponse :=
  {| m_fileHash := m_fileHash r; m_filePath := m_filePath r; m_size := m_size r;
     m_requestedSize := m_requestedSize r;
     m_image := m_image r; m_errorString := error; m_finished := true |}.

(** The member functions take [this] as an address; on an address that holds
    no live response (a use after free in C++) they leave the world as it
    is. *)
Definition finishWithImage (this : addr) (image : QImage) (w : World) : World :=
  match heap w !! this with
  | Some r =>
      let w1 := setHeap (<[this := withImage image r]> (heap w)) w in
      let w2 := cacheImage (cacheKey (m_fileHash r) (m_size r)) image w1 in
      let w3 := removePendingRequest (m_fileHash r) this w2 in
      emitFinished this w3
  | None => w
  end.

Definition finishWithError (this : addr) (error : string) (w : World) : World :=
  match heap w !! this with
  | Some r =>
      let w1 := setHeap (<[this := withError error r]> (heap w)) w in
      let w2 := removePendingRequest (m_fileHash r) this w1 in
      emitFinished this w2
  | None => w
  end.

(** The scaled size [loadFromPath] sets on its reader. *)
Definition scaledSizeFor (requestedSize : QSize) : option QSize :=
  if isValid requestedSize then Some requestedSize else None.

Definition loadFromPath (env : Env) (this : addr) (path : string) (w : World) : World :=
  match heap w !! this with
  | Some r =>
      let scaled := scaledSizeFor (m_requestedSize r) in
      let w1 := logDecode this (ReadPath path scaled) w in
      let image := readerRead env path scaled in
      if isNull image
      then finishWithError this (readerErrorString env path scaled) w1
      else finishWithImage this image w1
  | None => w
  end.

Definition loadFromBase64 (env : Env) (this : addr) (base64 : string) (w : World) : World :=
  let data := fromBase64 env base64 in
  let w1 := logDecode this (LoadData base64) w in
  let image := imageFromData env data in
  if negb (isNull image)
  then finishWithImage this image w1
  else finishWithError this "Failed to decode base64 image" w1.

Definition handleThumbnailReady (env : Env) (this : addr) (c : Completion) (w : World) : World :=
  let w0 := logHandled this c w in
  match heap w0 !! this with
  | Some r =>
      if m_finished r then w0
      else if cp_isPlaceholder c && negb (QStr.isEmpty (cp_placeholderBase64 c))
      then loadFromBase64 env this (cp_placeholderBase64 c) w0
      else if negb (QStr.isEmpty (cp_path c))
      then loadFromPath env this (cp_path c) w0
      else finishWithError this "No thumbnail available" w0
  | None => w0
  end.

(** The private slot [onThumbnailReady], connected to nothing. *)
Definition onThumbnailReady (env : Env) (this : addr) (fileHash size : string)
    (c : Completion) (w : World) : World :=
  match heap w !! this with
  | Some r =>
      if negb (String.eqb fileHash (m_fileHash r)) || negb (String.eqb size (m_size r))
      then w
      else handleThumbnailReady env this c w
  | None => w
  end.

(** [new ThumbnailResponse(provider, fileHash, filePath, size, requestedSize)]:
    the object is allocated at an address that holds no live response, then
    the constructor's body runs. *)
Definition newThumbnailResponse (env : Env) (fileHash filePath size : string)
    (requestedSize : QSize) (w : World) : addr * World :=
  let this := fresh (dom (heap w)) in
  let r0 := {| m_fileHash := fileHash; m_filePath := filePath; m_size := size;
               m_requestedSize := requestedSize;
               m_image := NullImage; m_errorString := EmptyString; m_finished := false |} in
  let w0 := setHeap (<[this := r0]> (heap w)) w in
  let key := cacheKey fileHash size in
  if hasCachedImage key w0 then
    let '(image, w1) := getCachedImage key w0 in
    (this, emitFinished this (setHeap (<[this := withImage image r0]> (heap w1)) w1))
  else
    let path := getThumbnailPath env fileHash size in
    if negb (QStr.isEmpty path) && fileExists env path then
      (this, loadFromPath env this path w0)
    else if QStr.isEmpty filePath then
      (this, finishWithError this "Missing file path for thumbnail request" w0)
    else
      let w1 := addPendingRequest fileHash this w0 in
      (this, enqueueThumbnailsBatch
               [ {| rq_filePath := filePath; rq_fileHash := fileHash; rq_size := size |} ] w1).

(** [delete response]: the destructor's body, then the object is gone. *)
Definition deleteResponse (this : addr) (w : World) : World :=
  match heap w !! this with
  | Some r =>
      let w1 := if m_finished r then w else removePendingRequest (m_fileHash r) this w in
      setHeap (delete this (heap w1)) w1
  | None => w
  end.

(** ** ThumbnailProvider: requests and completions *)

Definition requestImageResponse (env : Env) (id : string) (requestedSize : QSize)
    (w : World) : addr * World :=
  let t := parseId id in
  newThumbnailResponse env (t_hash t) (t_filePath t) (t_size t) requestedSize w.

(** The loop of [notifyThumbnailReady] over the set it took out of the
    registry. *)
Definition deliverAll (env : Env) (c : Completion) (responses : list addr) (w : World) : World :=
  foldl (fun w' response => handleThumbnailReady env response c w') w responses.

(** [size] is a parameter of the C++ function that its body never reads. *)
Definition notifyThumbnailReady (env : Env) (fileHash size : string) (c : Completion)
    (w : World) : World :=
  match m_pendingRequests w !! fileHash with
  | Some responses =>
      let w1 := setPending (delete fileHash (m_pendingRequests w)) w in
      deliverAll env c (elements responses) w1
  | None => w
  end.

(** ** Runs of the subsystem *)

Inductive Op :=
| Request (env : Env) (id : string) (requestedSize : QSize)
| Delete (this : addr)
| Notify (env : Env) (fileHash size : string) (c : Completion)
| Handle (env : Env) (this : addr) (c : Completion)
| ClearCache
| SetCacheSize (maxImages : Z)
| CacheImage (key : string) (image : QImage)
| GetCachedImage (key : string).

Definition step (o : Op) (w : World) : World :=
  match o with
  | Request env id rs => snd (requestImageResponse env id rs w)
  | Delete this => deleteResponse this w
  | Notify env h s c => notifyThumbnailReady env h s c w
  | Handle env this c => handleThumbnailReady env this c w
  | ClearCache => clearCache w
  | SetCacheSize n => setCacheSize n w
  | CacheImage k i => cacheImage k i w
  | GetCachedImage k => snd (getCachedImage k w)
  end.

Definition run (ops : list Op) (w : World) : World :=
  foldl (fun w' o => step o w') w ops.

(** ** Observations *)

(** The waiter set of an identity, empty when the registry has no entry. *)
Definition waiters (w : World) (fileHash : string) : gset addr :=
  default ∅ (m_pendingRequests w !! fileHash).

(** The state of a request as its caller sees it. *)
Inductive State :=
| AwaitingGeneration
| Delivered (image : QImage)
| Failed (error : string).

(** Qt Quick reads a finished response as an error when its error string
    is not empty, and asks it for its texture otherwise; a null image gives
    no texture. *)
Definition stateOf (r : ThumbnailResponse) : State :=
  if m_finished r
  then if negb (QStr.isEmpty (m_errorString r)) then Failed (m_errorString r)
       else if isNull (m_image r) then Failed EmptyString
       else Delivered (m_image r)
  else AwaitingGeneration.

(** Two worlds that differ in what was recorded only. *)
Definition same_state (w1 w : World) : Prop :=
  m_imageCache w1 = m_imageCache w ∧ m_pendingRequests w1 = m_pendingRequests w ∧
  heap w1 = heap w ∧ enqueued w1 = enqueued w ∧ finishedSignals w1 = finishedSignals w.

(** The response at an address is alive and has finished. *)
Definition finishedAt (w : World) (x : addr) : Prop :=
  ∃ r, heap w !! x = Some r ∧ m_finished r = true.

(** Cancelling the requests at the addresses of a list, in order. *)
Definition deleteAll (l : list addr) (w : World) : World :=
  foldl (fun w' this => deleteResponse this w') w l.

Definition asksFor (fileHash size : string) (rq : ThumbRequest) : bool :=
  String.eqb (rq_fileHash rq) fileHash && String.eqb (rq_size rq) size.

(** How many calls of [enqueueThumbnailsBatch] asked for (fileHash, size). *)
Definition enqueueCount (fileHash size : string) (w : World) : nat :=
  length (List.filter (fun batch => existsb (asksFor fileHash size) batch) (enqueued w)).

Definition mkNode (e : string * QImage) : QCache.Node :=
  {| QCache.n_key := fst e; QCache.n_t := snd e; QCache.n_cost := 1 |}.

(** [insert(key, object)] for each entry of a list, in order. *)
Definition insertAll (entries : list (string * QImage)) (c : QCache.t) : QCache.t :=
  foldl (fun c' e => fst (QCache.insert (fst e) (snd e) 1 c')) c entries.

(** [cacheImage] for each entry of a list, in order. *)
Definition cacheImages (entries : list (string * QImage)) (w : World) : World :=
  foldl (fun w' e => cacheImage (fst e) (snd e) w') w entries.

(** ** Invariants *)

(** The cache as the provider fills it: keys are distinct, every cost is 1
    and [total] is their sum. *)
Record cache_ok (c : QCache.t) : Prop := {
  ok_nodup : NoDup (QCache.keys c);
  ok_costs : Forall (fun n => QCache.n_cost n = 1) (QCache.chain c);
  ok_total : QCache.total c = QCache.count c
}.

(** The chain is empty or the total cost is within the maximum. *)
Definition cache_bounded (c : QCache.t) : Prop :=
  QCache.chain c = [] ∨ QCache.total c <= QCache.mx c.

(** The registry holds no empty set, and every waiter is a live, unfinished
    response registered under its own hash. *)
Record registry_ok (w : World) : Prop := {
  ok_nonempty : ∀ h (s : gset addr), m_pendingRequests w !! h = Some s → s ≠ ∅;
  ok_waiter : ∀ h (s : gset addr) this, m_pendingRequests w !! h = Some s → this ∈ s →
      ∃ r, heap w !! this = Some r ∧ m_fileHash r = h ∧ m_finished r = false
}.

(** A response that has not finished has no image and no error yet. *)
Definition heap_ok (w : World) : Prop :=
  ∀ x r, heap w !! x = Some r → m_finished r = false →
    m_image r = NullImage ∧ m_errorString r = EmptyString.

Record world_ok (w : World) : Prop := {
  ok_cache : cache_ok (m_imageCache w);
  ok_bounded : cache_bounded (m_imageCache w);
  ok_registry : registry_ok w
}.

(** ** An environment for the examples *)

(** A file system with one thumbnail on disk, for ("h3", "small"), a reader
    that finds a 256x256 image at every path under /cache/ and returns it at
    the scaled size when one is set, and a decoder of payloads that finds a
    64x64 image in every payload that is not empty. *)
Definition diskEnv : Env :=
  {| getThumbnailPath := fun h s =>
       if String.eqb h "h3" then ("/cache/" ++ h ++ "_" ++ s ++ ".jpg")%string else EmptyString;
     fileExists := fun p => String.eqb p "/cache/h3_small.jpg";
     readerRead := fun p scaled =>
       if String.prefix "/cache/" p
       then Image (match scaled with Some s => s | None => {| sz_w := 256; sz_h := 256 |} end) p
       else NullImage;
     readerErrorString := fun _ _ => "Unable to open file"%string;
     fromBase64 := fun b => b;
     imageFromData := fun d =>
       if QStr.isEmpty d then NullImage else Image {| sz_w := 64; sz_h := 64 |} d |}.

Definition noSize : QSize := {| sz_w := -1; sz_h := -1 |}.

(** ** JsonHelper (photowall-qt/src/utils/JsonHelper.cpp)

    A [QJsonValue]; a double is carried by its bit pattern, which no
    function modelled here looks into. A [QJsonObject] is a finite map from
    keys to values. *)

Inductive QJsonValue :=
| JNull
| JBool (b : bool)
| JDouble (bits : Z)
| JString (s : string)
| JArray (items : list QJsonValue)
| JObject (members : gmap string QJsonValue)
| JUndefined.

Module JsonHelper.

Definition getString (obj : gmap string QJsonValue) (key : string) (defaultValue : string)
    : string :=
  match obj !! key with
  | None => defaultValue
  | Some (JString s) => s
  | Some _ => defaultValue
  end.

Definition getBool (obj : gmap string QJsonValue) (key : string) (defaultValue : bool)
    : bool :=
  match obj !! key with
  | None => defaultValue
  | Some (JBool b) => b
  | Some _ => defaultValue
  end.

Definition getArray (obj : gmap string QJsonValue) (key : string) : list QJsonValue :=
  match obj !! key with
  | None => []
  | Some (JArray a) => a
  | Some _ => []
  end.

Definition getObject (obj : gmap string QJsonValue) (key : string) : gmap string QJsonValue :=
  match obj !! key with
  | None => ∅
  | Some (JObject o) => o
  | Some _ => ∅
  end.

Fixpoint toStringList (arr : list QJsonValue) : list string :=
  match arr with
  | [] => []
  | JString s :: rest => s :: toStringList rest
  | _ :: rest => toStringList rest
  end.

Definition fromStringList (l : list string) : list QJsonValue := map JString l.

(** [QJsonValue::isString]. *)
Definition isString (v : QJsonValue) : bool :=
  match v with JString _ => true | _ => false end.

End JsonHelper.

(** ** The thumbnail-ready event (RustBridge::processEvent and the
    connection made in the constructor of ThumbnailProvider) *)

(** [doc ? doc->object() : QJsonObject()] for the result of
    [JsonHelper::parse]: a document that is no object has the empty
    object. *)
Definition eventObject (doc : option QJsonValue) : gmap string QJsonValue :=
  match doc with
  | Some (JObject o) => o
  | _ => ∅
  end.

(** The branch of [processEvent] that emits [thumbnailReady], with the
    arguments of the signal; the branches for the other event names emit
    signals the provider is not connected to. *)
Definition thumbnailReadySignal (name : string) (obj : gmap string QJsonValue)
    : option (string * string * Completion) :=
  if String.eqb name "thumbnail-ready" then
    Some (JsonHelper.getString obj "fileHash" EmptyString,
          JsonHelper.getString obj "size" EmptyString,
          {| cp_path := JsonHelper.getString obj "path" EmptyString;
             cp_isPlaceholder := JsonHelper.getBool obj "isPlaceholder" false;
             cp_placeholderBase64 := JsonHelper.getString obj "placeholderBase64" EmptyString;
             cp_useOriginal := JsonHelper.getBool obj "useOriginal" false |})
  else None.

(** [processEvent(name, payload)] as the provider sees it: [parse] stands
    for [QJsonDocument::fromJson] with its error check, and the lambda
    connected to [RustBridge::thumbnailReady] calls [notifyThumbnailReady]. *)
Definition processEvent (parse : string -> option QJsonValue) (env : Env)
    (name payload : string) (w : World) : World :=
  let obj := eventObject (parse payload) in
  match thumbnailReadySignal name obj with
  | Some (fileHash, size, c) => notifyThumbnailReady env fileHash size c w
  | None => w
  end.

(** ** The response a constructor starts from *)

Definition freshResponse (fileHash filePath size : string) (rs : QSize) : ThumbnailResponse :=
  {| m_fileHash := fileHash; m_filePath := filePath; m_size := size;
     m_requestedSize := rs; m_image := NullImage; m_errorString := EmptyString;
     m_finished := false |}.

(** The response at an address is alive and has the hash [h]. *)
Definition hashAt (w : World) (y : addr) (h : string) : Prop :=
  ∃ r, heap w !! y = Some r ∧ m_fileHash r = h.

(** The entry a response gives to [enqueueThumbnailsBatch]. *)
Definition requestOf (r : ThumbnailResponse) : ThumbRequest :=
  {| rq_filePath := m_filePath r; rq_fileHash := m_fileHash r; rq_size := m_size r |}.

(** Every live response that has not finished waits for its identity, has a
    file path and was enqueued. *)
Definition unfinished_wait (w : World) : Prop :=
  ∀ x r, heap w !! x = Some r → m_finished r = false →
    x ∈ waiters w (m_fileHash r) ∧ QStr.isEmpty (m_filePath r) = false ∧
    [requestOf r] ∈ enqueued w.

(** The operations that touch the image cache only. *)
Definition cacheOp (o : Op) : bool :=
  match o with
  | ClearCache | SetCacheSize _ | CacheImage _ _ | GetCachedImage _ => true
  | _ => false
  end.

(** * Properties *)

(** ** Strings and percent encoding *)

Section StringFacts.

Lemma split_nonempty sep s : QStr.split sep s ≠ [].
Proof.
  destruct s as [|c s]; simpl; [done|].
  destruct (Ascii.eqb c sep); [done|].
  destruct (QStr.split sep s); done.
Qed.

Lemma split_free sep s : QStr.occurs sep s = false → QStr.split sep s = [s].
Proof.
  induction s as [|c s IH]; simpl; [done|].
  intros [Hc Hs]%orb_false_iff. rewrite Hc, (IH Hs). done.
Qed.

Lemma split_app sep s t :
  QStr.occurs sep s = false →
  QStr.split sep (s ++ String sep t) = s :: QStr.split sep t.
Proof.
  induction s as [|c s IH]; simpl.
  - intros _. by rewrite Ascii.eqb_refl.
  - intros [Hc Hs]%orb_false_iff. rewrite Hc, (IH Hs). done.
Qed.

Lemma indexOf_app ch s t :
  QStr.occurs ch s = false →
  QStr.indexOf ch (s ++ String ch t) = Z.of_nat (String.length s).
Proof.
  induction s as [|c s IH]; simpl.
  - intros _. by rewrite Ascii.eqb_refl.
  - intros [Hc Hs]%orb_false_iff. rewrite Hc, (IH Hs).
    destruct (Z.of_nat (String.length s) <? 0) eqn:E; lia.
Qed.

Lemma take_app s t : QStr.take (String.length s) (s ++ t) = s.
Proof. induction s as [|c s IH]; simpl; [by destruct t | by rewrite IH]. Qed.

Lemma drop_app s c t : QStr.drop (S (String.length s)) (s ++ String c t) = t.
Proof. induction s as [|a s IH]; simpl; [done | exact IH]. Qed.

Lemma append_cons c (s t : string) : (String c s ++ t)%string = String c (s ++ t).
Proof. reflexivity. Qed.

Lemma append_assoc (s t u : string) : ((s ++ t) ++ u = s ++ (t ++ u))%string.
Proof. induction s as [|c s IH]; [done | by rewrite !append_cons, IH]. Qed.

Lemma occurs_app ch s t :
  QStr.occurs ch (s ++ t) = QStr.occurs ch s || QStr.occurs ch t.
Proof. induction s as [|c s IH]; simpl; [done | by rewrite IH, orb_assoc]. Qed.

(** Each byte is encoded into bytes that are neither '/' nor '|', and
    decoding what it is encoded into gives it back. *)
Lemma encodeByte_cases c :
  QStr.occurs "/" (Percent.encodeByte c) = false ∧
  QStr.occurs "|" (Percent.encodeByte c) = false ∧
  ((Percent.unreserved c = true ∧ Ascii.eqb c "%" = false) ∨
   (Percent.unreserved c = false ∧
    Percent.joinNibbles
      (Percent.hexval (Percent.toHexUpper (N.shiftr (N.land (N_of_ascii c) 240) 4)))
      (Percent.hexval (Percent.toHexUpper (N.land (N_of_ascii c) 15))) = c)).
Proof.
  destruct c as [[] [] [] [] [] [] [] []];
    (split; [reflexivity | split; [reflexivity |]]);
    first [ left; split; reflexivity | right; split; reflexivity ].
Qed.

Lemma toPercentEncoding_free s :
  QStr.occurs "/" (Percent.toPercentEncoding s) = false ∧
  QStr.occurs "|" (Percent.toPercentEncoding s) = false.
Proof.
  induction s as [|c s [IH1 IH2]]; simpl; [done|].
  rewrite !occurs_app, IH1, IH2.
  destruct (encodeByte_cases c) as (-> & -> & _). done.
Qed.

Lemma fromPercentEncoding_encodeByte c s :
  Percent.fromPercentEncoding (Percent.encodeByte c ++ s)
  = String c (Percent.fromPercentEncoding s).
Proof.
  destruct (encodeByte_cases c) as (_ & _ & [[Hu Hp] | [Hu Hj]]);
    unfold Percent.encodeByte; rewrite Hu.
  - change (String c "" ++ s)%string with (String c s).
    destruct s as [|a [|b rest]]; simpl; try done. by rewrite Hp.
  - set (hi := Percent.toHexUpper (N.shiftr (N.land (N_of_ascii c) 240) 4)) in *.
    set (lo := Percent.toHexUpper (N.land (N_of_ascii c) 15)) in *.
    change (String "%" (String hi (String lo "")) ++ s)%string
      with (String "%" (String hi (String lo s))).
    cbn [Percent.fromPercentEncoding].
    change (Ascii.eqb "%" "%") with true. cbv iota. by rewrite Hj.
Qed.

(** Decoding inverts the escaping. *)
Lemma fromPercentEncoding_toPercentEncoding s :
  Percent.fromPercentEncoding (Percent.toPercentEncoding s) = s.
Proof.
  induction s as [|c s IH]; [done|].
  cbn [Percent.toPercentEncoding]. by rewrite fromPercentEncoding_encodeByte, IH.
Qed.

(** What the parser recovers from a well-formed token. *)
Lemma parseId_thumbnailToken fileHash filePath size :
  QStr.occurs "/" fileHash = false →
  QStr.occurs "|" fileHash = false →
  t_hash (parseId (thumbnailToken fileHash filePath size)) = fileHash ∧
  t_filePath (parseId (thumbnailToken fileHash filePath size)) = filePath ∧
  t_size (parseId (thumbnailToken fileHash filePath size))
    = QStr.value (QStr.split "/" size) 0 "medium".
Proof.
  intros Hslash Hbar. unfold parseId, thumbnailToken.
  set (enc := Percent.toPercentEncoding filePath).
  assert (QStr.occurs "/" (fileHash ++ String "|" enc) = false) as Hfree.
  { rewrite occurs_app. cbn [QStr.occurs]. rewrite Hslash.
    destruct (toPercentEncoding_free filePath) as [He _]. fold enc in He.
    by rewrite He. }
  replace (fileHash ++ String "|" (enc ++ String "/" size))%string
    with ((fileHash ++ String "|" enc) ++ String "/" size)%string.
  2:{ by rewrite append_assoc, append_cons. }
  rewrite (split_app _ _ _ Hfree).
  cbn [QStr.value nth].
  rewrite (indexOf_app _ _ _ Hbar).
  assert ((0 <=? Z.of_nat (String.length fileHash)) = true) as ->
    by (apply Z.leb_le; lia).
  cbn [t_hash t_filePath t_size].
  unfold QStr.left, QStr.mid.
  assert ((Z.of_nat (String.length fileHash) <? 0) = false) as ->
    by (apply Z.ltb_ge; lia).
  rewrite Nat2Z.id, take_app.
  replace (Z.to_nat (Z.of_nat (String.length fileHash) + 1)) with (S (String.length fileHash)) by lia.
  rewrite drop_app. unfold enc. rewrite fromPercentEncoding_toPercentEncoding.
  split; [done | split; [done |]].
  pose proof (split_nonempty "/" size). by destruct (QStr.split "/" size).
Qed.

End StringFacts.

(** ** The cache *)

Section CacheFacts.

Implicit Types (c : QCache.t) (l : list QCache.Node) (k : string).

Local Notation hasKey := QCache.hasKey.
Local Arguments QCache.hasKey _ _ /.

Lemma find_Some_key l k n :
  List.find (hasKey k) l = Some n → QCache.n_key n = k ∧ n ∈ l.
Proof.
  induction l as [|a l IH]; simpl; [done|].
  destruct (String.eqb (QCache.n_key a) k) eqn:E.
  - intros [= <-]. split; [by apply String.eqb_eq | left].
  - intros H. destruct (IH H). split; [done | by right].
Qed.

Lemma find_None_key l k :
  List.find (hasKey k) l = None ↔ k ∉ map QCache.n_key l.
Proof.
  induction l as [|a l IH]; simpl.
  - split; [intros _ H; inversion H | done].
  - destruct (String.eqb_spec (QCache.n_key a) k) as [->|Hne].
    + split; [done | intros H; destruct H; left].
    + rewrite IH. rewrite not_elem_of_cons. naive_solver.
Qed.

Lemma find_without_eq l k : List.find (hasKey k) (QCache.without k l) = None.
Proof.
  induction l as [|a l IH]; simpl; [done|].
  destruct (String.eqb (QCache.n_key a) k) eqn:E; simpl; [done|].
  by rewrite E.
Qed.

Lemma find_without_ne l k k' :
  k' ≠ k → List.find (hasKey k') (QCache.without k l) = List.find (hasKey k') l.
Proof.
  intros Hne. induction l as [|a l IH]; simpl; [done|].
  destruct (String.eqb_spec (QCache.n_key a) k) as [Hk|Hk]; simpl.
  - destruct (String.eqb_spec (QCache.n_key a) k'); [congruence | done].
  - by rewrite IH.
Qed.

Lemma without_fresh l k : k ∉ map QCache.n_key l → QCache.without k l = l.
Proof.
  induction l as [|a l IH]; simpl; [done|].
  rewrite not_elem_of_cons. intros [Hne Hl].
  destruct (String.eqb_spec (QCache.n_key a) k); [congruence|]. simpl. by rewrite IH.
Qed.

Lemma without_keys l k x :
  x ∈ map QCache.n_key (QCache.without k l) ↔ x ∈ map QCache.n_key l ∧ x ≠ k.
Proof.
  induction l as [|a l IH]; simpl.
  - split; [intros H; inversion H | intros [H _]; inversion H].
  - destruct (String.eqb_spec (QCache.n_key a) k) as [Hk|Hk]; simpl;
      rewrite ?elem_of_cons, IH, ?elem_of_cons; naive_solver.
Qed.

Lemma without_NoDup l k :
  NoDup (map QCache.n_key l) → NoDup (map QCache.n_key (QCache.without k l)).
Proof.
  induction l as [|a l IH]; simpl; [done|].
  intros [Hin Hnd]%NoDup_cons.
  destruct (String.eqb (QCache.n_key a) k); simpl; [auto|].
  apply NoDup_cons. split; [|auto]. rewrite without_keys. naive_solver.
Qed.

Lemma without_length l k n :
  NoDup (map QCache.n_key l) → List.find (hasKey k) l = Some n →
  S (length (QCache.without k l)) = length l.
Proof.
  induction l as [|a l IH]; simpl; [done|].
  intros [Hin Hnd]%NoDup_cons. unfold hasKey at 1.
  destruct (String.eqb_spec (QCache.n_key a) k) as [Hk|Hk]; simpl.
  - intros _. rewrite without_fresh; [done | congruence].
  - intros H. by rewrite (IH Hnd H).
Qed.

Lemma without_Forall (P : QCache.Node → Prop) l k :
  Forall P l → Forall P (QCache.without k l).
Proof.
  induction 1 as [|a l Ha Hl IH]; simpl; [done|].
  destruct (String.eqb (QCache.n_key a) k); simpl; auto.
Qed.

(** The loop of [trim] unlinks a run of nodes at the least recently used
    end, and stops with an empty chain or a total within the bound. *)
Lemma trimFromBack_spec m back tot :
  Forall (fun n => QCache.n_cost n = 1) back →
  ∃ dropped,
    back = dropped ++ fst (QCache.trimFromBack m back tot) ∧
    snd (QCache.trimFromBack m back tot) = tot - Z.of_nat (length dropped) ∧
    (fst (QCache.trimFromBack m back tot) = [] ∨ snd (QCache.trimFromBack m back tot) <= m).
Proof.
  intros Hc. revert tot. induction Hc as [|n rest Hn Hrest IH]; intros tot; simpl.
  - exists []. simpl. split; [done | split; [lia | by left]].
  - destruct (Z.ltb_spec m tot) as [Hlt|Hge].
    + destruct (IH (tot - QCache.n_cost n)) as (d & H1 & H2 & H3).
      exists (n :: d). simpl. split; [by rewrite <- H1 | split; [lia | done]].
    + exists []. simpl. split; [done | split; [lia | by right]].
Qed.

Lemma trimFromBack_within m back tot :
  tot <= m → QCache.trimFromBack m back tot = (back, tot).
Proof.
  intros H. destruct back as [|n rest]; simpl; [done|].
  destruct (Z.ltb_spec m tot); [lia | done].
Qed.

Lemma trim_within m c : QCache.total c <= m → QCache.trim m c = c.
Proof.
  intros H. unfold QCache.trim. rewrite trimFromBack_within by done.
  rewrite rev_involutive. by destruct c.
Qed.

Lemma trim_spec m c :
  cache_ok c →
  ∃ dropped,
    QCache.chain c = QCache.chain (QCache.trim m c) ++ dropped ∧
    QCache.mx (QCache.trim m c) = QCache.mx c ∧
    cache_ok (QCache.trim m c) ∧
    (QCache.chain (QCache.trim m c) = [] ∨ QCache.total (QCache.trim m c) <= m).
Proof.
  intros [Hnd Hcost Htot].
  assert (Forall (fun n => QCache.n_cost n = 1) (rev (QCache.chain c))) as Hrev.
  { apply Forall_forall. intros x Hx. rewrite Forall_forall in Hcost.
    apply Hcost. apply list_elem_of_In, in_rev, list_elem_of_In, Hx. }
  destruct (trimFromBack_spec m _ (QCache.total c) Hrev) as (d & H1 & H2 & H3).
  unfold QCache.trim.
  destruct (QCache.trimFromBack m (rev (QCache.chain c)) (QCache.total c)) as [back tot].
  simpl in *.
  assert (QCache.chain c = rev back ++ rev d) as Hchain.
  { rewrite <- rev_app_distr, <- H1. by rewrite rev_involutive. }
  exists (rev d). split; [done | split; [done | split]].
  - unfold QCache.keys, QCache.count in *. rewrite Hchain in *.
    split; simpl.
    + rewrite map_app in Hnd. by apply NoDup_app in Hnd as (? & _ & _).
    + by apply Forall_app in Hcost as [? _].
    + rewrite length_app, !length_rev in Htot.
      unfold QCache.count. simpl. rewrite length_rev. lia.
  - destruct H3 as [-> | H3]; [by left | by right].
Qed.

Lemma cache_ok_count_nonneg c : 0 <= QCache.count c.
Proof. unfold QCache.count. lia. Qed.

Lemma create_ok m : cache_ok (QCache.create m) ∧ cache_bounded (QCache.create m).
Proof.
  split; [split; simpl; [apply NoDup_nil_2 | done | done] | by left].
Qed.

Lemma insert_ok k v c :
  cache_ok c → cache_bounded c →
  cache_ok (fst (QCache.insert k v 1 c)) ∧
  cache_bounded (fst (QCache.insert k v 1 c)) ∧
  QCache.mx (fst (QCache.insert k v 1 c)) = QCache.mx c.
Proof.
  intros Hok Hb. unfold QCache.insert.
  destruct (Z.ltb_spec (QCache.mx c) 1) as [Hsmall|Hroom]; simpl.
  - unfold QCache.remove, QCache.findNode.
    destruct (List.find _ (QCache.chain c)) as [n|] eqn:Hfind; [|done].
    destruct Hok as [Hnd Hcost Htot]. exfalso.
    destruct (find_Some_key _ _ _ Hfind) as [_ Hin].
    destruct Hb as [Hb|Hb]; [rewrite Hb in Hin; inversion Hin|].
    unfold QCache.count in Htot. destruct (QCache.chain c); [inversion Hin | simpl in Htot; lia].
  - destruct (trim_spec (QCache.mx c - 1) c Hok) as (d & Hchain & Hmx & [Hnd Hcost Htot] & Hb1).
    set (c1 := QCache.trim (QCache.mx c - 1) c) in *.
    unfold QCache.findNode, QCache.keys, QCache.count in *.
    destruct (List.find _ (QCache.chain c1)) as [old|] eqn:Hfind; simpl.
    + destruct (find_Some_key _ _ _ Hfind) as [_ Hin].
      assert (QCache.n_cost old = 1) as Hold by (by rewrite Forall_forall in Hcost; apply Hcost).
      pose proof (without_length _ _ _ Hnd Hfind) as Hlen.
      split; [split; simpl|split; [right; simpl|done]].
      * apply NoDup_cons. split; [rewrite without_keys; naive_solver | by apply without_NoDup].
      * apply Forall_cons. split; [done | by apply without_Forall].
      * unfold QCache.count. simpl. lia.
      * destruct Hb1 as [Hb1|Hb1]; [rewrite Hb1 in Hin; inversion Hin | lia].
    + apply find_None_key in Hfind.
      split; [split; simpl|split; [right; simpl|done]].
      * by apply NoDup_cons.
      * by apply Forall_cons.
      * unfold QCache.count. simpl. lia.
      * destruct Hb1 as [Hb1|Hb1]; [rewrite Hb1 in Htot; simpl in Htot; lia | lia].
Qed.

(** After an insertion that the maximum cost admits, the key holds the
    object inserted. *)
Lemma lookup_insert_same k v c :
  1 <= QCache.mx c → QCache.lookup k (fst (QCache.insert k v 1 c)) = Some v.
Proof.
  intros Hroom. unfold QCache.insert.
  destruct (Z.ltb_spec (QCache.mx c) 1); [lia|].
  unfold QCache.lookup, QCache.findNode.
  destruct (List.find _ (QCache.chain (QCache.trim _ c))); simpl;
    by rewrite String.eqb_refl.
Qed.

Lemma object_result k c : fst (QCache.object k c) = QCache.lookup k c.
Proof.
  unfold QCache.object, QCache.lookup. by destruct (QCache.findNode k c).
Qed.

(** [object] leaves the contents of the cache as they are. *)
Lemma lookup_object k k' c :
  QCache.lookup k' (snd (QCache.object k c)) = QCache.lookup k' c.
Proof.
  unfold QCache.object, QCache.lookup, QCache.findNode.
  destruct (List.find _ (QCache.chain c)) as [n|] eqn:Hfind; [|done]. simpl.
  destruct (find_Some_key _ _ _ Hfind) as [Hk _].
  destruct (String.eqb_spec (QCache.n_key n) k') as [Heq|Hne].
  - assert (k' = k) as -> by congruence. by rewrite Hfind.
  - f_equal. apply find_without_ne. congruence.
Qed.

Lemma object_miss k c : QCache.lookup k c = None → QCache.object k c = (None, c).
Proof.
  unfold QCache.object, QCache.lookup. by destruct (QCache.findNode k c).
Qed.

Lemma object_ok k c :
  cache_ok c → cache_bounded c →
  cache_ok (snd (QCache.object k c)) ∧
  cache_bounded (snd (QCache.object k c)) ∧
  QCache.mx (snd (QCache.object k c)) = QCache.mx c ∧
  QCache.count (snd (QCache.object k c)) = QCache.count c.
Proof.
  intros [Hnd Hcost Htot] Hb. unfold QCache.object, QCache.findNode.
  destruct (List.find _ (QCache.chain c)) as [n|] eqn:Hfind; simpl; [|done].
  destruct (find_Some_key _ _ _ Hfind) as [Hk Hin].
  pose proof (without_length _ _ _ Hnd Hfind) as Hlen.
  unfold QCache.keys, QCache.count in *.
  split; [split; simpl|split; [right; simpl|split; [done | simpl; lia]]].
  - apply NoDup_cons. split; [rewrite without_keys; naive_solver | by apply without_NoDup].
  - apply Forall_cons. split; [by rewrite Forall_forall in Hcost; apply Hcost | by apply without_Forall].
  - unfold QCache.count. simpl. lia.
  - destruct Hb as [Hb|Hb]; [rewrite Hb in Hin; inversion Hin | done].
Qed.

Lemma setMaxCost_ok m c :
  cache_ok c →
  cache_ok (QCache.setMaxCost m c) ∧ cache_bounded (QCache.setMaxCost m c) ∧
  QCache.mx (QCache.setMaxCost m c) = m.
Proof.
  intros [Hnd Hcost Htot]. unfold QCache.setMaxCost.
  set (c0 := {| QCache.chain := QCache.chain c; QCache.mx := m; QCache.total := QCache.total c |}).
  assert (cache_ok c0) as Hok0 by (by split).
  destruct (trim_spec m c0 Hok0) as (d & _ & Hmx & Hok & Hb).
  split; [done | split; [|done]].
  unfold cache_bounded. rewrite Hmx. done.
Qed.

Lemma clear_ok c : cache_ok (QCache.clear c) ∧ cache_bounded (QCache.clear c).
Proof.
  split; [split; simpl; [apply NoDup_nil_2 | done | done] | by left].
Qed.

Lemma insert_fresh_room k v c :
  cache_ok c → k ∉ QCache.keys c → QCache.count c + 1 <= QCache.mx c →
  fst (QCache.insert k v 1 c)
  = {| QCache.chain := mkNode (k, v) :: QCache.chain c; QCache.mx := QCache.mx c;
       QCache.total := QCache.total c + 1 |}.
Proof.
  intros [_ _ Htot] Hk Hroom. unfold QCache.insert.
  pose proof (cache_ok_count_nonneg c).
  destruct (Z.ltb_spec (QCache.mx c) 1); [lia|].
  rewrite trim_within by lia.
  unfold QCache.findNode. apply find_None_key in Hk. by rewrite Hk.
Qed.

Lemma insertAll_cons e es c :
  insertAll (e :: es) c = insertAll es (fst (QCache.insert (fst e) (snd e) 1 c)).
Proof. reflexivity. Qed.

Lemma insertAll_snoc es e c :
  insertAll (es ++ [e]) c = fst (QCache.insert (fst e) (snd e) 1 (insertAll es c)).
Proof. unfold insertAll. by rewrite foldl_app. Qed.

(** Insertions of fresh keys into a cache with room for all of them pile up
    at the front of the chain. *)
Lemma insertAll_room entries c :
  cache_ok c → NoDup (map fst entries) →
  (∀ k, k ∈ map fst entries → k ∉ QCache.keys c) →
  QCache.count c + Z.of_nat (length entries) <= QCache.mx c →
  insertAll entries c
  = {| QCache.chain := rev (map mkNode entries) ++ QCache.chain c;
       QCache.mx := QCache.mx c;
       QCache.total := QCache.total c + Z.of_nat (length entries) |}.
Proof.
  revert c. induction entries as [|[k v] es IH]; intros c Hok Hnd Hfresh Hroom.
  - simpl. rewrite Z.add_0_r. by destruct c.
  - simpl in Hnd. apply NoDup_cons in Hnd as [Hk Hnd].
    assert (k ∉ QCache.keys c) as Hkc by (apply Hfresh; simpl; left).
    rewrite insertAll_cons. cbn [fst snd].
    simpl length in Hroom.
    rewrite insert_fresh_room by (done || lia).
    rewrite IH; simpl.
    + f_equal; [|lia]. by rewrite <- app_assoc.
    + destruct (insert_ok k v c Hok) as (Hok' & _ & _).
      { right. destruct Hok as [_ _ Htot]. pose proof (cache_ok_count_nonneg c). lia. }
      rewrite insert_fresh_room in Hok' by (done || lia). done.
    + done.
    + intros x Hx. unfold QCache.keys. simpl. rewrite not_elem_of_cons. split.
      * intros ->. done.
      * apply Hfresh. simpl. by right.
    + unfold QCache.count in *. simpl. lia.
Qed.

(** One key more than the cache can hold: the first one inserted, which is
    the least recently used, is the one that goes. *)
Lemma insertAll_overflow (cap : nat) entries c :
  QCache.chain c = [] → QCache.total c = 0 → QCache.mx c = Z.of_nat cap →
  NoDup (map fst entries) → length entries = S cap →
  insertAll entries c
  = {| QCache.chain := rev (map mkNode (tail entries));
       QCache.mx := Z.of_nat cap; QCache.total := Z.of_nat cap |}.
Proof.
  intros Hchain Htot Hmx Hnd Hlen.
  assert (cache_ok c) as Hok.
  { split; unfold QCache.keys, QCache.count; rewrite ?Hchain; simpl;
      [apply NoDup_nil_2 | done | done]. }
  destruct entries as [|e0 rest]; [done|]. simpl in Hlen. simpl tail.
  destruct rest as [|e1 rest'] using rev_ind.
  - simpl in Hlen. assert (cap = 0%nat) as -> by lia.
    destruct e0 as [k v]. rewrite insertAll_cons. cbn [insertAll foldl fst snd].
    unfold QCache.insert.
    rewrite Hmx. simpl. unfold QCache.remove, QCache.findNode. rewrite Hchain. simpl.
    destruct c; simpl in *; by subst.
  - clear IHrest'. rewrite length_app in Hlen. simpl in Hlen.
    rewrite app_comm_cons, insertAll_snoc.
    assert (NoDup (map fst (e0 :: rest')) ∧ fst e1 ∉ map fst (e0 :: rest')) as [Hnd' He1].
    { rewrite app_comm_cons, map_app in Hnd. apply NoDup_app in Hnd as (H1 & H2 & _).
      split; [done|]. intros Hin. apply (H2 _ Hin). simpl. left. }
    rewrite insertAll_room; [| done | done | | ].
    2:{ intros k _. unfold QCache.keys. rewrite Hchain. simpl. apply not_elem_of_nil. }
    2:{ unfold QCache.count. rewrite Hchain. simpl length in *. lia. }
    rewrite Hchain, Htot, Hmx, app_nil_r.
    unfold QCache.insert. cbn [QCache.mx].
    destruct (Z.ltb_spec (Z.of_nat cap) 1); [lia|].
    unfold QCache.trim. cbn [QCache.chain QCache.total QCache.mx].
    rewrite rev_involutive. cbn [map QCache.trimFromBack].
    destruct (Z.ltb_spec (Z.of_nat cap - 1) (0 + Z.of_nat (length (e0 :: rest')))) as [_|Hge];
      [|simpl length in Hge; lia].
    rewrite trimFromBack_within by (simpl; lia).
    unfold QCache.findNode. cbn [QCache.chain].
    assert (List.find (QCache.hasKey (fst e1)) (rev (map mkNode rest')) = None)
      as ->.
    { apply find_None_key. rewrite <- map_rev, map_map. simpl.
      intros Hin. apply He1. simpl. right.
      apply list_elem_of_In in Hin. apply list_elem_of_In.
      apply in_map_iff in Hin as (x & Hx & Hin). apply in_rev in Hin.
      apply in_map_iff. by exists x. }
    cbn [fst]. rewrite map_app, rev_app_distr. simpl.
    f_equal. simpl length. lia.
Qed.

(** With the invariants, the number of objects is within the maximum cost,
    and a cache with a negative maximum cost is empty. *)
Lemma bounded_count c :
  cache_ok c → cache_bounded c →
  (0 <= QCache.mx c → QCache.count c <= QCache.mx c) ∧
  (QCache.mx c < 0 → QCache.count c = 0).
Proof.
  intros [_ _ Htot] [Hb|Hb]; unfold QCache.count in *.
  - rewrite Hb. simpl. lia.
  - lia.
Qed.

End CacheFacts.

(** ** The registry of pending requests *)

Section RegistryFacts.

Implicit Types (w : World) (h : string) (x this : addr).

Lemma removePending_frame h x w :
  m_imageCache (removePendingRequest h x w) = m_imageCache w ∧
  heap (removePendingRequest h x w) = heap w ∧
  enqueued (removePendingRequest h x w) = enqueued w ∧
  handled (removePendingRequest h x w) = handled w ∧
  decodes (removePendingRequest h x w) = decodes w ∧
  finishedSignals (removePendingRequest h x w) = finishedSignals w.
Proof.
  unfold removePendingRequest. destruct (m_pendingRequests w !! h); [|done].
  by destruct (decide _).
Qed.

Lemma removePending_cong h x w1 w2 :
  m_pendingRequests w1 = m_pendingRequests w2 →
  m_pendingRequests (removePendingRequest h x w1)
  = m_pendingRequests (removePendingRequest h x w2).
Proof.
  intros E. unfold removePendingRequest. rewrite E.
  destruct (m_pendingRequests w2 !! h); [|done]. by destruct (decide _).
Qed.

Lemma waiters_cong w1 w2 h :
  m_pendingRequests w1 = m_pendingRequests w2 → waiters w1 h = waiters w2 h.
Proof. unfold waiters. by intros ->. Qed.

(** [removePendingRequest] takes the response out of the set of its hash and
    touches no other set. *)
Lemma removePending_waiters h x w h' :
  waiters (removePendingRequest h x w) h'
  = if decide (h' = h) then waiters w h ∖ {[x]} else waiters w h'.
Proof.
  unfold waiters, removePendingRequest.
  destruct (m_pendingRequests w !! h) as [s|] eqn:E; simpl.
  - destruct (decide (s ∖ {[x]} = ∅)) as [He|He]; simpl; destruct (decide (h' = h)) as [->|Hne].
    + by rewrite lookup_delete_eq, He.
    + by rewrite lookup_delete_ne.
    + by rewrite lookup_insert_eq.
    + by rewrite lookup_insert_ne.
  - destruct (decide (h' = h)) as [->|Hne]; [|done]. rewrite E. simpl. set_solver.
Qed.

(** It leaves no empty set behind. *)
Lemma removePending_nonempty h x w :
  (∀ h' (s : gset addr), m_pendingRequests w !! h' = Some s → s ≠ ∅) →
  ∀ h' (s : gset addr), m_pendingRequests (removePendingRequest h x w) !! h' = Some s → s ≠ ∅.
Proof.
  intros Hne h' s. unfold removePendingRequest.
  destruct (m_pendingRequests w !! h) as [s0|] eqn:E; [|apply Hne].
  destruct (decide (s0 ∖ {[x]} = ∅)) as [He|He]; simpl.
  - destruct (decide (h' = h)) as [->|Hd];
      [by rewrite lookup_delete_eq | rewrite lookup_delete_ne by done; apply Hne].
  - destruct (decide (h' = h)) as [->|Hd].
    + rewrite lookup_insert_eq. by intros [= <-].
    + rewrite lookup_insert_ne by done. apply Hne.
Qed.

(** It opens no entry. *)
Lemma removePending_None h x w h' :
  m_pendingRequests w !! h' = None →
  m_pendingRequests (removePendingRequest h x w) !! h' = None.
Proof.
  intros Hn. unfold removePendingRequest.
  destruct (m_pendingRequests w !! h) as [s0|] eqn:E; [|done].
  assert (h ≠ h') by congruence.
  destruct (decide (s0 ∖ {[x]} = ∅)); simpl;
    [by rewrite lookup_delete_ne | by rewrite lookup_insert_ne].
Qed.

(** The entry of the hash is dropped when its set becomes empty. *)
Lemma removePending_last h x w (s : gset addr) :
  m_pendingRequests w !! h = Some s → s ∖ {[x]} = ∅ →
  m_pendingRequests (removePendingRequest h x w) !! h = None.
Proof.
  intros E He. unfold removePendingRequest. rewrite E.
  destruct (decide (s ∖ {[x]} = ∅)); [|done]. simpl. apply lookup_delete_eq.
Qed.

(** For a response that waits nowhere it is the identity. *)
Lemma removePending_absent h x w :
  (∀ h' (s : gset addr), m_pendingRequests w !! h' = Some s → s ≠ ∅) →
  x ∉ waiters w h → removePendingRequest h x w = w.
Proof.
  intros Hne Hx. unfold removePendingRequest, waiters in *.
  destruct (m_pendingRequests w !! h) as [s|] eqn:E; [|done]. simpl in Hx.
  assert (s ∖ {[x]} = s) as -> by set_solver.
  destruct (decide (s = ∅)) as [He|_]; [by destruct (Hne h s E)|].
  rewrite insert_id by done. by destruct w.
Qed.

Lemma waiters_Some w h (s : gset addr) :
  m_pendingRequests w !! h = Some s → waiters w h = s.
Proof. unfold waiters. by intros ->. Qed.

Lemma waiters_None w h : m_pendingRequests w !! h = None → waiters w h = ∅.
Proof. unfold waiters. by intros ->. Qed.

Lemma waiter_live w h x :
  registry_ok w → x ∈ waiters w h →
  ∃ r, heap w !! x = Some r ∧ m_fileHash r = h ∧ m_finished r = false.
Proof.
  intros [_ Hw]. unfold waiters.
  destruct (m_pendingRequests w !! h) as [s|] eqn:E; simpl; [by apply Hw | set_solver].
Qed.

Lemma registry_ok_intro w :
  (∀ h (s : gset addr), m_pendingRequests w !! h = Some s → s ≠ ∅) →
  (∀ h x, x ∈ waiters w h →
     ∃ r, heap w !! x = Some r ∧ m_fileHash r = h ∧ m_finished r = false) →
  registry_ok w.
Proof.
  intros Hne Hw. split; [done|]. intros h s x E Hx. apply Hw.
  by rewrite (waiters_Some _ _ _ E).
Qed.

Lemma registry_ok_ext w w' :
  m_pendingRequests w' = m_pendingRequests w → heap w' = heap w →
  registry_ok w → registry_ok w'.
Proof. intros Ep Eh [Hne Hw]. split; rewrite Ep, ?Eh; done. Qed.

Lemma world_ok_ext w w' :
  m_imageCache w' = m_imageCache w →
  m_pendingRequests w' = m_pendingRequests w → heap w' = heap w →
  world_ok w → world_ok w'.
Proof.
  intros Ec Ep Eh [Hc Hb Hr]. split; rewrite ?Ec; [done | done |].
  by apply (registry_ok_ext w).
Qed.

(** A response at a fresh address waits nowhere. *)
Lemma fresh_not_waiter w h :
  registry_ok w → fresh (dom (heap w)) ∉ waiters w h.
Proof.
  intros Hok Hin. destruct (waiter_live _ _ _ Hok Hin) as (r & Hr & _).
  apply (is_fresh (dom (heap w))). apply elem_of_dom. by exists r.
Qed.

Lemma dead_not_waiter w h x :
  registry_ok w → heap w !! x = None → x ∉ waiters w h.
Proof.
  intros Hok Hx Hin. destruct (waiter_live _ _ _ Hok Hin) as (r & Hr & _). congruence.
Qed.

Lemma finished_not_waiter w h x r :
  registry_ok w → heap w !! x = Some r → m_finished r = true → x ∉ waiters w h.
Proof.
  intros Hok Hx Hf Hin. destruct (waiter_live _ _ _ Hok Hin) as (r' & Hr & _ & Hu).
  congruence.
Qed.

Lemma registry_ok_heap_insert w this r :
  registry_ok w → (∀ h, this ∉ waiters w h) →
  registry_ok (setHeap (<[this := r]> (heap w)) w).
Proof.
  intros Hok Hnot. apply registry_ok_intro; [apply Hok|].
  intros h x Hx. change (waiters (setHeap _ w) h) with (waiters w h) in Hx.
  destruct (waiter_live _ _ _ Hok Hx) as (r' & Hr & Hh & Hf).
  exists r'. simpl. rewrite lookup_insert_ne; [done|]. intros ->. by apply (Hnot h).
Qed.

Lemma registry_ok_heap_delete w this :
  registry_ok w → (∀ h, this ∉ waiters w h) →
  registry_ok (setHeap (delete this (heap w)) w).
Proof.
  intros Hok Hnot. apply registry_ok_intro; [apply Hok|].
  intros h x Hx. change (waiters (setHeap _ w) h) with (waiters w h) in Hx.
  destruct (waiter_live _ _ _ Hok Hx) as (r' & Hr & Hh & Hf).
  exists r'. simpl. rewrite lookup_delete_ne; [done|]. intros ->. by apply (Hnot h).
Qed.

Lemma removePending_registry_ok h x w :
  registry_ok w → registry_ok (removePendingRequest h x w).
Proof.
  intros Hok. apply registry_ok_intro.
  - apply removePending_nonempty, Hok.
  - intros h' y. rewrite removePending_waiters.
    destruct (removePending_frame h x w) as (_ & -> & _).
    destruct (decide (h' = h)) as [->|_]; intros Hy; apply (waiter_live _ _ _ Hok); set_solver.
Qed.

(** A response that finishes: its record is replaced by one with the same
    hash, and it leaves the set of its hash. *)
Lemma finish_registry_ok w w' this r r' :
  registry_ok w → heap w !! this = Some r → m_fileHash r' = m_fileHash r →
  heap w' = <[this := r']> (heap w) →
  m_pendingRequests w' = m_pendingRequests (removePendingRequest (m_fileHash r) this w) →
  registry_ok w'.
Proof.
  intros Hok Hthis Hhash Eh Ep. apply registry_ok_intro.
  - rewrite Ep. apply removePending_nonempty, Hok.
  - intros h x Hx. rewrite (waiters_cong _ _ _ Ep), removePending_waiters in Hx.
    rewrite Eh.
    assert (x ∈ waiters w h ∧ x ≠ this) as [Hin Hne].
    { destruct (decide (h = m_fileHash r)) as [->|Hd]; [set_solver|].
      split; [done|]. intros ->.
      destruct (waiter_live _ _ _ Hok Hx) as (r0 & Hr0 & Hh & _). congruence. }
    destruct (waiter_live _ _ _ Hok Hin) as (r0 & Hr0 & Hh & Hf).
    exists r0. by rewrite lookup_insert_ne.
Qed.

End RegistryFacts.

(** ** Responses *)

Section ResponseFacts.

Implicit Types (w : World) (h : string) (x this : addr) (r : ThumbnailResponse).

Lemma finishWithImage_fields this image w r :
  heap w !! this = Some r →
  heap (finishWithImage this image w) = <[this := withImage image r]> (heap w) ∧
  m_pendingRequests (finishWithImage this image w)
    = m_pendingRequests (removePendingRequest (m_fileHash r) this w) ∧
  m_imageCache (finishWithImage this image w)
    = fst (QCache.insert (cacheKey (m_fileHash r) (m_size r)) image 1 (m_imageCache w)) ∧
  enqueued (finishWithImage this image w) = enqueued w ∧
  handled (finishWithImage this image w) = handled w ∧
  decodes (finishWithImage this image w) = decodes w ∧
  finishedSignals (finishWithImage this image w) = finishedSignals w ++ [this].
Proof.
  intros Hr. unfold finishWithImage. rewrite Hr. simpl.
  match goal with |- context [removePendingRequest ?k ?y ?v] =>
    destruct (removePending_frame k y v) as (-> & -> & -> & -> & -> & ->) end.
  simpl. repeat split. by apply removePending_cong.
Qed.

Lemma finishWithError_fields this error w r :
  heap w !! this = Some r →
  heap (finishWithError this error w) = <[this := withError error r]> (heap w) ∧
  m_pendingRequests (finishWithError this error w)
    = m_pendingRequests (removePendingRequest (m_fileHash r) this w) ∧
  m_imageCache (finishWithError this error w) = m_imageCache w ∧
  enqueued (finishWithError this error w) = enqueued w ∧
  handled (finishWithError this error w) = handled w ∧
  decodes (finishWithError this error w) = decodes w ∧
  finishedSignals (finishWithError this error w) = finishedSignals w ++ [this].
Proof.
  intros Hr. unfold finishWithError. rewrite Hr. simpl.
  match goal with |- context [removePendingRequest ?k ?y ?v] =>
    destruct (removePending_frame k y v) as (-> & -> & -> & -> & -> & ->) end.
  simpl. repeat split. by apply removePending_cong.
Qed.

Lemma cacheImage_ok key image w : world_ok w → world_ok (cacheImage key image w).
Proof.
  intros [Hc Hb Hr]. destruct (insert_ok key image _ Hc Hb) as (Hc' & Hb' & _).
  split; [done | done | by apply (registry_ok_ext w)].
Qed.

Lemma getCachedImage_ok key w : world_ok w → world_ok (snd (getCachedImage key w)).
Proof.
  intros [Hc Hb Hr]. destruct (object_ok key _ Hc Hb) as (Hc' & Hb' & _).
  unfold getCachedImage. destruct (QCache.object key (m_imageCache w)) as [o c]. simpl in *.
  split; [done | done | by apply (registry_ok_ext w)].
Qed.

Lemma getCachedImage_frame key w :
  m_pendingRequests (snd (getCachedImage key w)) = m_pendingRequests w ∧
  heap (snd (getCachedImage key w)) = heap w ∧
  enqueued (snd (getCachedImage key w)) = enqueued w ∧
  handled (snd (getCachedImage key w)) = handled w ∧
  decodes (snd (getCachedImage key w)) = decodes w ∧
  finishedSignals (snd (getCachedImage key w)) = finishedSignals w ∧
  m_imageCache (snd (getCachedImage key w)) = snd (QCache.object key (m_imageCache w)) ∧
  fst (getCachedImage key w) = default NullImage (QCache.lookup key (m_imageCache w)).
Proof.
  unfold getCachedImage. rewrite <- object_result.
  by destruct (QCache.object key (m_imageCache w)) as [[i|] c].
Qed.

Lemma finishWithImage_ok this image w : world_ok w → world_ok (finishWithImage this image w).
Proof.
  intros Hok. destruct (heap w !! this) as [r|] eqn:Hr;
    [|by unfold finishWithImage; rewrite Hr].
  destruct (finishWithImage_fields this image w r Hr) as (Eh & Ep & Ec & _).
  destruct Hok as [Hc Hb Hreg].
  destruct (insert_ok (cacheKey (m_fileHash r) (m_size r)) image _ Hc Hb) as (Hc' & Hb' & _).
  split; rewrite ?Ec; [done | done |].
  by apply (finish_registry_ok w _ this r (withImage image r)).
Qed.

Lemma finishWithError_ok this error w : world_ok w → world_ok (finishWithError this error w).
Proof.
  intros Hok. destruct (heap w !! this) as [r|] eqn:Hr;
    [|by unfold finishWithError; rewrite Hr].
  destruct (finishWithError_fields this error w r Hr) as (Eh & Ep & Ec & _).
  destruct Hok as [Hc Hb Hreg].
  split; rewrite ?Ec; [done | done |].
  by apply (finish_registry_ok w _ this r (withError error r)).
Qed.

Lemma logDecode_ok this d w : world_ok w → world_ok (logDecode this d w).
Proof. by apply world_ok_ext. Qed.

Lemma logHandled_ok this c w : world_ok w → world_ok (logHandled this c w).
Proof. by apply world_ok_ext. Qed.

Lemma loadFromPath_ok env this path w : world_ok w → world_ok (loadFromPath env this path w).
Proof.
  intros Hok. unfold loadFromPath. destruct (heap w !! this) as [r|]; [|done].
  destruct (isNull _);
    [apply finishWithError_ok | apply finishWithImage_ok]; by apply logDecode_ok.
Qed.

Lemma loadFromBase64_ok env this b64 w : world_ok w → world_ok (loadFromBase64 env this b64 w).
Proof.
  intros Hok. unfold loadFromBase64.
  destruct (negb _);
    [apply finishWithImage_ok | apply finishWithError_ok]; by apply logDecode_ok.
Qed.

Lemma handleThumbnailReady_ok env this c w :
  world_ok w → world_ok (handleThumbnailReady env this c w).
Proof.
  intros Hok%(logHandled_ok this c). unfold handleThumbnailReady.
  destruct (heap _ !! this) as [r|]; [|done].
  destruct (m_finished r); [done|].
  destruct (_ && _); [by apply loadFromBase64_ok|].
  destruct (negb _); [by apply loadFromPath_ok | by apply finishWithError_ok].
Qed.

Lemma deliverAll_ok env c l w : world_ok w → world_ok (deliverAll env c l w).
Proof.
  revert w. induction l as [|x l IH]; intros w Hok; [done|].
  apply IH. by apply handleThumbnailReady_ok.
Qed.

Lemma notifyThumbnailReady_ok env h size c w :
  world_ok w → world_ok (notifyThumbnailReady env h size c w).
Proof.
  intros Hok. unfold notifyThumbnailReady.
  destruct (m_pendingRequests w !! h) as [s|] eqn:E; [|done].
  apply deliverAll_ok. destruct Hok as [Hc Hb Hreg]. split; [done | done |].
  apply registry_ok_intro.
  - intros h' s'. simpl. destruct (decide (h' = h)) as [->|Hne];
      [by rewrite lookup_delete_eq | rewrite lookup_delete_ne by done; apply Hreg].
  - intros h' x. unfold waiters. simpl. destruct (decide (h' = h)) as [->|Hne].
    + rewrite lookup_delete_eq. simpl. set_solver.
    + rewrite lookup_delete_ne by done. apply (waiter_live w h' x Hreg).
Qed.

Lemma addPending_waiters h x w h' :
  waiters (addPendingRequest h x w) h'
  = if decide (h' = h) then waiters w h ∪ {[x]} else waiters w h'.
Proof.
  unfold waiters, addPendingRequest. simpl.
  destruct (decide (h' = h)) as [->|Hne];
    [by rewrite lookup_insert_eq | by rewrite lookup_insert_ne].
Qed.

Lemma newThumbnailResponse_ok env h filePath size rs w :
  world_ok w → world_ok (snd (newThumbnailResponse env h filePath size rs w)).
Proof.
  intros Hok. unfold newThumbnailResponse.
  set (this := fresh (dom (heap w))). set (r0 := Build_ThumbnailResponse _ _ _ _ _ _ _).
  set (w0 := setHeap _ w).
  assert (∀ h', this ∉ waiters w h') as Hfresh
    by (intros h'; apply fresh_not_waiter, Hok).
  assert (world_ok w0) as Hok0.
  { destruct Hok as [Hc Hb Hreg]. split; [done | done |].
    by apply registry_ok_heap_insert. }
  destruct (hasCachedImage _ w0).
  - pose proof (getCachedImage_ok (cacheKey h size) w0 Hok0) as Hok1.
    destruct (getCachedImage_frame (cacheKey h size) w0) as (Ep & Eh & _).
    destruct (getCachedImage (cacheKey h size) w0) as [image w1]. simpl in *.
    destruct Hok1 as [Hc Hb Hreg]. split; [done | done |].
    apply (registry_ok_ext (setHeap (<[this := withImage image r0]> (heap w1)) w1));
      [done | done |].
    apply registry_ok_heap_insert; [done|].
    intros h'. rewrite (waiters_cong w1 w0 h' Ep). apply Hfresh.
  - destruct (_ && _); [by apply loadFromPath_ok|].
    destruct (QStr.isEmpty filePath); [by apply finishWithError_ok|].
    simpl. apply (world_ok_ext (addPendingRequest h this w0)); [done | done | done |].
    destruct Hok0 as [Hc Hb Hreg]. split; [done | done |].
    apply registry_ok_intro.
    + intros h' s. simpl. destruct (decide (h' = h)) as [->|Hne].
      * rewrite lookup_insert_eq. intros [= <-]. set_solver.
      * rewrite lookup_insert_ne by done. apply Hreg.
    + intros h' x. rewrite addPending_waiters.
      change (heap (addPendingRequest h this w0)) with (heap w0).
      destruct (decide (h' = h)) as [->|Hne]; [|apply (waiter_live w0 h' x Hreg)].
      intros [Hx | ->%elem_of_singleton]%elem_of_union;
        [by apply (waiter_live w0 h x Hreg)|].
      exists r0. split; [apply lookup_insert_eq | done].
Qed.

Lemma deleteResponse_ok this w : world_ok w → world_ok (deleteResponse this w).
Proof.
  intros [Hc Hb Hreg]. unfold deleteResponse.
  destruct (heap w !! this) as [r|] eqn:Hr; [|done].
  destruct (m_finished r) eqn:Hf.
  - split; [done | done |]. apply registry_ok_heap_delete; [done|].
    intros h. by apply (finished_not_waiter w h this r).
  - destruct (removePending_frame (m_fileHash r) this w) as (Ec & Eh & _).
    split; simpl; rewrite ?Ec; [done | done |].
    apply registry_ok_heap_delete; [by apply removePending_registry_ok|].
    intros h. rewrite removePending_waiters.
    destruct (decide (h = m_fileHash r)) as [->|Hne]; [set_solver|].
    intros Hin. destruct (waiter_live _ _ _ Hreg Hin) as (r' & Hr' & Hh & _). congruence.
Qed.

Lemma newWorld_ok : world_ok newWorld.
Proof.
  destruct (create_ok DEFAULT_CACHE_SIZE) as [Hc Hb].
  split; [done | done |]. split; intros h s; simpl; by rewrite lookup_empty.
Qed.

Lemma step_ok o w : world_ok w → world_ok (step o w).
Proof.
  intros Hok. destruct o; simpl.
  - by apply newThumbnailResponse_ok.
  - by apply deleteResponse_ok.
  - by apply notifyThumbnailReady_ok.
  - by apply handleThumbnailReady_ok.
  - destruct Hok as [Hc Hb Hreg]. destruct (clear_ok (m_imageCache w)).
    split; [done | done | by apply (registry_ok_ext w)].
  - destruct Hok as [Hc Hb Hreg]. destruct (setMaxCost_ok maxImages _ Hc) as (? & ? & _).
    split; [done | done | by apply (registry_ok_ext w)].
  - by apply cacheImage_ok.
  - by apply getCachedImage_ok.
Qed.

Lemma run_app ops1 ops2 w : run (ops1 ++ ops2) w = run ops2 (run ops1 w).
Proof. unfold run. apply foldl_app. Qed.

(** Every state the subsystem reaches satisfies the invariants. *)
Lemma run_ok ops w : world_ok w → world_ok (run ops w).
Proof.
  revert w. induction ops as [|o ops IH]; intros w Hok; [done|].
  apply IH. by apply step_ok.
Qed.

End ResponseFacts.

(** ** Unfinished responses *)

Section HeapFacts.

Implicit Types (w : World) (x this : addr) (r : ThumbnailResponse).

Lemma heap_ok_ext w w' : heap w' = heap w → heap_ok w → heap_ok w'.
Proof. unfold heap_ok. by intros ->. Qed.

Lemma heap_ok_insert w w' this r' :
  heap w' = <[this := r']> (heap w) →
  (m_finished r' = false → m_image r' = NullImage ∧ m_errorString r' = EmptyString) →
  heap_ok w → heap_ok w'.
Proof.
  intros E Hr' Hok x r. rewrite E.
  destruct (decide (x = this)) as [->|Hne].
  - rewrite lookup_insert_eq. by intros [= <-].
  - rewrite lookup_insert_ne by done. apply Hok.
Qed.

Lemma finishWithImage_heap_ok this image w : heap_ok w → heap_ok (finishWithImage this image w).
Proof.
  intros Hok. destruct (heap w !! this) as [r|] eqn:Hr;
    [|by unfold finishWithImage; rewrite Hr].
  destruct (finishWithImage_fields this image w r Hr) as (Eh & _).
  by apply (heap_ok_insert w _ this (withImage image r)).
Qed.

Lemma finishWithError_heap_ok this error w : heap_ok w → heap_ok (finishWithError this error w).
Proof.
  intros Hok. destruct (heap w !! this) as [r|] eqn:Hr;
    [|by unfold finishWithError; rewrite Hr].
  destruct (finishWithError_fields this error w r Hr) as (Eh & _).
  by apply (heap_ok_insert w _ this (withError error r)).
Qed.

Lemma loadFromPath_heap_ok env this path w : heap_ok w → heap_ok (loadFromPath env this path w).
Proof.
  intros Hok. unfold loadFromPath. destruct (heap w !! this) as [r|]; [|done].
  destruct (isNull _); [by apply finishWithError_heap_ok | by apply finishWithImage_heap_ok].
Qed.

Lemma loadFromBase64_heap_ok env this b64 w :
  heap_ok w → heap_ok (loadFromBase64 env this b64 w).
Proof.
  intros Hok. unfold loadFromBase64.
  destruct (negb _); [by apply finishWithImage_heap_ok | by apply finishWithError_heap_ok].
Qed.

Lemma handleThumbnailReady_heap_ok env this c w :
  heap_ok w → heap_ok (handleThumbnailReady env this c w).
Proof.
  intros Hok. unfold handleThumbnailReady.
  destruct (heap _ !! this) as [r|]; [|done].
  destruct (m_finished r); [done|].
  destruct (_ && _); [by apply loadFromBase64_heap_ok|].
  destruct (negb _); [by apply loadFromPath_heap_ok | by apply finishWithError_heap_ok].
Qed.

Lemma deliverAll_heap_ok env c l w : heap_ok w → heap_ok (deliverAll env c l w).
Proof.
  revert w. induction l as [|x l IH]; intros w Hok; [done|].
  apply IH. by apply handleThumbnailReady_heap_ok.
Qed.

Lemma newThumbnailResponse_heap_ok env h filePath size rs w :
  heap_ok w → heap_ok (snd (newThumbnailResponse env h filePath size rs w)).
Proof.
  intros Hok. unfold newThumbnailResponse.
  set (this := fresh (dom (heap w))). set (r0 := Build_ThumbnailResponse _ _ _ _ _ _ _).
  set (w0 := setHeap _ w).
  assert (heap_ok w0) as Hok0 by (by apply (heap_ok_insert w _ this r0)).
  destruct (hasCachedImage _ w0).
  - destruct (getCachedImage_frame (cacheKey h size) w0) as (_ & Eh & _).
    destruct (getCachedImage (cacheKey h size) w0) as [image w1]. simpl in *.
    apply (heap_ok_insert w1 _ this (withImage image r0)); [done | done |].
    by apply (heap_ok_ext w0).
  - destruct (_ && _); [by apply loadFromPath_heap_ok|].
    destruct (QStr.isEmpty filePath); [by apply finishWithError_heap_ok | done].
Qed.

Lemma deleteResponse_heap_ok this w : heap_ok w → heap_ok (deleteResponse this w).
Proof.
  intros Hok. unfold deleteResponse. destruct (heap w !! this) as [r|] eqn:Hr; [|done].
  intros x r'. simpl.
  destruct (decide (x = this)) as [->|Hne];
    [by rewrite lookup_delete_eq | rewrite lookup_delete_ne by done].
  destruct (m_finished r); [apply Hok|].
  destruct (removePending_frame (m_fileHash r) this w) as (_ & -> & _). apply Hok.
Qed.

Lemma step_heap_ok o w : heap_ok w → heap_ok (step o w).
Proof.
  intros Hok. destruct o; simpl; try done.
  - by apply newThumbnailResponse_heap_ok.
  - by apply deleteResponse_heap_ok.
  - unfold notifyThumbnailReady. destruct (m_pendingRequests w !! fileHash); [|done].
    by apply deliverAll_heap_ok.
  - by apply handleThumbnailReady_heap_ok.
  - destruct (getCachedImage_frame key w) as (_ & Eh & _). by apply (heap_ok_ext w).
Qed.

Lemma run_heap_ok ops : heap_ok (run ops newWorld).
Proof.
  assert (∀ w, heap_ok w → heap_ok (run ops w)) as H.
  { induction ops as [|o ops IH]; intros w Hok; [done|].
    apply IH. by apply step_heap_ok. }
  apply H. intros x r. simpl. by rewrite lookup_empty.
Qed.

End HeapFacts.

(** * The claims *)

(** ** Cache bound and eviction *)

Lemma cacheImages_cache entries w :
  m_imageCache (cacheImages entries w) = insertAll entries (m_imageCache w).
Proof.
  revert w. induction entries as [|e es IH]; intros w; [done|].
  change (cacheImages (e :: es) w) with (cacheImages es (cacheImage (fst e) (snd e) w)).
  by rewrite IH.
Qed.

Lemma find_node_NoDup (l : list QCache.Node) n :
  NoDup (map QCache.n_key l) → n ∈ l →
  List.find (QCache.hasKey (QCache.n_key n)) l = Some n.
Proof.
  induction l as [|a l IH]; simpl; [by intros _ H; inversion H|].
  intros [Ha Hnd]%NoDup_cons [->|Hin]%elem_of_cons; unfold QCache.hasKey at 1.
  - by rewrite String.eqb_refl.
  - destruct (String.eqb_spec (QCache.n_key a) (QCache.n_key n)) as [E|_]; [|by apply IH].
    destruct Ha. rewrite E. apply list_elem_of_In, in_map, list_elem_of_In, Hin.
Qed.

Example recency_not_insertion_order :
  let w := run [SetCacheSize 2; CacheImage "a" NullImage; CacheImage "b" NullImage;
                GetCachedImage "a"; CacheImage "c" NullImage] newWorld in
  QCache.keys (m_imageCache w) = ["c"; "a"]%string.
Proof. reflexivity. Qed.

(** C3. The default capacity of the image cache is 200 entries; in every
    state the subsystem reaches, the cache holds no more entries than its
    capacity (and none when the capacity was set below 0); and after
    capacity+1 distinct keys are inserted into an empty cache, it holds
    exactly capacity entries: the first key inserted, the least recently
    used, is absent, and every other key holds its image. *)
Theorem cache_bound_and_lru (ops : list Op) (cap : nat) (entries : list (string * QImage)) :
  NoDup (map fst entries) →
  length entries = S cap →
  let w := run ops newWorld in
  let filled := cacheImages entries (setCacheSize (Z.of_nat cap) (clearCache w)) in
  DEFAULT_CACHE_SIZE = 200 ∧
  QCache.mx (m_imageCache newWorld) = 200 ∧
  (0 <= QCache.mx (m_imageCache w) →
     QCache.count (m_imageCache w) <= QCache.mx (m_imageCache w)) ∧
  (QCache.mx (m_imageCache w) < 0 → QCache.count (m_imageCache w) = 0) ∧
  QCache.count (m_imageCache filled) = Z.of_nat cap ∧
  (∀ e, head entries = Some e → hasCachedImage (fst e) filled = false) ∧
  (∀ e, e ∈ tail entries →
     hasCachedImage (fst e) filled = true ∧ fst (getCachedImage (fst e) filled) = snd e).
Proof.
  intros Hnd Hlen w filled.
  split; [done | split; [done|]].
  destruct (run_ok ops newWorld newWorld_ok) as [Hc Hb _]. fold w in Hc, Hb.
  destruct (bounded_count _ Hc Hb) as [Hpos Hneg].
  split; [done | split; [done|]].
  assert (m_imageCache filled
          = {| QCache.chain := rev (map mkNode (tail entries));
               QCache.mx := Z.of_nat cap; QCache.total := Z.of_nat cap |}) as Hfilled.
  { unfold filled. rewrite cacheImages_cache. by apply insertAll_overflow. }
  destruct entries as [|e0 rest]; [done|]. simpl in Hlen, Hnd. simpl tail in *.
  apply NoDup_cons in Hnd as [He0 Hrest].
  assert (NoDup (map QCache.n_key (rev (map mkNode rest)))) as Hkeys.
  { rewrite <- map_rev, map_map. simpl. by rewrite <- (Permutation_rev rest). }
  split; [|split].
  - rewrite Hfilled. unfold QCache.count. simpl. rewrite length_rev, length_map. lia.
  - intros e [= <-]. unfold hasCachedImage, QCache.contains, QCache.findNode.
    rewrite Hfilled. simpl.
    assert (List.find (QCache.hasKey (fst e0)) (rev (map mkNode rest)) = None)
      as ->; [|done].
    apply find_None_key. rewrite <- map_rev, map_map. simpl.
    intros Hin. apply He0. by rewrite <- (Permutation_rev rest) in Hin.
  - intros e He.
    assert (List.find (QCache.hasKey (fst e)) (rev (map mkNode rest))
            = Some (mkNode e)) as Hfind.
    { apply (find_node_NoDup _ (mkNode e) Hkeys).
      apply list_elem_of_In, in_rev. rewrite rev_involutive.
      apply in_map, list_elem_of_In, He. }
    destruct (getCachedImage_frame (fst e) filled) as (_ & _ & _ & _ & _ & _ & _ & ->).
    unfold hasCachedImage, QCache.contains, QCache.lookup, QCache.findNode.
    rewrite Hfilled. simpl. by rewrite Hfind.
Qed.

Lemma cache_bound_and_lru_witness :
  let entries := [("a", NullImage); ("b", NullImage); ("c", Image {| sz_w := 1; sz_h := 1 |} "c")]%string in
  let filled := cacheImages entries (setCacheSize 2 (clearCache (run [CacheImage "z" NullImage] newWorld))) in
  QCache.count (m_imageCache filled) = 2 ∧ hasCachedImage "a" filled = false.
Proof.
  intros entries filled.
  assert (NoDup (map fst entries)) as Hnd by (by vm_compute; repeat constructor; set_solver).
  destruct (cache_bound_and_lru [CacheImage "z" NullImage] 2 entries Hnd eq_refl)
    as (_ & _ & _ & _ & Hcount & Hhead & _).
  split; [exact Hcount | exact (Hhead _ eq_refl)].
Defined.

(** ** Cache misses *)

(** C9. For a key that is not in the image cache [getCachedImage] returns
    the null image, signalling nothing, and [hasCachedImage] returns false
    for exactly these keys; a key that is in the cache gives the image stored
    under it. Neither operation changes what the cache holds: every key
    keeps its image, and the number of entries and the capacity stay. *)
Theorem cache_miss_is_null_image (ops : list Op) (key : string) :
  let w := run ops newWorld in
  (hasCachedImage key w = false ↔ QCache.lookup key (m_imageCache w) = None) ∧
  (hasCachedImage key w = false → getCachedImage key w = (NullImage, w)) ∧
  (∀ image, QCache.lookup key (m_imageCache w) = Some image →
     hasCachedImage key w = true ∧ fst (getCachedImage key w) = image) ∧
  (∀ k, QCache.lookup k (m_imageCache (snd (getCachedImage key w)))
        = QCache.lookup k (m_imageCache w)) ∧
  QCache.count (m_imageCache (snd (getCachedImage key w))) = QCache.count (m_imageCache w) ∧
  QCache.mx (m_imageCache (snd (getCachedImage key w))) = QCache.mx (m_imageCache w).
Proof.
  intros w.
  destruct (run_ok ops newWorld newWorld_ok) as [Hc Hb _]. fold w in Hc, Hb.
  destruct (getCachedImage_frame key w) as (_ & _ & _ & _ & _ & _ & Ec & Ei).
  destruct (object_ok key _ Hc Hb) as (_ & _ & Hmx & Hcount).
  assert (hasCachedImage key w = false ↔ QCache.lookup key (m_imageCache w) = None) as Hmiss.
  { unfold hasCachedImage, QCache.contains, QCache.lookup.
    destruct (QCache.findNode key (m_imageCache w)); simpl; split; congruence. }
  split; [done|]. split; [|split; [|split; [|split]]].
  - intros Hn. destruct Hmiss as [Hmiss _]. specialize (Hmiss Hn).
    unfold getCachedImage. rewrite object_miss by done. by destruct w.
  - intros image Hl. rewrite Ei, Hl. split; [|done].
    destruct (hasCachedImage key w) eqn:E; [done|].
    destruct Hmiss as [Hmiss _]. specialize (Hmiss eq_refl). congruence.
  - intros k. rewrite Ec. apply lookup_object.
  - by rewrite Ec.
  - by rewrite Ec.
Qed.

(** ** The request token *)

Lemma newThumbnailResponse_fields env h filePath size rs w :
  ∃ r, heap (snd (newThumbnailResponse env h filePath size rs w))
         !! fst (newThumbnailResponse env h filePath size rs w) = Some r ∧
       m_fileHash r = h ∧ m_filePath r = filePath ∧ m_size r = size ∧
       m_requestedSize r = rs.
Proof.
  unfold newThumbnailResponse.
  set (this := fresh (dom (heap w))). set (r0 := Build_ThumbnailResponse _ _ _ _ _ _ _).
  set (w0 := setHeap _ w).
  assert (heap w0 !! this = Some r0) as H0 by apply lookup_insert_eq.
  destruct (hasCachedImage _ w0).
  - destruct (getCachedImage (cacheKey h size) w0) as [image w1]. simpl.
    exists (withImage image r0). by rewrite lookup_insert_eq.
  - destruct (_ && _).
    + simpl. unfold loadFromPath. rewrite H0. destruct (isNull _).
      * match goal with |- context [finishWithError ?t ?e ?v] =>
          destruct (finishWithError_fields t e v r0 H0) as (-> & _) end.
        exists (withError (readerErrorString env (getThumbnailPath env h size)
                             (scaledSizeFor (m_requestedSize r0))) r0).
        by rewrite lookup_insert_eq.
      * match goal with |- context [finishWithImage ?t ?i ?v] =>
          destruct (finishWithImage_fields t i v r0 H0) as (-> & _) end.
        eexists. by rewrite lookup_insert_eq.
    + destruct (QStr.isEmpty filePath); simpl.
      * destruct (finishWithError_fields this "Missing file path for thumbnail request" w0 r0 H0)
          as (-> & _).
        eexists. by rewrite lookup_insert_eq.
      * by exists r0.
Qed.

Example parseId_plain :
  parseId "abc123|%2Fhome%2Fme%2Fa%20b.jpg/small"
  = {| t_hash := "abc123"; t_filePath := "/home/me/a b.jpg"; t_size := "small" |}.
Proof. reflexivity. Qed.

Example parseId_cache_only :
  parseId "abc123" = {| t_hash := "abc123"; t_filePath := ""; t_size := "medium" |}.
Proof. reflexivity. Qed.

Example thumbnailToken_ex :
  thumbnailToken "abc123" "/home/me/a b.jpg" "small" = "abc123|%2Fhome%2Fme%2Fa%20b.jpg/small"%string.
Proof. reflexivity. Qed.

(** C10, as the code has it. For every identity that contains neither '/'
    nor '|', every locator and every size, [requestImageResponse] applied to
    the token identity, '|', percent-encoded locator, '/', size creates a
    response whose file path is the locator and whose hash is the
    identity. *)
Theorem token_roundtrip (env : Env) (identity locator size : string) (rs : QSize) (w : World) :
  QStr.occurs "/" identity = false →
  QStr.occurs "|" identity = false →
  ∃ r,
    heap (snd (requestImageResponse env (thumbnailToken identity locator size) rs w))
      !! fst (requestImageResponse env (thumbnailToken identity locator size) rs w) = Some r ∧
    m_fileHash r = identity ∧ m_filePath r = locator.
Proof.
  intros Hslash Hbar. unfold requestImageResponse.
  destruct (parseId_thumbnailToken identity locator size Hslash Hbar) as (-> & -> & _).
  destruct (newThumbnailResponse_fields env identity locator
              (t_size (parseId (thumbnailToken identity locator size))) rs w)
    as (r & Hr & Hh & Hp & _).
  by exists r.
Qed.

Lemma token_roundtrip_witness :
  ∃ r,
    heap (snd (requestImageResponse diskEnv (thumbnailToken "ab12" "/p/a b|c.jpg" "small") noSize newWorld))
      !! fst (requestImageResponse diskEnv (thumbnailToken "ab12" "/p/a b|c.jpg" "small") noSize newWorld)
      = Some r ∧
    m_fileHash r = "ab12"%string ∧ m_filePath r = "/p/a b|c.jpg"%string.
Proof. apply (token_roundtrip diskEnv "ab12" "/p/a b|c.jpg" "small" noSize newWorld); reflexivity. Defined.

(** C10 as stated fails for an identity that contains the delimiter '|':
    the hash recovered is what precedes it, and the rest of the identity
    goes into the file path. The same happens with '/'. *)
Lemma token_roundtrip_counterexample :
  let rw := requestImageResponse diskEnv (thumbnailToken "a|b" "/x.jpg" "small") noSize newWorld in
  (m_fileHash <$> heap (snd rw) !! fst rw) = Some "a"%string ∧
  (m_filePath <$> heap (snd rw) !! fst rw) = Some "b|/x.jpg"%string ∧
  ¬ ((m_fileHash <$> heap (snd rw) !! fst rw) = Some "a|b"%string ∧
     (m_filePath <$> heap (snd rw) !! fst rw) = Some "/x.jpg"%string).
Proof.
  assert (let rw := requestImageResponse diskEnv (thumbnailToken "a|b" "/x.jpg" "small") noSize newWorld in
          (m_fileHash <$> heap (snd rw) !! fst rw) = Some "a"%string ∧
          (m_filePath <$> heap (snd rw) !! fst rw) = Some "b|/x.jpg"%string) as [H1 H2]
    by (vm_compute; done).
  split; [exact H1 | split; [exact H2|]]. intros [H3 _]. rewrite H1 in H3. discriminate.
Qed.

Example parseId_identity_with_slash :
  parseId (thumbnailToken "a/b" "/x.jpg" "small")
  = {| t_hash := "a"; t_filePath := ""; t_size := "b|%2Fx.jpg" |}.
Proof. reflexivity. Qed.

(** ** Requests that go to the generation engine *)

(** The token of a request for the file "/a.jpg" with hash "h1". *)
Example token_h1 : thumbnailToken "h1" "/a.jpg" "medium" = "h1|%2Fa.jpg/medium"%string.
Proof. reflexivity. Qed.

(** C1 as stated fails: two requests for the same identity and size, the
    second one made while the waiter set of the identity is open, call
    [enqueueThumbnailsBatch] twice for that pair. *)
Lemma coalescing_counterexample :
  let w1 := run [Request diskEnv "h1|%2Fa.jpg/medium" noSize] newWorld in
  let w2 := run [Request diskEnv "h1|%2Fa.jpg/medium" noSize] w1 in
  waiters w1 "h1" = {[ 0%nat ]} ∧
  handled w2 = [] ∧
  waiters w2 "h1" = {[ 0%nat; 1%nat ]} ∧
  enqueueCount "h1" "medium" w2 = 2%nat ∧
  ¬ (enqueueCount "h1" "medium" w2 ≤ 1)%nat.
Proof.
  intros w1 w2.
  assert (enqueueCount "h1" "medium" w2 = 2%nat) as Hn by (vm_compute; reflexivity).
  split; [vm_compute; reflexivity | split; [vm_compute; reflexivity | split; [vm_compute; reflexivity|]]].
  split; [exact Hn | rewrite Hn; lia].
Qed.

(** C1, as the code has it. Every request that misses the image cache and
    the disk and carries a file path registers as a waiter for its identity
    and calls [enqueueThumbnailsBatch] once, with one entry for its
    (identity, size) pair, whether or not a waiter set for that identity is
    open: the calls are one per caller. It is handed no completion and
    stays unfinished. *)
Theorem enqueue_per_request (env : Env) (fileHash filePath size : string) (rs : QSize)
    (w : World) :
  hasCachedImage (cacheKey fileHash size) w = false →
  negb (QStr.isEmpty (getThumbnailPath env fileHash size))
    && fileExists env (getThumbnailPath env fileHash size) = false →
  QStr.isEmpty filePath = false →
  let this := fst (newThumbnailResponse env fileHash filePath size rs w) in
  let w' := snd (newThumbnailResponse env fileHash filePath size rs w) in
  this = fresh (dom (heap w)) ∧
  waiters w' fileHash = waiters w fileHash ∪ {[this]} ∧
  (∀ h, h ≠ fileHash → waiters w' h = waiters w h) ∧
  enqueued w' = enqueued w ++ [[ {| rq_filePath := filePath; rq_fileHash := fileHash;
                                    rq_size := size |} ]] ∧
  enqueueCount fileHash size w' = S (enqueueCount fileHash size w) ∧
  handled w' = handled w ∧
  (∃ r, heap w' !! this = Some r ∧ stateOf r = AwaitingGeneration).
Proof.
  intros Hcache Hdisk Hpath this w'. subst this w'. unfold newThumbnailResponse.
  change (hasCachedImage (cacheKey fileHash size) (setHeap ?h w))
    with (hasCachedImage (cacheKey fileHash size) w).
  rewrite Hcache, Hdisk, Hpath. cbn [fst snd].
  split; [done|]. split; [|split; [|split; [done | split; [|split; [done|]]]]].
  - unfold enqueueThumbnailsBatch.
    change (waiters (logEnqueue ?b ?v) fileHash) with (waiters v fileHash).
    rewrite addPending_waiters. by destruct (decide (fileHash = fileHash)).
  - intros h Hne. unfold enqueueThumbnailsBatch.
    change (waiters (logEnqueue ?b ?v) h) with (waiters v h).
    rewrite addPending_waiters. by destruct (decide (h = fileHash)).
  - unfold enqueueCount, enqueueThumbnailsBatch. cbn [enqueued logEnqueue addPendingRequest setPending setHeap].
    rewrite List.filter_app, length_app. cbn [List.filter existsb asksFor rq_fileHash rq_size].
    unfold asksFor. cbn [rq_fileHash rq_size]. rewrite !String.eqb_refl. simpl. lia.
  - eexists. cbn [heap enqueueThumbnailsBatch logEnqueue addPendingRequest setPending setHeap].
    split; [apply lookup_insert_eq | done].
Qed.

Lemma enqueue_per_request_witness :
  let w1 := run [Request diskEnv "h1|%2Fa.jpg/medium" noSize] newWorld in
  let w2 := snd (newThumbnailResponse diskEnv "h1" "/a.jpg" "medium" noSize w1) in
  waiters w2 "h1" = waiters w1 "h1" ∪ {[ 1%nat ]} ∧
  enqueueCount "h1" "medium" w2 = S (enqueueCount "h1" "medium" w1).
Proof.
  intros w1 w2.
  destruct (enqueue_per_request diskEnv "h1" "/a.jpg" "medium" noSize w1
              eq_refl eq_refl eq_refl) as (_ & Hw & _ & _ & Hc & _).
  split; [exact Hw | exact Hc].
Defined.

(** ** Missing source *)

(** C4. A request whose key is not in the image cache, for which there is
    no thumbnail on disk and whose file path is empty, ends in the Failed
    state with the error "Missing file path for thumbnail request"; it is
    registered as a waiter nowhere, the registry and the cache are as
    before, and nothing is enqueued. *)
Theorem missing_source_fails (ops : list Op) (env : Env) (fileHash filePath size : string)
    (rs : QSize) :
  let w := run ops newWorld in
  hasCachedImage (cacheKey fileHash size) w = false →
  negb (QStr.isEmpty (getThumbnailPath env fileHash size))
    && fileExists env (getThumbnailPath env fileHash size) = false →
  QStr.isEmpty filePath = true →
  let this := fst (newThumbnailResponse env fileHash filePath size rs w) in
  let w' := snd (newThumbnailResponse env fileHash filePath size rs w) in
  (∃ r, heap w' !! this = Some r ∧
        stateOf r = Failed "Missing file path for thumbnail request") ∧
  m_pendingRequests w' = m_pendingRequests w ∧
  (∀ h, this ∉ waiters w' h) ∧
  enqueued w' = enqueued w ∧
  m_imageCache w' = m_imageCache w ∧
  finishedSignals w' = finishedSignals w ++ [this].
Proof.
  intros w Hcache Hdisk Hpath this w'. subst this w'.
  destruct (run_ok ops newWorld newWorld_ok) as [_ _ Hreg]. fold w in Hreg.
  unfold newThumbnailResponse.
  change (hasCachedImage (cacheKey fileHash size) (setHeap ?h w))
    with (hasCachedImage (cacheKey fileHash size) w).
  rewrite Hcache, Hdisk, Hpath. cbn [fst snd].
  set (this := fresh (dom (heap w))). set (r0 := Build_ThumbnailResponse _ _ _ _ _ _ _).
  set (w0 := setHeap _ w).
  assert (heap w0 !! this = Some r0) as H0 by apply lookup_insert_eq.
  destruct (finishWithError_fields this "Missing file path for thumbnail request" w0 r0 H0)
    as (Eh & Ep & Ec & Eq & _ & _ & Ef).
  assert (removePendingRequest fileHash this w0 = w0) as Hsame.
  { apply removePending_absent; [apply Hreg | apply (fresh_not_waiter w fileHash Hreg)]. }
  change (m_fileHash r0) with fileHash in Ep. rewrite Hsame in Ep.
  split; [|split; [done | split; [|done]]].
  - exists (withError "Missing file path for thumbnail request" r0).
    rewrite Eh. split; [apply lookup_insert_eq | done].
  - intros h. rewrite (waiters_cong _ w0 h Ep). apply (fresh_not_waiter w h Hreg).
Qed.

Lemma missing_source_fails_witness :
  let w := run [Request diskEnv "h1|%2Fa.jpg/medium" noSize] newWorld in
  let w' := snd (newThumbnailResponse diskEnv "h1" "" "large" noSize w) in
  m_pendingRequests w' = m_pendingRequests w ∧ enqueued w' = enqueued w.
Proof.
  intros w w'.
  destruct (missing_source_fails [Request diskEnv "h1|%2Fa.jpg/medium" noSize]
              diskEnv "h1" "" "large" noSize eq_refl eq_refl eq_refl)
    as (_ & Hp & _ & Hq & _).
  split; [exact Hp | exact Hq].
Defined.

(** ** Decoding and finishing *)

Section Outcomes.

Implicit Types (w : World) (h : string) (x this : addr) (r : ThumbnailResponse).

Lemma finishWithImage_logs this image w :
  enqueued (finishWithImage this image w) = enqueued w ∧
  handled (finishWithImage this image w) = handled w ∧
  decodes (finishWithImage this image w) = decodes w.
Proof.
  destruct (heap w !! this) as [r|] eqn:Hr.
  - by destruct (finishWithImage_fields this image w r Hr) as (_ & _ & _ & -> & -> & -> & _).
  - unfold finishWithImage. by rewrite Hr.
Qed.

Lemma finishWithError_logs this error w :
  enqueued (finishWithError this error w) = enqueued w ∧
  handled (finishWithError this error w) = handled w ∧
  decodes (finishWithError this error w) = decodes w.
Proof.
  destruct (heap w !! this) as [r|] eqn:Hr.
  - by destruct (finishWithError_fields this error w r Hr) as (_ & _ & _ & -> & -> & -> & _).
  - unfold finishWithError. by rewrite Hr.
Qed.

(** [loadFromPath] reads the path with the scaled size of the request, and
    finishes with the image read, or with the reader's error. *)
Lemma loadFromPath_outcome env this path w r :
  heap w !! this = Some r →
  let scaled := scaledSizeFor (m_requestedSize r) in
  let w1 := logDecode this (ReadPath path scaled) w in
  decodes (loadFromPath env this path w) = decodes w ++ [(this, ReadPath path scaled)] ∧
  handled (loadFromPath env this path w) = handled w ∧
  enqueued (loadFromPath env this path w) = enqueued w ∧
  (if isNull (readerRead env path scaled)
   then loadFromPath env this path w
        = finishWithError this (readerErrorString env path scaled) w1
   else loadFromPath env this path w
        = finishWithImage this (readerRead env path scaled) w1).
Proof.
  intros Hr scaled w1. unfold loadFromPath. rewrite Hr. fold scaled. fold w1.
  destruct (isNull (readerRead env path scaled)).
  - by destruct (finishWithError_logs this (readerErrorString env path scaled) w1) as (-> & -> & ->).
  - by destruct (finishWithImage_logs this (readerRead env path scaled) w1) as (-> & -> & ->).
Qed.

(** [loadFromBase64] decodes the payload, whatever the request's target
    dimension is, and finishes with the image, or with an error. *)
Lemma loadFromBase64_outcome env this base64 w :
  let image := imageFromData env (fromBase64 env base64) in
  let w1 := logDecode this (LoadData base64) w in
  decodes (loadFromBase64 env this base64 w) = decodes w ++ [(this, LoadData base64)] ∧
  handled (loadFromBase64 env this base64 w) = handled w ∧
  enqueued (loadFromBase64 env this base64 w) = enqueued w ∧
  (if isNull image
   then loadFromBase64 env this base64 w
        = finishWithError this "Failed to decode base64 image" w1
   else loadFromBase64 env this base64 w = finishWithImage this image w1).
Proof.
  intros image w1. unfold loadFromBase64. fold image. fold w1.
  destruct (isNull image); simpl.
  - by destruct (finishWithError_logs this "Failed to decode base64 image" w1) as (-> & -> & ->).
  - by destruct (finishWithImage_logs this image w1) as (-> & -> & ->).
Qed.

(** What a response that has not finished does with a completion: it
    finishes, with an image that is not null or with an error, from a state
    that differs from the one before in what was recorded only. *)
Lemma handleThumbnailReady_outcome env this c w r :
  heap w !! this = Some r → m_finished r = false →
  ∃ w1, same_state w1 w ∧
    ((∃ image, isNull image = false ∧
        handleThumbnailReady env this c w = finishWithImage this image w1) ∨
     (∃ error, handleThumbnailReady env this c w = finishWithError this error w1)).
Proof.
  intros Hr Hf. unfold handleThumbnailReady.
  change (heap (logHandled this c w)) with (heap w). rewrite Hr, Hf.
  set (w0 := logHandled this c w).
  destruct (_ && _).
  - destruct (loadFromBase64_outcome env this (cp_placeholderBase64 c) w0) as (_ & _ & _ & H).
    exists (logDecode this (LoadData (cp_placeholderBase64 c)) w0). split; [done|].
    destruct (isNull _) eqn:E; [right; by eexists | left; by eexists].
  - destruct (negb _).
    + destruct (loadFromPath_outcome env this (cp_path c) w0 r Hr) as (_ & _ & _ & H).
      eexists (logDecode this _ w0). split; [done|].
      destruct (isNull _) eqn:E; [right; by eexists | left; by eexists].
    + exists w0. split; [done|]. right. by eexists.
Qed.

Lemma handleThumbnailReady_handled env this c w :
  handled (handleThumbnailReady env this c w) = handled w ++ [(this, c)].
Proof.
  unfold handleThumbnailReady. set (w0 := logHandled this c w).
  destruct (heap w0 !! this) as [r|] eqn:Hr; [|done].
  destruct (m_finished r); [done|].
  destruct (_ && _).
  - by destruct (loadFromBase64_outcome env this (cp_placeholderBase64 c) w0) as (_ & -> & _).
  - destruct (negb _).
    + by destruct (loadFromPath_outcome env this (cp_path c) w0 r Hr) as (_ & -> & _).
    + by destruct (finishWithError_logs this "No thumbnail available" w0) as (_ & -> & _).
Qed.

(** The heap after a completion was handled: the response, if it was alive
    and unfinished, is finished; nothing else changes. *)
Lemma handleThumbnailReady_heap env this c w :
  match heap w !! this with
  | Some r =>
      if m_finished r then heap (handleThumbnailReady env this c w) = heap w
      else ∃ r', m_finished r' = true ∧
                 heap (handleThumbnailReady env this c w) = <[this := r']> (heap w)
  | None => heap (handleThumbnailReady env this c w) = heap w
  end.
Proof.
  destruct (heap w !! this) as [r|] eqn:Hr.
  - destruct (m_finished r) eqn:Hf.
    + unfold handleThumbnailReady. change (heap (logHandled this c w)) with (heap w).
      by rewrite Hr, Hf.
    + destruct (handleThumbnailReady_outcome env this c w r Hr Hf)
        as (w1 & (_ & _ & Eh & _) & [(image & _ & ->) | (error & ->)]).
      * assert (heap w1 !! this = Some r) as Hr1 by (by rewrite Eh).
        destruct (finishWithImage_fields this image w1 r Hr1) as (-> & _).
        exists (withImage image r). by rewrite Eh.
      * assert (heap w1 !! this = Some r) as Hr1 by (by rewrite Eh).
        destruct (finishWithError_fields this error w1 r Hr1) as (-> & _).
        exists (withError error r). by rewrite Eh.
  - unfold handleThumbnailReady. change (heap (logHandled this c w)) with (heap w).
    by rewrite Hr.
Qed.

Lemma handleThumbnailReady_pending_None env this c w h :
  m_pendingRequests w !! h = None →
  m_pendingRequests (handleThumbnailReady env this c w) !! h = None.
Proof.
  intros Hn. destruct (heap w !! this) as [r|] eqn:Hr.
  - destruct (m_finished r) eqn:Hf.
    + unfold handleThumbnailReady. change (heap (logHandled this c w)) with (heap w).
      by rewrite Hr, Hf.
    + destruct (handleThumbnailReady_outcome env this c w r Hr Hf)
        as (w1 & (_ & Ep & Eh & _) & [(image & _ & ->) | (error & ->)]);
        assert (heap w1 !! this = Some r) as Hr1 by (by rewrite Eh).
      * destruct (finishWithImage_fields this image w1 r Hr1) as (_ & -> & _).
        apply removePending_None. by rewrite Ep.
      * destruct (finishWithError_fields this error w1 r Hr1) as (_ & -> & _).
        apply removePending_None. by rewrite Ep.
  - unfold handleThumbnailReady. change (heap (logHandled this c w)) with (heap w).
    by rewrite Hr.
Qed.

Lemma handleThumbnailReady_finishes env this c w :
  is_Some (heap w !! this) → finishedAt (handleThumbnailReady env this c w) this.
Proof.
  intros [r Hr]. pose proof (handleThumbnailReady_heap env this c w) as H.
  rewrite Hr in H. unfold finishedAt. destruct (m_finished r) eqn:Hf.
  - exists r. by rewrite H.
  - destruct H as (r' & Hf' & ->). exists r'. by rewrite lookup_insert_eq.
Qed.

Lemma handleThumbnailReady_keeps env this c w x :
  finishedAt w x → finishedAt (handleThumbnailReady env this c w) x.
Proof.
  intros (r & Hr & Hf). destruct (decide (x = this)) as [->|Hne].
  - apply handleThumbnailReady_finishes. by exists r.
  - pose proof (handleThumbnailReady_heap env this c w) as H.
    unfold finishedAt. exists r. split; [|done].
    destruct (heap w !! this) as [r0|]; [destruct (m_finished r0)|]; try by rewrite H.
    destruct H as (r' & _ & ->). by rewrite lookup_insert_ne.
Qed.

Lemma handleThumbnailReady_alive env this c w x :
  is_Some (heap w !! x) → is_Some (heap (handleThumbnailReady env this c w) !! x).
Proof.
  intros Hx. pose proof (handleThumbnailReady_heap env this c w) as H.
  destruct (heap w !! this) as [r0|]; [destruct (m_finished r0)|]; try by rewrite H.
  destruct H as (r' & _ & ->). destruct (decide (x = this)) as [->|Hne];
    [by rewrite lookup_insert_eq | by rewrite lookup_insert_ne].
Qed.

Lemma deliverAll_handled env c l w :
  handled (deliverAll env c l w) = handled w ++ map (fun x => (x, c)) l.
Proof.
  revert w. induction l as [|x l IH]; intros w; simpl; [by rewrite app_nil_r|].
  change (deliverAll env c (x :: l) w) with (deliverAll env c l (handleThumbnailReady env x c w)).
  by rewrite IH, handleThumbnailReady_handled, <- app_assoc.
Qed.

Lemma deliverAll_pending_None env c l w h :
  m_pendingRequests w !! h = None → m_pendingRequests (deliverAll env c l w) !! h = None.
Proof.
  revert w. induction l as [|x l IH]; intros w Hn; [done|].
  apply IH. by apply handleThumbnailReady_pending_None.
Qed.

Lemma deliverAll_finishes env c l w x :
  x ∈ l → (∀ y, y ∈ l → is_Some (heap w !! y)) → finishedAt (deliverAll env c l w) x.
Proof.
  assert (∀ l w, finishedAt w x → finishedAt (deliverAll env c l w) x) as Hkeep.
  { clear. intros l. induction l as [|y l IH]; intros w Hx; [done|].
    apply IH. by apply handleThumbnailReady_keeps. }
  revert w. induction l as [|y l IH]; intros w Hin Hlive; [inversion Hin|].
  change (deliverAll env c (y :: l) w) with (deliverAll env c l (handleThumbnailReady env y c w)).
  apply elem_of_cons in Hin as [->|Hin].
  - apply Hkeep, handleThumbnailReady_finishes, Hlive. left.
  - apply IH; [done|]. intros z Hz. apply handleThumbnailReady_alive, Hlive. by right.
Qed.

End Outcomes.

(** ** Completions *)

(** C2. When a completion for an identity arrives, [handleThumbnailReady]
    is called with the same payload on every response that waits for that
    identity, whatever size each of them asked for and whatever size the
    completion names, and each of them is finished by it; the entry of the
    identity leaves the registry in the same step, so that a second
    completion for the identity changes nothing and reaches no one. *)
Theorem completion_fan_out (ops : list Op) (env : Env) (fileHash size : string)
    (c : Completion) (s : gset addr) :
  let w := run ops newWorld in
  m_pendingRequests w !! fileHash = Some s →
  let w' := notifyThumbnailReady env fileHash size c w in
  handled w' = handled w ++ map (fun x => (x, c)) (elements s) ∧
  (∀ x, x ∈ s → (x, c) ∈ handled w' ∧ finishedAt w' x) ∧
  (∀ size', notifyThumbnailReady env fileHash size' c w = w') ∧
  m_pendingRequests w' !! fileHash = None ∧
  (∀ env' size' c', notifyThumbnailReady env' fileHash size' c' w' = w').
Proof.
  intros w Hs w'.
  destruct (run_ok ops newWorld newWorld_ok) as [_ _ Hreg]. fold w in Hreg.
  assert (w' = deliverAll env c (elements s)
                 (setPending (delete fileHash (m_pendingRequests w)) w)) as Hw'
    by (unfold w', notifyThumbnailReady; by rewrite Hs).
  assert (handled w' = handled w ++ map (fun x => (x, c)) (elements s)) as Hh
    by (by rewrite Hw', deliverAll_handled).
  assert (m_pendingRequests w' !! fileHash = None) as Hgone.
  { rewrite Hw'. apply deliverAll_pending_None. simpl. apply lookup_delete_eq. }
  split; [done | split; [|split; [|split; [done|]]]].
  - intros x Hx. split.
    + rewrite Hh. apply elem_of_app. right.
      apply list_elem_of_In, in_map_iff. exists x. split; [done|].
      by apply list_elem_of_In, elem_of_elements.
    + rewrite Hw'. apply deliverAll_finishes; [by apply elem_of_elements|].
      intros y Hy%elem_of_elements. simpl.
      destruct (ok_waiter w Hreg fileHash s y Hs Hy) as (r & -> & _). by eexists.
  - done.
  - intros env' size' c'. unfold notifyThumbnailReady. by rewrite Hgone.
Qed.

Lemma completion_fan_out_witness :
  let w := run [Request diskEnv "h2|%2Fb.jpg/small" noSize;
                Request diskEnv "h2|%2Fb.jpg/large" noSize] newWorld in
  let c := {| cp_path := "/cache/h2_small.jpg"; cp_isPlaceholder := false;
              cp_placeholderBase64 := ""; cp_useOriginal := false |} in
  let w' := notifyThumbnailReady diskEnv "h2" "small" c w in
  (m_size <$> heap w !! 0%nat) = Some "small"%string ∧
  (m_size <$> heap w !! 1%nat) = Some "large"%string ∧
  (0%nat, c) ∈ handled w' ∧ (1%nat, c) ∈ handled w' ∧
  m_pendingRequests w' !! "h2"%string = None.
Proof.
  intros w c w'.
  assert (m_pendingRequests w !! "h2"%string = Some ({[ 0%nat; 1%nat ]} : gset addr)) as Hs
    by (vm_compute; reflexivity).
  destruct (completion_fan_out _ diskEnv "h2" "small" c _ Hs) as (_ & Hall & _ & Hgone & _).
  split; [vm_compute; reflexivity | split; [vm_compute; reflexivity|]].
  split; [apply Hall; set_solver | split; [apply Hall; set_solver | exact Hgone]].
Defined.

(** ** Cancellation *)

Lemma deleteResponse_waiters this w h :
  registry_ok w →
  waiters (deleteResponse this w) h ⊆ waiters w h ∖ {[this]}.
Proof.
  intros Hreg. unfold deleteResponse.
  destruct (heap w !! this) as [r|] eqn:Hr.
  - destruct (m_finished r) eqn:Hf.
    + change (waiters (setHeap ?k w) h) with (waiters w h).
      pose proof (finished_not_waiter w h this r Hreg Hr Hf). set_solver.
    + change (waiters (setHeap ?k ?v) h) with (waiters v h).
      rewrite removePending_waiters.
      destruct (decide (h = m_fileHash r)) as [->|Hne]; [done|].
      assert (this ∉ waiters w h); [|set_solver].
      intros Hin. destruct (waiter_live _ _ _ Hreg Hin) as (r' & Hr' & Hh & _). congruence.
  - pose proof (dead_not_waiter w h this Hreg Hr). set_solver.
Qed.

Lemma deleteResponse_unfinished this w r :
  heap w !! this = Some r → m_finished r = false →
  m_pendingRequests (deleteResponse this w)
  = m_pendingRequests (removePendingRequest (m_fileHash r) this w).
Proof. intros Hr Hf. unfold deleteResponse. by rewrite Hr, Hf. Qed.

Lemma deleteAll_waiters l w h :
  world_ok w → waiters w h ⊆ list_to_set l →
  world_ok (deleteAll l w) ∧ waiters (deleteAll l w) h = ∅.
Proof.
  revert w. induction l as [|x l IH]; intros w Hok Hsub.
  - split; [done|]. simpl in *. set_solver.
  - change (deleteAll (x :: l) w) with (deleteAll l (deleteResponse x w)).
    apply IH; [by apply deleteResponse_ok|].
    pose proof (deleteResponse_waiters x w h (ok_registry w Hok)). set_solver.
Qed.

Lemma waiters_empty_None w h :
  registry_ok w → waiters w h = ∅ → m_pendingRequests w !! h = None.
Proof.
  intros [Hne _] He. unfold waiters in He.
  destruct (m_pendingRequests w !! h) as [s|] eqn:E; [|done].
  simpl in He. by destruct (Hne h s E).
Qed.

(** C8. Destroying a request that has not finished takes it out of the
    waiter set of its identity and leaves the other sets alone; the registry
    never holds an empty set, and the entry of an identity whose last waiter
    is removed is dropped; and once every waiter of an identity has been
    cancelled, a completion for that identity changes nothing: no response
    is handed it. *)
Theorem no_leak_on_cancel (ops : list Op) (env : Env) (this : addr) (r : ThumbnailResponse)
    (l : list addr) (fileHash size : string) (c : Completion) :
  let w := run ops newWorld in
  heap w !! this = Some r → m_finished r = false →
  waiters w fileHash ⊆ list_to_set l →
  (waiters (deleteResponse this w) (m_fileHash r) = waiters w (m_fileHash r) ∖ {[this]} ∧
   ∀ h, this ∉ waiters (deleteResponse this w) h) ∧
  (∀ h, h ≠ m_fileHash r → waiters (deleteResponse this w) h = waiters w h) ∧
  (∀ h, m_pendingRequests (deleteResponse this w) !! h ≠ Some ∅) ∧
  (waiters w (m_fileHash r) ⊆ {[this]} →
     m_pendingRequests (deleteResponse this w) !! m_fileHash r = None) ∧
  m_pendingRequests (deleteAll l w) !! fileHash = None ∧
  notifyThumbnailReady env fileHash size c (deleteAll l w) = deleteAll l w ∧
  handled (notifyThumbnailReady env fileHash size c (deleteAll l w)) = handled (deleteAll l w).
Proof.
  intros w Hr Hf Hsub.
  pose proof (run_ok ops newWorld newWorld_ok) as Hok. fold w in Hok.
  pose proof (ok_registry w Hok) as Hreg.
  pose proof (deleteResponse_unfinished this w r Hr Hf) as Ep.
  pose proof (deleteResponse_ok this w Hok) as Hok'.
  assert (∀ h, waiters (deleteResponse this w) h
               = if decide (h = m_fileHash r) then waiters w (m_fileHash r) ∖ {[this]}
                 else waiters w h) as Hw.
  { intros h. by rewrite (waiters_cong _ _ h Ep), removePending_waiters. }
  split; [split|split; [|split; [|split]]].
  - rewrite Hw. by destruct (decide (m_fileHash r = m_fileHash r)).
  - intros h. pose proof (deleteResponse_waiters this w h Hreg). set_solver.
  - intros h Hne. rewrite Hw. by destruct (decide (h = m_fileHash r)).
  - intros h E. by destruct (ok_nonempty _ (ok_registry _ Hok') h ∅ E).
  - intros Hlast. apply waiters_empty_None; [apply Hok'|].
    rewrite Hw. destruct (decide (m_fileHash r = m_fileHash r)); [set_solver | done].
  - destruct (deleteAll_waiters l w fileHash Hok Hsub) as [HokA Hempty].
    assert (m_pendingRequests (deleteAll l w) !! fileHash = None) as Hn
      by (apply waiters_empty_None; [apply HokA | done]).
    assert (notifyThumbnailReady env fileHash size c (deleteAll l w) = deleteAll l w) as Hnoop
      by (unfold notifyThumbnailReady; by rewrite Hn).
    split; [done | split; [done | by rewrite Hnoop]].
Qed.

Lemma no_leak_on_cancel_witness :
  let w := run [Request diskEnv "h2|%2Fb.jpg/small" noSize;
                Request diskEnv "h2|%2Fb.jpg/large" noSize] newWorld in
  let c := {| cp_path := "/cache/h2_small.jpg"; cp_isPlaceholder := false;
              cp_placeholderBase64 := ""; cp_useOriginal := false |} in
  waiters w "h2" = {[ 0%nat; 1%nat ]} ∧
  waiters (deleteResponse 0%nat w) "h2" = waiters w "h2" ∖ {[ 0%nat ]} ∧
  m_pendingRequests (deleteAll [0%nat; 1%nat] w) !! "h2"%string = None ∧
  handled (notifyThumbnailReady diskEnv "h2" "small" c (deleteAll [0%nat; 1%nat] w)) = [].
Proof.
  intros w c.
  assert (∃ r, heap w !! 0%nat = Some r ∧ m_finished r = false ∧ m_fileHash r = "h2"%string)
    as (r & Hr & Hf & Hh) by (eexists; vm_compute; done).
  assert (waiters w "h2" ⊆ list_to_set [0%nat; 1%nat]) as Hsub
    by (vm_compute; set_solver).
  destruct (no_leak_on_cancel _ diskEnv 0%nat r [0%nat; 1%nat] "h2" "small" c Hr Hf Hsub)
    as ((Hgone & _) & _ & _ & _ & Hnone & Hnoop & _).
  rewrite Hh in Hgone.
  split; [vm_compute; reflexivity | split; [exact Hgone | split; [exact Hnone|]]].
  fold w in Hnoop. rewrite Hnoop. vm_compute. reflexivity.
Defined.

(** ** Placeholder and path *)

(** Whether the placeholder branch of [handleThumbnailReady] applies. *)
Lemma handleThumbnailReady_placeholder env this c w r :
  heap w !! this = Some r → m_finished r = false →
  cp_isPlaceholder c && negb (QStr.isEmpty (cp_placeholderBase64 c)) = true →
  handleThumbnailReady env this c w
    = loadFromBase64 env this (cp_placeholderBase64 c) (logHandled this c w) ∧
  decodes (handleThumbnailReady env this c w)
    = decodes w ++ [(this, LoadData (cp_placeholderBase64 c))].
Proof.
  intros Hr Hf Hp. unfold handleThumbnailReady.
  change (heap (logHandled this c w)) with (heap w). rewrite Hr, Hf, Hp.
  split; [done|].
  by destruct (loadFromBase64_outcome env this (cp_placeholderBase64 c) (logHandled this c w))
    as (-> & _).
Qed.

Lemma handleThumbnailReady_other env this c w x :
  x ≠ this → heap (handleThumbnailReady env this c w) !! x = heap w !! x.
Proof.
  intros Hne. pose proof (handleThumbnailReady_heap env this c w) as H.
  destruct (heap w !! this) as [r0|]; [destruct (m_finished r0)|]; try by rewrite H.
  destruct H as (r' & _ & ->). by rewrite lookup_insert_ne.
Qed.

Lemma deliverAll_heap_other env c l w x :
  x ∉ l → heap (deliverAll env c l w) !! x = heap w !! x.
Proof.
  revert w. induction l as [|y l IH]; intros w Hx; [done|].
  apply not_elem_of_cons in Hx as [Hne Hx].
  change (deliverAll env c (y :: l) w) with (deliverAll env c l (handleThumbnailReady env y c w)).
  rewrite IH by done. by apply handleThumbnailReady_other.
Qed.

(** The record a response is left with depends on the record it had, and
    on nothing else in the provider. *)
Lemma handleThumbnailReady_local env x c w1 w2 :
  heap w1 !! x = heap w2 !! x →
  heap (handleThumbnailReady env x c w1) !! x = heap (handleThumbnailReady env x c w2) !! x.
Proof.
  intros E. unfold handleThumbnailReady.
  change (heap (logHandled x c w1)) with (heap w1).
  change (heap (logHandled x c w2)) with (heap w2).
  rewrite E. destruct (heap w2 !! x) as [r|] eqn:Hr2; [|simpl; congruence].
  assert (heap (logHandled x c w1) !! x = Some r) as H1 by (simpl; congruence).
  assert (heap (logHandled x c w2) !! x = Some r) as H2 by (simpl; congruence).
  destruct (m_finished r); [simpl; congruence|].
  assert (∀ image d w, heap w !! x = Some r →
            heap (finishWithImage x image (logDecode x d w)) !! x = Some (withImage image r))
    as Himg.
  { intros image d w Hw.
    destruct (finishWithImage_fields x image (logDecode x d w) r Hw) as (-> & _).
    apply lookup_insert_eq. }
  assert (∀ error w, heap w !! x = Some r →
            heap (finishWithError x error w) !! x = Some (withError error r)) as Herr.
  { intros error w Hw.
    destruct (finishWithError_fields x error w r Hw) as (-> & _). apply lookup_insert_eq. }
  destruct (_ && _).
  - destruct (loadFromBase64_outcome env x (cp_placeholderBase64 c) (logHandled x c w1))
      as (_ & _ & _ & Hc1).
    destruct (loadFromBase64_outcome env x (cp_placeholderBase64 c) (logHandled x c w2))
      as (_ & _ & _ & Hc2).
    destruct (isNull _); rewrite Hc1, Hc2.
    + by rewrite !Herr.
    + by rewrite !Himg.
  - destruct (negb _).
    + destruct (loadFromPath_outcome env x (cp_path c) (logHandled x c w1) r H1)
        as (_ & _ & _ & Hc1).
      destruct (loadFromPath_outcome env x (cp_path c) (logHandled x c w2) r H2)
        as (_ & _ & _ & Hc2).
      destruct (isNull _); rewrite Hc1, Hc2.
      * by rewrite !Herr.
      * by rewrite !Himg.
    + by rewrite !Herr.
Qed.

Lemma deliverAll_independent env c l w x :
  NoDup l → x ∈ l →
  heap (deliverAll env c l w) !! x = heap (handleThumbnailReady env x c w) !! x.
Proof.
  revert w. induction l as [|y l IH]; intros w Hnd Hx; [inversion Hx|].
  apply NoDup_cons in Hnd as [Hy Hnd].
  change (deliverAll env c (y :: l) w) with (deliverAll env c l (handleThumbnailReady env y c w)).
  destruct (decide (x = y)) as [->|Hne].
  - by apply deliverAll_heap_other.
  - apply elem_of_cons in Hx as [->|Hx]; [done|].
    rewrite IH by done. apply handleThumbnailReady_local.
    by apply handleThumbnailReady_other.
Qed.

(** What a response that had not finished holds after the placeholder
    branch, after the path branch, and how its caller reads it. *)
Lemma handleThumbnailReady_placeholder_result env this c w r :
  heap w !! this = Some r → m_finished r = false →
  cp_isPlaceholder c && negb (QStr.isEmpty (cp_placeholderBase64 c)) = true →
  heap (handleThumbnailReady env this c w) !! this
  = Some (if isNull (imageFromData env (fromBase64 env (cp_placeholderBase64 c)))
          then withError "Failed to decode base64 image" r
          else withImage (imageFromData env (fromBase64 env (cp_placeholderBase64 c))) r).
Proof.
  intros Hr Hf Hp.
  destruct (handleThumbnailReady_placeholder env this c w r Hr Hf Hp) as [-> _].
  destruct (loadFromBase64_outcome env this (cp_placeholderBase64 c) (logHandled this c w))
    as (_ & _ & _ & H).
  destruct (isNull _); rewrite H.
  - destruct (finishWithError_fields this "Failed to decode base64 image"
                (logDecode this (LoadData (cp_placeholderBase64 c)) (logHandled this c w)) r Hr)
      as (-> & _).
    apply lookup_insert_eq.
  - destruct (finishWithImage_fields this
                (imageFromData env (fromBase64 env (cp_placeholderBase64 c)))
                (logDecode this (LoadData (cp_placeholderBase64 c)) (logHandled this c w)) r Hr)
      as (-> & _).
    apply lookup_insert_eq.
Qed.

Lemma handleThumbnailReady_path_result env this c w r :
  heap w !! this = Some r → m_finished r = false →
  cp_isPlaceholder c && negb (QStr.isEmpty (cp_placeholderBase64 c)) = false →
  QStr.isEmpty (cp_path c) = false →
  handleThumbnailReady env this c w = loadFromPath env this (cp_path c) (logHandled this c w) ∧
  heap (handleThumbnailReady env this c w) !! this
  = Some (if isNull (readerRead env (cp_path c) (scaledSizeFor (m_requestedSize r)))
          then withError (readerErrorString env (cp_path c) (scaledSizeFor (m_requestedSize r))) r
          else withImage (readerRead env (cp_path c) (scaledSizeFor (m_requestedSize r))) r).
Proof.
  intros Hr Hf Hp Hpath.
  assert (handleThumbnailReady env this c w
          = loadFromPath env this (cp_path c) (logHandled this c w)) as E.
  { unfold handleThumbnailReady. change (heap (logHandled this c w)) with (heap w).
    by rewrite Hr, Hf, Hp, Hpath. }
  split; [exact E|]. rewrite E.
  destruct (loadFromPath_outcome env this (cp_path c) (logHandled this c w) r Hr)
    as (_ & _ & _ & H).
  destruct (isNull _); rewrite H.
  - match goal with |- heap (finishWithError this ?e ?v) !! _ = _ =>
      destruct (finishWithError_fields this e v r Hr) as (-> & _) end.
    apply lookup_insert_eq.
  - match goal with |- heap (finishWithImage this ?i ?v) !! _ = _ =>
      destruct (finishWithImage_fields this i v r Hr) as (-> & _) end.
    apply lookup_insert_eq.
Qed.

Lemma stateOf_finish r :
  m_image r = NullImage → m_errorString r = EmptyString →
  (∀ image, isNull image = false → stateOf (withImage image r) = Delivered image) ∧
  (∀ error, stateOf (withError error r) = Failed error).
Proof.
  intros Hi He. split.
  - intros image Hn. unfold stateOf. simpl. by rewrite He, Hn.
  - intros error. unfold stateOf. simpl. rewrite Hi. by destruct error.
Qed.

Lemma deliverAll_placeholder env c l w :
  cp_isPlaceholder c && negb (QStr.isEmpty (cp_placeholderBase64 c)) = true →
  NoDup l →
  (∀ x, x ∈ l → ∃ r, heap w !! x = Some r ∧ m_finished r = false) →
  decodes (deliverAll env c l w)
  = decodes w ++ map (fun x => (x, LoadData (cp_placeholderBase64 c))) l.
Proof.
  intros Hp. revert w. induction l as [|x l IH]; intros w Hnd Hlive; simpl.
  - by rewrite app_nil_r.
  - apply NoDup_cons in Hnd as [Hx Hnd].
    change (deliverAll env c (x :: l) w) with (deliverAll env c l (handleThumbnailReady env x c w)).
    destruct (Hlive x) as (r & Hr & Hf); [left|].
    destruct (handleThumbnailReady_placeholder env x c w r Hr Hf Hp) as [_ Hd].
    rewrite IH, Hd, <- app_assoc; [done | done |].
    intros y Hy. rewrite handleThumbnailReady_other; [apply Hlive; by right|].
    intros ->. done.
Qed.

(** C5. A response that has not finished and is handed a completion whose
    placeholder flag is set and whose placeholder payload is not empty
    decodes the payload and reads no path, even when the completion has a
    path too: it ends Delivered with the image decoded from the payload, or
    Failed with "Failed to decode base64 image" when that image is null.
    The path is read when the placeholder branch does not apply and the path
    is not empty: the response ends Delivered with the image read, or Failed
    with the reader's error. With neither, the request fails with the error
    "No thumbnail available" and nothing is decoded. A response that has
    already finished decodes nothing. So a completion with a placeholder
    that arrives for an identity makes every waiter of the identity decode
    the payload and end with its image, and none of them read the path. *)
Theorem placeholder_precedence (ops : list Op) (env : Env) (this : addr) (c : Completion)
    (r : ThumbnailResponse) (fileHash size : string) :
  let w := run ops newWorld in
  heap w !! this = Some r →
  let w' := handleThumbnailReady env this c w in
  let placeholder := cp_isPlaceholder c && negb (QStr.isEmpty (cp_placeholderBase64 c)) in
  let decoded := imageFromData env (fromBase64 env (cp_placeholderBase64 c)) in
  let scaled := scaledSizeFor (m_requestedSize r) in
  let read := readerRead env (cp_path c) scaled in
  (m_finished r = false → placeholder = true →
     decodes w' = decodes w ++ [(this, LoadData (cp_placeholderBase64 c))] ∧
     w' = loadFromBase64 env this (cp_placeholderBase64 c) (logHandled this c w) ∧
     heap w' !! this
       = Some (if isNull decoded then withError "Failed to decode base64 image" r
               else withImage decoded r) ∧
     (stateOf <$> heap w' !! this)
       = Some (if isNull decoded then Failed "Failed to decode base64 image"
               else Delivered decoded)) ∧
  (m_finished r = false → placeholder = false → QStr.isEmpty (cp_path c) = false →
     decodes w' = decodes w ++ [(this, ReadPath (cp_path c) scaled)] ∧
     w' = loadFromPath env this (cp_path c) (logHandled this c w) ∧
     heap w' !! this
       = Some (if isNull read then withError (readerErrorString env (cp_path c) scaled) r
               else withImage read r) ∧
     (stateOf <$> heap w' !! this)
       = Some (if isNull read then Failed (readerErrorString env (cp_path c) scaled)
               else Delivered read)) ∧
  (m_finished r = false → placeholder = false → QStr.isEmpty (cp_path c) = true →
     decodes w' = decodes w ∧
     heap w' !! this = Some (withError "No thumbnail available" r) ∧
     stateOf (withError "No thumbnail available" r) = Failed "No thumbnail available") ∧
  (m_finished r = true → decodes w' = decodes w ∧ heap w' = heap w) ∧
  (placeholder = true →
     decodes (notifyThumbnailReady env fileHash size c w)
     = decodes w ++ map (fun x => (x, LoadData (cp_placeholderBase64 c)))
                        (elements (waiters w fileHash)) ∧
     ∀ x rx, x ∈ waiters w fileHash → heap w !! x = Some rx →
       heap (notifyThumbnailReady env fileHash size c w) !! x
         = Some (if isNull decoded then withError "Failed to decode base64 image" rx
                 else withImage decoded rx) ∧
       stateOf (if isNull decoded then withError "Failed to decode base64 image" rx
                else withImage decoded rx)
         = (if isNull decoded then Failed "Failed to decode base64 image"
            else Delivered decoded)).
Proof.
  intros w Hr w' placeholder decoded scaled read.
  pose proof (run_heap_ok ops) as Hheap. fold w in Hheap.
  split; [|split; [|split; [|split]]].
  - intros Hf Hp.
    destruct (handleThumbnailReady_placeholder env this c w r Hr Hf Hp) as [H1 H2].
    pose proof (handleThumbnailReady_placeholder_result env this c w r Hr Hf Hp) as H3.
    fold w' decoded in H3.
    destruct (Hheap this r Hr Hf) as [Hi He].
    destruct (stateOf_finish r Hi He) as [Himg Herr].
    split; [exact H2 | split; [exact H1 | split; [exact H3|]]].
    rewrite H3. simpl. destruct (isNull decoded) eqn:Hn; [by rewrite Herr | by rewrite Himg].
  - intros Hf Hp Hpath.
    destruct (handleThumbnailReady_path_result env this c w r Hr Hf Hp Hpath) as [H1 H3].
    fold w' scaled read in H1, H3.
    destruct (Hheap this r Hr Hf) as [Hi He].
    destruct (stateOf_finish r Hi He) as [Himg Herr].
    split; [|split; [exact H1 | split; [exact H3|]]].
    + rewrite H1.
      by destruct (loadFromPath_outcome env this (cp_path c) (logHandled this c w) r Hr) as (-> & _).
    + rewrite H3. simpl. destruct (isNull read) eqn:Hn; [by rewrite Herr | by rewrite Himg].
  - intros Hf Hp Hpath. subst w'. unfold handleThumbnailReady.
    change (heap (logHandled this c w)) with (heap w). rewrite Hr, Hf.
    fold placeholder. rewrite Hp, Hpath. simpl.
    destruct (finishWithError_logs this "No thumbnail available" (logHandled this c w))
      as (_ & _ & ->).
    destruct (finishWithError_fields this "No thumbnail available" (logHandled this c w) r Hr)
      as (-> & _).
    split; [done | split; [apply lookup_insert_eq | done]].
  - intros Hf. subst w'. unfold handleThumbnailReady.
    change (heap (logHandled this c w)) with (heap w). by rewrite Hr, Hf.
  - intros Hp.
    destruct (run_ok ops newWorld newWorld_ok) as [_ _ Hreg]. fold w in Hreg.
    unfold notifyThumbnailReady, waiters.
    destruct (m_pendingRequests w !! fileHash) as [s|] eqn:Hs; simpl.
    + split.
      * rewrite deliverAll_placeholder; [done | done | apply NoDup_elements |].
        intros x Hx%elem_of_elements. simpl.
        destruct (ok_waiter w Hreg fileHash s x Hs Hx) as (r' & Hr' & _ & Hf'). by exists r'.
      * intros x rx Hx Hrx.
        destruct (ok_waiter w Hreg fileHash s x Hs Hx) as (r' & Hr' & _ & Hf').
        assert (r' = rx) as -> by congruence.
        destruct (Hheap x rx Hrx Hf') as [Hi He].
        destruct (stateOf_finish rx Hi He) as [Himg Herr].
        rewrite deliverAll_independent; [| apply NoDup_elements | by apply elem_of_elements].
        split.
        -- by apply handleThumbnailReady_placeholder_result.
        -- destruct (isNull decoded) eqn:Hn; [apply Herr | by apply Himg].
    + split; [by rewrite elements_empty, app_nil_r | set_solver].
Qed.

Lemma placeholder_precedence_witness :
  let w := run [Request diskEnv "h1|%2Fa.jpg/medium" noSize;
                Request diskEnv "h1|%2Fa.jpg/large" noSize] newWorld in
  let c := {| cp_path := "/cache/h1_medium.jpg"; cp_isPlaceholder := true;
              cp_placeholderBase64 := "UExBQ0U="; cp_useOriginal := false |} in
  decodes (handleThumbnailReady diskEnv 0%nat c w) = [(0%nat, LoadData "UExBQ0U=")] ∧
  (stateOf <$> heap (handleThumbnailReady diskEnv 0%nat c w) !! 0%nat)
  = Some (Delivered (Image {| sz_w := 64; sz_h := 64 |} "UExBQ0U=")) ∧
  decodes (notifyThumbnailReady diskEnv "h1" "medium" c w)
  = decodes w ++ map (fun x => (x, LoadData "UExBQ0U=")) (elements (waiters w "h1")).
Proof.
  intros w c.
  assert (∃ r, heap w !! 0%nat = Some r ∧ m_finished r = false) as (r & Hr & Hf)
    by (eexists; vm_compute; done).
  destruct (placeholder_precedence _ diskEnv 0%nat c r "h1" "medium" Hr)
    as (H & _ & _ & _ & Hall).
  destruct (H Hf eq_refl) as (Hd & _ & _ & Hstate).
  destruct (Hall eq_refl) as [Hdall _].
  split; [exact Hd | split; [exact Hstate | exact Hdall]].
Defined.

(** ** Target dimension *)

(** C6 as stated fails on the placeholder path: a request with the valid
    target dimension 10x10 that is completed by a placeholder is delivered
    the image as decoded from the payload, here 64x64. It fails on the path
    decode too, with a reader that returns the image at the scaled size it
    was given, as [QImageReader::setScaledSize] has it: a request with the
    target dimension 1000x1000 for a thumbnail that is 256x256 on disk is
    delivered a 1000x1000 image. *)
Lemma decode_policy_counterexample :
  let target := {| sz_w := 10; sz_h := 10 |} in
  let w := run [Request diskEnv "h1|%2Fa.jpg/medium" target] newWorld in
  let c := {| cp_path := ""; cp_isPlaceholder := true;
              cp_placeholderBase64 := "UExBQ0U="; cp_useOriginal := false |} in
  let w' := run [Notify diskEnv "h1" "medium" c] w in
  let large := {| sz_w := 1000; sz_h := 1000 |} in
  let wl := run [Request diskEnv "h3/small" large] newWorld in
  (isValid target = true ∧
   (m_requestedSize <$> heap w' !! 0%nat) = Some target ∧
   (stateOf <$> heap w' !! 0%nat)
     = Some (Delivered (Image {| sz_w := 64; sz_h := 64 |} "UExBQ0U=")) ∧
   ¬ (imageSize <$> (m_image <$> heap w' !! 0%nat)) = Some target) ∧
  (isValid large = true ∧
   imageSize (readerRead diskEnv "/cache/h3_small.jpg" None) = {| sz_w := 256; sz_h := 256 |} ∧
   (stateOf <$> heap wl !! 0%nat)
     = Some (Delivered (Image large "/cache/h3_small.jpg"))).
Proof.
  intros target w c w' large wl.
  assert ((imageSize <$> (m_image <$> heap w' !! 0%nat))
          = Some {| sz_w := 64; sz_h := 64 |}) as Hsize by (vm_compute; reflexivity).
  split.
  - split; [reflexivity | split; [vm_compute; reflexivity | split; [vm_compute; reflexivity|]]].
    rewrite Hsize. intros [=].
  - split; [reflexivity | split; vm_compute; reflexivity].
Qed.

(** C6, as the code has it. For a request with a valid target dimension,
    every decode from a path hands that dimension to the reader as its
    scaled size, and the image delivered is the one the reader returns for
    it, with no check against the natural size of the source; without a
    valid target dimension no scaled size is set. The decode of a
    placeholder payload does not use the target dimension: the image
    delivered is the payload as decoded. *)
Theorem decode_policy (env : Env) (this : addr) (path base64 : string) (w : World)
    (r : ThumbnailResponse) :
  heap w !! this = Some r →
  let target := m_requestedSize r in
  (isValid target = true →
     decodes (loadFromPath env this path w) = decodes w ++ [(this, ReadPath path (Some target))] ∧
     (isNull (readerRead env path (Some target)) = false →
        heap (loadFromPath env this path w) !! this
        = Some (withImage (readerRead env path (Some target)) r))) ∧
  (isValid target = false →
     decodes (loadFromPath env this path w) = decodes w ++ [(this, ReadPath path None)] ∧
     (isNull (readerRead env path None) = false →
        heap (loadFromPath env this path w) !! this
        = Some (withImage (readerRead env path None) r))) ∧
  decodes (loadFromBase64 env this base64 w) = decodes w ++ [(this, LoadData base64)] ∧
  (isNull (imageFromData env (fromBase64 env base64)) = false →
     heap (loadFromBase64 env this base64 w) !! this
     = Some (withImage (imageFromData env (fromBase64 env base64)) r)).
Proof.
  intros Hr target.
  destruct (loadFromPath_outcome env this path w r Hr) as (Hd & _ & _ & Hp).
  destruct (loadFromBase64_outcome env this base64 w) as (Hd64 & _ & _ & H64).
  fold target in Hd, Hp. unfold scaledSizeFor in Hd, Hp.
  assert (∀ image d, heap (finishWithImage this image (logDecode this d w)) !! this
                     = Some (withImage image r)) as Hfin.
  { intros image d.
    destruct (finishWithImage_fields this image (logDecode this d w) r Hr) as (-> & _).
    apply lookup_insert_eq. }
  split; [|split; [|split; [done|]]].
  - intros Hv. rewrite Hv in Hd, Hp. split; [done|]. intros Hn. rewrite Hn in Hp.
    rewrite Hp. apply Hfin.
  - intros Hv. rewrite Hv in Hd, Hp. split; [done|]. intros Hn. rewrite Hn in Hp.
    rewrite Hp. apply Hfin.
  - intros Hn. rewrite Hn in H64. rewrite H64. apply Hfin.
Qed.

Lemma decode_policy_witness :
  let target := {| sz_w := 1000; sz_h := 1000 |} in
  let w := run [Request diskEnv "h1|%2Fa.jpg/medium" target] newWorld in
  decodes (loadFromPath diskEnv 0%nat "/cache/h1_medium.jpg" w)
  = [(0%nat, ReadPath "/cache/h1_medium.jpg" (Some target))].
Proof.
  intros target w.
  assert (∃ r, heap w !! 0%nat = Some r ∧ m_requestedSize r = target) as (r & Hr & Ht)
    by (eexists; vm_compute; done).
  destruct (decode_policy diskEnv 0%nat "/cache/h1_medium.jpg" "" w r Hr) as (H & _).
  rewrite Ht in H. destruct (H eq_refl) as [Hd _]. exact Hd.
Defined.

(** ** Delivery and the cache *)

Lemma finishWithImage_cached this image w r :
  heap w !! this = Some r → 1 <= QCache.mx (m_imageCache w) →
  QCache.lookup (cacheKey (m_fileHash r) (m_size r))
    (m_imageCache (finishWithImage this image w)) = Some image.
Proof.
  intros Hr Hroom.
  destruct (finishWithImage_fields this image w r Hr) as (_ & _ & -> & _).
  by apply lookup_insert_same.
Qed.

Lemma stateOf_withError error r image :
  m_image r = NullImage → stateOf (withError error r) ≠ Delivered image.
Proof.
  intros Hn. unfold stateOf. simpl. rewrite Hn. simpl. by destruct (negb _).
Qed.

Lemma stateOf_withImage image r image' :
  stateOf (withImage image r) = Delivered image' → image' = image.
Proof.
  unfold stateOf. simpl. destruct (negb _); [done|]. destruct (isNull image); [done|].
  by intros [= ->].
Qed.

(** A response without an image that finishes from a state [w1] is
    Delivered only through [finishWithImage], which caches the image. *)
Lemma finish_delivered_cached this w1 w' r r' image :
  heap w1 !! this = Some r → m_image r = NullImage →
  1 <= QCache.mx (m_imageCache w1) →
  (∃ image0, w' = finishWithImage this image0 w1) ∨ (∃ error, w' = finishWithError this error w1) →
  heap w' !! this = Some r' → stateOf r' = Delivered image →
  QCache.lookup (cacheKey (m_fileHash r) (m_size r)) (m_imageCache w') = Some image.
Proof.
  intros Hr Hnull Hroom [(image0 & ->) | (error & ->)] Hr' Hd.
  - destruct (finishWithImage_fields this image0 w1 r Hr) as (Eh & _).
    rewrite Eh, lookup_insert_eq in Hr'. injection Hr' as <-.
    apply stateOf_withImage in Hd as ->. by apply finishWithImage_cached.
  - destruct (finishWithError_fields this error w1 r Hr) as (Eh & _).
    rewrite Eh, lookup_insert_eq in Hr'. injection Hr' as <-.
    by destruct (stateOf_withError error r image Hnull).
Qed.

(** The calls of [handleThumbnailReady] need not start from a state
    between two operations: those made by [notifyThumbnailReady] start from
    the states of its loop. *)
Lemma handleThumbnailReady_cached env this c w r r' image :
  heap w !! this = Some r → m_finished r = false → m_image r = NullImage →
  1 <= QCache.mx (m_imageCache w) →
  heap (handleThumbnailReady env this c w) !! this = Some r' →
  stateOf r' = Delivered image →
  m_fileHash r' = m_fileHash r ∧ m_size r' = m_size r ∧
  QCache.lookup (cacheKey (m_fileHash r) (m_size r))
    (m_imageCache (handleThumbnailReady env this c w)) = Some image.
Proof.
  intros Hr Hf Hnull Hroom Hr' Hd.
  destruct (handleThumbnailReady_outcome env this c w r Hr Hf)
    as (w1 & (Ec & _ & Eh & _) & Hcases).
  assert (heap w1 !! this = Some r) as Hr1 by (by rewrite Eh).
  split; [|split].
  - destruct Hcases as [(image0 & _ & H) | (error & H)]; rewrite H in Hr'.
    + destruct (finishWithImage_fields this image0 w1 r Hr1) as (E & _).
      rewrite E, lookup_insert_eq in Hr'. by injection Hr' as <-.
    + destruct (finishWithError_fields this error w1 r Hr1) as (E & _).
      rewrite E, lookup_insert_eq in Hr'. by injection Hr' as <-.
  - destruct Hcases as [(image0 & _ & H) | (error & H)]; rewrite H in Hr'.
    + destruct (finishWithImage_fields this image0 w1 r Hr1) as (E & _).
      rewrite E, lookup_insert_eq in Hr'. by injection Hr' as <-.
    + destruct (finishWithError_fields this error w1 r Hr1) as (E & _).
      rewrite E, lookup_insert_eq in Hr'. by injection Hr' as <-.
  - apply (finish_delivered_cached this w1 _ r r' image); [done | done | by rewrite Ec | | done | done].
    destruct Hcases as [(image0 & _ & H) | (error & H)]; [left | right]; by eexists.
Qed.

(** No operation on a response changes the capacity of the cache. *)
Lemma insert_mx k v cost c : QCache.mx (fst (QCache.insert k v cost c)) = QCache.mx c.
Proof.
  assert (QCache.mx (QCache.trim (QCache.mx c - cost) c) = QCache.mx c) as Ht.
  { unfold QCache.trim. by destruct (QCache.trimFromBack _ _ _). }
  unfold QCache.insert. destruct (_ <? _); simpl.
  - unfold QCache.remove. by destruct (QCache.findNode k c).
  - by destruct (QCache.findNode k (QCache.trim (QCache.mx c - cost) c)).
Qed.

Lemma object_mx k c : QCache.mx (snd (QCache.object k c)) = QCache.mx c.
Proof. unfold QCache.object. by destruct (QCache.findNode k c). Qed.

Lemma finishWithImage_mx this image w :
  QCache.mx (m_imageCache (finishWithImage this image w)) = QCache.mx (m_imageCache w).
Proof.
  destruct (heap w !! this) as [r|] eqn:Hr.
  - destruct (finishWithImage_fields this image w r Hr) as (_ & _ & -> & _). apply insert_mx.
  - unfold finishWithImage. by rewrite Hr.
Qed.

Lemma finishWithError_cache this error w :
  m_imageCache (finishWithError this error w) = m_imageCache w.
Proof.
  destruct (heap w !! this) as [r|] eqn:Hr.
  - by destruct (finishWithError_fields this error w r Hr) as (_ & _ & -> & _).
  - unfold finishWithError. by rewrite Hr.
Qed.

Lemma handleThumbnailReady_mx env this c w :
  QCache.mx (m_imageCache (handleThumbnailReady env this c w)) = QCache.mx (m_imageCache w).
Proof.
  destruct (heap w !! this) as [r|] eqn:Hr; [destruct (m_finished r) eqn:Hf|].
  - unfold handleThumbnailReady. change (heap (logHandled this c w)) with (heap w).
    by rewrite Hr, Hf.
  - destruct (handleThumbnailReady_outcome env this c w r Hr Hf)
      as (w1 & (Ec & _) & [(image & _ & ->) | (error & ->)]).
    + by rewrite finishWithImage_mx, Ec.
    + by rewrite finishWithError_cache, Ec.
  - unfold handleThumbnailReady. change (heap (logHandled this c w)) with (heap w).
    by rewrite Hr.
Qed.

Lemma deliverAll_mx env c l w :
  QCache.mx (m_imageCache (deliverAll env c l w)) = QCache.mx (m_imageCache w).
Proof.
  revert w. induction l as [|y l IH]; intros w; [done|].
  change (deliverAll env c (y :: l) w) with (deliverAll env c l (handleThumbnailReady env y c w)).
  by rewrite IH, handleThumbnailReady_mx.
Qed.

Lemma notifyThumbnailReady_mx env fileHash size c w :
  QCache.mx (m_imageCache (notifyThumbnailReady env fileHash size c w))
  = QCache.mx (m_imageCache w).
Proof.
  unfold notifyThumbnailReady. destruct (m_pendingRequests w !! fileHash); [|done].
  by rewrite deliverAll_mx.
Qed.

Lemma newThumbnailResponse_mx env h filePath size rs w :
  QCache.mx (m_imageCache (snd (newThumbnailResponse env h filePath size rs w)))
  = QCache.mx (m_imageCache w).
Proof.
  unfold newThumbnailResponse.
  set (this := fresh (dom (heap w))). set (r0 := Build_ThumbnailResponse _ _ _ _ _ _ _).
  set (w0 := setHeap _ w).
  assert (heap w0 !! this = Some r0) as H0 by apply lookup_insert_eq.
  destruct (hasCachedImage _ w0).
  - destruct (getCachedImage_frame (cacheKey h size) w0) as (_ & _ & _ & _ & _ & _ & Ec & _).
    destruct (getCachedImage (cacheKey h size) w0) as [image0 w1]. simpl in *.
    rewrite Ec. apply object_mx.
  - destruct (_ && _).
    + cbn [snd].
      destruct (loadFromPath_outcome env this (getThumbnailPath env h size) w0 r0 H0)
        as (_ & _ & _ & Hp).
      destruct (isNull _); rewrite Hp;
        [by rewrite finishWithError_cache | by rewrite finishWithImage_mx].
    + destruct (QStr.isEmpty filePath); cbn [snd]; [by rewrite finishWithError_cache | done].
Qed.

(** A cache whose capacity is below 1 holds nothing. *)
Lemma empty_below_one w key :
  world_ok w → QCache.mx (m_imageCache w) < 1 →
  QCache.lookup key (m_imageCache w) = None.
Proof.
  intros [Hc Hb _] Hsmall.
  destruct (bounded_count (m_imageCache w) Hc Hb) as [Hle Hneg].
  assert (QCache.count (m_imageCache w) = 0) as H0.
  { pose proof (cache_ok_count_nonneg (m_imageCache w)).
    destruct (Z.lt_ge_cases (QCache.mx (m_imageCache w)) 0); [by apply Hneg | lia]. }
  unfold QCache.count in H0. unfold QCache.lookup, QCache.findNode.
  destruct (QCache.chain (m_imageCache w)); [done | simpl in H0; lia].
Qed.

Lemma deliverAll_app env c l1 l2 w :
  deliverAll env c (l1 ++ l2) w = deliverAll env c l2 (deliverAll env c l1 w).
Proof. unfold deliverAll. apply foldl_app. Qed.

(** C7 as stated fails when the cache has no room for an entry: with the
    capacity set to 0, a request served from disk is Delivered and the image
    cache holds nothing under its key. *)
Lemma delivered_populates_cache_counterexample :
  let w := run [SetCacheSize 0] newWorld in
  let rw := requestImageResponse diskEnv "h3/small" noSize w in
  (stateOf <$> heap (snd rw) !! fst rw)
    = Some (Delivered (Image {| sz_w := 256; sz_h := 256 |} "/cache/h3_small.jpg")) ∧
  hasCachedImage (cacheKey "h3" "small") (snd rw) = false ∧
  QCache.lookup (cacheKey "h3" "small") (m_imageCache (snd rw)) = None.
Proof. vm_compute. done. Qed.

(** With room for one image only, a fan-out to two waiters of one hash
    with different sizes delivers both, and the image of the waiter it
    served first is evicted by the insertion made for the second. *)
Example fan_out_evicts :
  let w := run [SetCacheSize 1;
                Request diskEnv "h2|%2Fb.jpg/small" noSize;
                Request diskEnv "h2|%2Fb.jpg/large" noSize] newWorld in
  let c := {| cp_path := "/cache/h2.jpg"; cp_isPlaceholder := false;
              cp_placeholderBase64 := ""; cp_useOriginal := false |} in
  let w' := notifyThumbnailReady diskEnv "h2" "small" c w in
  (stateOf <$> heap w' !! 0%nat)
    = Some (Delivered (Image {| sz_w := 256; sz_h := 256 |} "/cache/h2.jpg")) ∧
  (stateOf <$> heap w' !! 1%nat)
    = Some (Delivered (Image {| sz_w := 256; sz_h := 256 |} "/cache/h2.jpg")) ∧
  QCache.count (m_imageCache w') = 1 ∧
  (QCache.lookup (cacheKey "h2" "small") (m_imageCache w') = None ∨
   QCache.lookup (cacheKey "h2" "large") (m_imageCache w') = None).
Proof. vm_compute. repeat split; auto. Qed.

(** C7, as the code has it. While the capacity of the image cache is at
    least 1, every transition of a request to Delivered leaves the image
    delivered in the cache under the key identity/size, in the state right
    after the transition: a request served from the cache finds it there and
    leaves it there, and a request served from disk or by a completion
    inserts it. This holds for a completion handed to one response and for
    each call that [notifyThumbnailReady] makes in its loop, in the state
    the loop has reached after the call. With a capacity below 1 nothing is
    cached: after a request, a completion for one response or a
    notification, the cache holds no image under any key. *)
Theorem delivered_populates_cache (ops : list Op) (env : Env) :
  let w := run ops newWorld in
  (1 <= QCache.mx (m_imageCache w) →
     (∀ fileHash filePath size rs r image,
        let rw := newThumbnailResponse env fileHash filePath size rs w in
        heap (snd rw) !! fst rw = Some r → stateOf r = Delivered image →
        QCache.lookup (cacheKey fileHash size) (m_imageCache (snd rw)) = Some image) ∧
     (∀ this c r r' image,
        let w' := handleThumbnailReady env this c w in
        heap w !! this = Some r → m_finished r = false →
        heap w' !! this = Some r' → stateOf r' = Delivered image →
        QCache.lookup (cacheKey (m_fileHash r) (m_size r)) (m_imageCache w') = Some image) ∧
     (∀ fileHash size c (s : gset addr) before x after r' image,
        m_pendingRequests w !! fileHash = Some s →
        elements s = before ++ x :: after →
        let v' := deliverAll env c (before ++ [x])
                    (setPending (delete fileHash (m_pendingRequests w)) w) in
        notifyThumbnailReady env fileHash size c w = deliverAll env c after v' ∧
        (heap v' !! x = Some r' → stateOf r' = Delivered image →
         QCache.lookup (cacheKey (m_fileHash r') (m_size r')) (m_imageCache v')
         = Some image))) ∧
  (QCache.mx (m_imageCache w) < 1 →
     (∀ fileHash filePath size rs key,
        QCache.lookup key
          (m_imageCache (snd (newThumbnailResponse env fileHash filePath size rs w))) = None) ∧
     (∀ this c key,
        QCache.lookup key (m_imageCache (handleThumbnailReady env this c w)) = None) ∧
     (∀ fileHash size c key,
        QCache.lookup key (m_imageCache (notifyThumbnailReady env fileHash size c w)) = None)).
Proof.
  intros w.
  pose proof (run_ok ops newWorld newWorld_ok) as Hok. fold w in Hok.
  pose proof (run_heap_ok ops) as Hheap. fold w in Hheap.
  split; [intros Hroom; split; [|split] | intros Hsmall; split; [|split]].
  - intros fileHash filePath size rs r image rw. subst rw. unfold newThumbnailResponse.
    set (this := fresh (dom (heap w))). set (r0 := Build_ThumbnailResponse _ _ _ _ _ _ _).
    set (w0 := setHeap _ w).
    assert (heap w0 !! this = Some r0) as H0 by apply lookup_insert_eq.
    destruct (hasCachedImage _ w0) eqn:Hhit.
    + destruct (getCachedImage_frame (cacheKey fileHash size) w0)
        as (_ & _ & _ & _ & _ & _ & Ec & Ei).
      destruct (getCachedImage (cacheKey fileHash size) w0) as [image0 w1]. simpl in *.
      rewrite lookup_insert_eq. intros [= <-] Hd.
      pose proof (stateOf_withImage _ _ _ Hd) as ->.
      rewrite Ec, lookup_object.
      destruct (QCache.lookup (cacheKey fileHash size) (m_imageCache w)) as [i|];
        simpl in Ei; subst image0; [done | discriminate Hd].
    + destruct (_ && _).
      * cbn [fst snd]. intros Hr Hd.
        destruct (loadFromPath_outcome env this (getThumbnailPath env fileHash size) w0 r0 H0)
          as (_ & _ & _ & Hp).
        apply (finish_delivered_cached this
                 (logDecode this (ReadPath (getThumbnailPath env fileHash size)
                                    (scaledSizeFor (m_requestedSize r0))) w0)
                 _ r0 r image); [done | done | done | | done | done].
        destruct (isNull _); [right | left]; by eexists.
      * destruct (QStr.isEmpty filePath); cbn [fst snd]; intros Hr Hd.
        -- apply (finish_delivered_cached this w0 _ r0 r image); [done | done | done | | done | done].
           right. by eexists.
        -- cbn [heap enqueueThumbnailsBatch logEnqueue addPendingRequest setPending] in Hr.
           rewrite H0 in Hr. injection Hr as <-. done.
  - intros this c r r' image w' Hr Hf Hr' Hd.
    destruct (Hheap this r Hr Hf) as [Hnull _].
    by destruct (handleThumbnailReady_cached env this c w r r' image Hr Hf Hnull Hroom Hr' Hd)
      as (_ & _ & H).
  - intros fileHash size c s before x after r' image Hs Hel v'.
    set (w1 := setPending (delete fileHash (m_pendingRequests w)) w) in *.
    split.
    + unfold notifyThumbnailReady. rewrite Hs. fold w1. subst v'.
      by rewrite Hel, <- deliverAll_app, <- app_assoc.
    + subst v'. rewrite deliverAll_app.
      change (deliverAll env c [x] ?v) with (handleThumbnailReady env x c v).
      set (v := deliverAll env c before w1).
      assert (x ∈ s) as Hx by (apply elem_of_elements; rewrite Hel; set_solver).
      destruct (ok_waiter w (ok_registry w Hok) fileHash s x Hs Hx) as (r & Hr & _ & Hf).
      destruct (Hheap x r Hr Hf) as [Hnull _].
      assert (x ∉ before) as Hnot.
      { pose proof (NoDup_elements s) as Hnd. rewrite Hel in Hnd.
        apply NoDup_app in Hnd as (_ & Hnd & _). intros Hin. apply (Hnd x Hin). by left. }
      assert (heap v !! x = Some r) as Hv
        by (unfold v; by rewrite deliverAll_heap_other).
      assert (1 <= QCache.mx (m_imageCache v)) as Hroomv
        by (unfold v; by rewrite deliverAll_mx).
      intros Hr' Hd.
      destruct (handleThumbnailReady_cached env x c v r r' image Hv Hf Hnull Hroomv Hr' Hd)
        as (-> & -> & H).
      exact H.
  - intros fileHash filePath size rs key. apply empty_below_one.
    + by apply newThumbnailResponse_ok.
    + by rewrite newThumbnailResponse_mx.
  - intros this c key. apply empty_below_one.
    + by apply handleThumbnailReady_ok.
    + by rewrite handleThumbnailReady_mx.
  - intros fileHash size c key. apply empty_below_one.
    + by apply notifyThumbnailReady_ok.
    + by rewrite notifyThumbnailReady_mx.
Qed.

Lemma delivered_populates_cache_witness :
  let rw := newThumbnailResponse diskEnv "h3" "" "small" noSize (run [] newWorld) in
  QCache.lookup (cacheKey "h3" "small") (m_imageCache (snd rw))
  = Some (Image {| sz_w := 256; sz_h := 256 |} "/cache/h3_small.jpg").
Proof.
  intros rw.
  assert (1 <= QCache.mx (m_imageCache (run [] newWorld))) as Hroom by (vm_compute; discriminate).
  destruct (delivered_populates_cache [] diskEnv) as [Hfull _].
  destruct (Hfull Hroom) as [Hnew _].
  assert (∃ r, heap (snd rw) !! fst rw = Some r ∧
               stateOf r = Delivered (Image {| sz_w := 256; sz_h := 256 |} "/cache/h3_small.jpg"))
    as (r & Hr & Hd) by (eexists; vm_compute; done).
  exact (Hnew "h3"%string ""%string "small"%string noSize r _ Hr Hd).
Defined.

(** * Further properties of the code *)

(** ** The parser on arbitrary ids *)

Section ParserFacts.

Lemma split_segments_free sep s :
  Forall (fun p => QStr.occurs sep p = false) (QStr.split sep s).
Proof.
  induction s as [|c s IH]; simpl; [by repeat constructor|].
  destruct (Ascii.eqb c sep) eqn:E; [by constructor|].
  destruct (QStr.split sep s) as [|p ps].
  - constructor; [simpl; by rewrite E | constructor].
  - apply Forall_cons in IH as [Hp Hps]. constructor; [|done]. simpl. by rewrite E, Hp.
Qed.

Lemma indexOf_range ch s : -1 <= QStr.indexOf ch s.
Proof.
  induction s as [|c s IH]; simpl; [lia|].
  destruct (Ascii.eqb c ch); [lia|]. destruct (Z.ltb_spec (QStr.indexOf ch s) 0); lia.
Qed.

Lemma indexOf_absent ch s : QStr.indexOf ch s < 0 ↔ QStr.occurs ch s = false.
Proof.
  induction s as [|c s IH]; simpl; [done|].
  destruct (Ascii.eqb c ch); simpl; [split; [lia | done]|].
  pose proof (indexOf_range ch s).
  destruct (Z.ltb_spec (QStr.indexOf ch s) 0); rewrite <- IH; lia.
Qed.

(** What precedes the first occurrence of a byte does not contain it. *)
Lemma take_indexOf_free ch s :
  0 <= QStr.indexOf ch s →
  QStr.occurs ch (QStr.take (Z.to_nat (QStr.indexOf ch s)) s) = false.
Proof.
  induction s as [|c s IH]; simpl; [done|].
  destruct (Ascii.eqb c ch) eqn:E; [done|].
  pose proof (indexOf_range ch s).
  destruct (Z.ltb_spec (QStr.indexOf ch s) 0); [lia|]. intros _.
  replace (Z.to_nat (QStr.indexOf ch s + 1)) with (S (Z.to_nat (QStr.indexOf ch s))) by lia.
  simpl. rewrite E. apply IH. lia.
Qed.

Lemma take_free ch n s : QStr.occurs ch s = false → QStr.occurs ch (QStr.take n s) = false.
Proof.
  revert s. induction n as [|n IH]; intros [|c s]; simpl; try done.
  intros [Hc Hs]%orb_false_iff. by rewrite Hc, IH.
Qed.

Lemma first_segment_free sep s : QStr.occurs sep (QStr.value (QStr.split sep s) 0 "") = false.
Proof.
  pose proof (split_segments_free sep s) as H.
  destruct (QStr.split sep s) as [|p ps]; [done|]. by apply Forall_cons in H as [Hp _].
Qed.

Lemma second_segment_free sep s dflt :
  QStr.occurs sep dflt = false →
  QStr.occurs sep (QStr.value (QStr.split sep s) 1 dflt) = false.
Proof.
  intros Hd. pose proof (split_segments_free sep s) as H.
  destruct (QStr.split sep s) as [|p [|q qs]]; try done.
  apply Forall_cons in H as [_ H]. by apply Forall_cons in H as [Hq _].
Qed.

End ParserFacts.

(** X1. Whatever the id, the hash that [requestImageResponse] extracts
    contains neither '/' nor '|', and the size contains no '/'. *)
Theorem parseId_no_delimiters (id : string) :
  QStr.occurs "/" (t_hash (parseId id)) = false ∧
  QStr.occurs "|" (t_hash (parseId id)) = false ∧
  QStr.occurs "/" (t_size (parseId id)) = false.
Proof.
  unfold parseId.
  set (hashPart := QStr.value (QStr.split "/" id) 0 "").
  pose proof (first_segment_free "/" id) as Hfirst. fold hashPart in Hfirst.
  pose proof (second_segment_free "/" id "medium" eq_refl) as Hsecond.
  destruct (Z.leb_spec 0 (QStr.indexOf "|" hashPart)) as [Hfound|Hnone]; cbn [t_hash t_size].
  - unfold QStr.left. destruct (Z.ltb_spec (QStr.indexOf "|" hashPart) 0); [lia|].
    split; [by apply take_free | split; [by apply take_indexOf_free | done]].
  - split; [done | split; [by apply indexOf_absent | done]].
Qed.

(** X2. An id without '|' in its first segment is a request without a file
    path: the hash is the first segment as it is, and the file path is
    empty. An id without '/' has the size "medium", and what follows a
    second '/' is ignored. *)
Theorem parseId_defaults (fileHash size rest : string) :
  QStr.occurs "/" fileHash = false →
  QStr.occurs "|" fileHash = false →
  QStr.occurs "/" size = false →
  parseId fileHash
    = {| t_hash := fileHash; t_filePath := ""; t_size := "medium" |} ∧
  parseId (fileHash ++ String "/" size)
    = {| t_hash := fileHash; t_filePath := ""; t_size := size |} ∧
  parseId (fileHash ++ String "/" (size ++ String "/" rest))
    = {| t_hash := fileHash; t_filePath := ""; t_size := size |}.
Proof.
  intros Hslash Hbar Hsize.
  assert (QStr.indexOf "|" fileHash <? 0 = true) as Hnone
    by (apply Z.ltb_lt; by apply indexOf_absent).
  assert (0 <=? QStr.indexOf "|" fileHash = false) as Hleb
    by (apply Z.leb_gt; by apply indexOf_absent).
  unfold parseId. split; [|split].
  - rewrite (split_free _ _ Hslash). cbn [QStr.value nth]. by rewrite Hleb.
  - rewrite (split_app _ _ _ Hslash), (split_free _ _ Hsize). cbn [QStr.value nth].
    by rewrite Hleb.
  - rewrite (split_app _ _ _ Hslash), (split_app _ _ _ Hsize). cbn [QStr.value nth].
    by rewrite Hleb.
Qed.

Lemma parseId_defaults_witness :
  parseId "ab12/small/extra"
  = {| t_hash := "ab12"; t_filePath := ""; t_size := "small" |}.
Proof.
  destruct (parseId_defaults "ab12" "small" "extra" eq_refl eq_refl eq_refl) as (_ & _ & H).
  exact H.
Defined.

(** ** The cache: recency *)

Section RecencyFacts.

Local Arguments QCache.hasKey _ _ /.

Implicit Types (c : QCache.t) (l : list QCache.Node) (k : string).

Lemma trimFromBack_ones m back tot :
  Forall (fun n => QCache.n_cost n = 1) back → tot = Z.of_nat (length back) →
  fst (QCache.trimFromBack m back tot) = skipn (length back - Z.to_nat m) back.
Proof.
  intros Hc. revert tot. induction Hc as [|n rest Hn Hrest IH]; intros tot Htot.
  - by rewrite skipn_nil.
  - simpl length in *. cbn [QCache.trimFromBack].
    destruct (Z.ltb_spec m tot) as [Hlt|Hge].
    + rewrite IH by lia.
      replace (S (length rest) - Z.to_nat m)%nat with (S (length rest - Z.to_nat m)) by lia.
      done.
    + replace (S (length rest) - Z.to_nat m)%nat with 0%nat by lia. done.
Qed.

(** [trim(m)] keeps the [m] most recently used nodes, or all of them when
    there are fewer. *)
Lemma trim_firstn m c :
  cache_ok c → QCache.chain (QCache.trim m c) = firstn (Z.to_nat m) (QCache.chain c).
Proof.
  intros [Hnd Hcost Htot]. unfold QCache.trim.
  assert (Forall (fun n => QCache.n_cost n = 1) (rev (QCache.chain c))) as Hrev.
  { apply Forall_forall. intros x Hx. rewrite Forall_forall in Hcost.
    apply Hcost. apply list_elem_of_In, in_rev, list_elem_of_In, Hx. }
  pose proof (trimFromBack_ones m _ (QCache.total c) Hrev) as H.
  rewrite length_rev in H. specialize (H Htot).
  destruct (QCache.trimFromBack m (rev (QCache.chain c)) (QCache.total c)) as [back tot].
  simpl in *. subst back. rewrite skipn_rev, rev_involutive.
  destruct (Nat.le_gt_cases (length (QCache.chain c)) (Z.to_nat m)) as [Hall|Hsome].
  - replace (length (QCache.chain c) - (length (QCache.chain c) - Z.to_nat m))%nat
      with (length (QCache.chain c)) by lia.
    by rewrite firstn_all, firstn_all2.
  - f_equal. lia.
Qed.

Lemma find_firstn (p : QCache.Node → bool) n l x :
  List.find p (firstn n l) = Some x → List.find p l = Some x.
Proof.
  revert l. induction n as [|n IH]; intros [|a l]; simpl; try done.
  destruct (p a); [done | apply IH].
Qed.

Lemma lookup_insert_other k k' v c :
  cache_ok c → k' ≠ k → 1 <= QCache.mx c →
  QCache.lookup k' (fst (QCache.insert k v 1 c))
  = option_map QCache.n_t
      (List.find (QCache.hasKey k') (firstn (Z.to_nat (QCache.mx c - 1)) (QCache.chain c))).
Proof.
  intros Hok Hne Hroom. unfold QCache.insert.
  destruct (Z.ltb_spec (QCache.mx c) 1); [lia|].
  pose proof (trim_firstn (QCache.mx c - 1) c Hok) as Htrim.
  unfold QCache.lookup, QCache.findNode. rewrite <- Htrim.
  destruct (List.find (QCache.hasKey k) (QCache.chain (QCache.trim _ c))); simpl.
  - destruct (String.eqb_spec k k'); [congruence|]. f_equal. by apply find_without_ne.
  - destruct (String.eqb_spec k k'); [congruence|]. done.
Qed.

End RecencyFacts.

(** X4. [setCacheSize(n)] keeps the [n] most recently used images, in their
    order, and drops the others; it keeps them all when [n] is at least
    their number, and none when [n] is 0 or less. *)
Theorem setCacheSize_keeps_recent (ops : list Op) (maxImages : Z) :
  let w := run ops newWorld in
  QCache.chain (m_imageCache (setCacheSize maxImages w))
    = firstn (Z.to_nat maxImages) (QCache.chain (m_imageCache w)) ∧
  QCache.mx (m_imageCache (setCacheSize maxImages w)) = maxImages ∧
  (QCache.count (m_imageCache w) <= maxImages →
     QCache.chain (m_imageCache (setCacheSize maxImages w)) = QCache.chain (m_imageCache w)) ∧
  (maxImages <= 0 → ∀ key, hasCachedImage key (setCacheSize maxImages w) = false).
Proof.
  intros w.
  destruct (run_ok ops newWorld newWorld_ok) as [[Hnd Hcost Htot] _ _]. fold w in Hnd, Hcost, Htot.
  set (c0 := {| QCache.chain := QCache.chain (m_imageCache w); QCache.mx := maxImages;
                QCache.total := QCache.total (m_imageCache w) |}).
  assert (cache_ok c0) as Hok0 by (by split).
  assert (QCache.chain (m_imageCache (setCacheSize maxImages w))
          = firstn (Z.to_nat maxImages) (QCache.chain (m_imageCache w))) as Hchain
    by apply (trim_firstn maxImages c0 Hok0).
  destruct (setMaxCost_ok maxImages (m_imageCache w)) as (_ & _ & Hmx); [by split|].
  split; [done | split; [done | split]].
  - intros Hfit. rewrite Hchain. apply firstn_all2. unfold QCache.count in Hfit. lia.
  - intros Hzero key. unfold hasCachedImage, QCache.contains, QCache.findNode.
    rewrite Hchain. by replace (Z.to_nat maxImages) with 0%nat by lia.
Qed.

(** X5. While the capacity is at least 1, [getCachedImage] after
    [cacheImage] under the same key returns the image stored; with a
    capacity below 1 the image is not stored. An insertion never changes
    the image under another key: such a key keeps its image or is evicted,
    and it keeps it whenever the cache had room for one more entry. *)
Theorem cacheImage_getCachedImage (ops : list Op) (key other : string) (image : QImage) :
  let w := run ops newWorld in
  let w' := cacheImage key image w in
  (1 <= QCache.mx (m_imageCache w) →
     hasCachedImage key w' = true ∧ fst (getCachedImage key w') = image) ∧
  (QCache.mx (m_imageCache w) < 1 → hasCachedImage key w' = false) ∧
  (other ≠ key →
     QCache.lookup other (m_imageCache w') = QCache.lookup other (m_imageCache w) ∨
     QCache.lookup other (m_imageCache w') = None) ∧
  (other ≠ key → QCache.count (m_imageCache w) < QCache.mx (m_imageCache w) →
     QCache.lookup other (m_imageCache w') = QCache.lookup other (m_imageCache w)).
Proof.
  intros w w'.
  destruct (run_ok ops newWorld newWorld_ok) as [Hc Hb _]. fold w in Hc, Hb.
  destruct (bounded_count _ Hc Hb) as [Hpos Hneg].
  split; [|split; [|split]].
  - intros Hroom.
    pose proof (lookup_insert_same key image (m_imageCache w) Hroom) as Hl.
    destruct (getCachedImage_frame key w') as (_ & _ & _ & _ & _ & _ & _ & ->).
    change (m_imageCache w') with (fst (QCache.insert key image 1 (m_imageCache w))).
    rewrite Hl. split; [|done].
    unfold hasCachedImage, QCache.contains.
    change (m_imageCache w') with (fst (QCache.insert key image 1 (m_imageCache w))).
    unfold QCache.lookup in Hl. by destruct (QCache.findNode key _).
  - intros Hsmall.
    assert (QCache.chain (m_imageCache w) = []) as Hempty.
    { destruct (QCache.chain (m_imageCache w)) eqn:E; [done|].
      unfold QCache.count in *. rewrite E in *. simpl length in *.
      destruct (Z.lt_ge_cases (QCache.mx (m_imageCache w)) 0); lia. }
    unfold hasCachedImage, w', cacheImage, QCache.insert. simpl.
    destruct (Z.ltb_spec (QCache.mx (m_imageCache w)) 1); [|lia]. simpl.
    unfold QCache.contains, QCache.remove, QCache.findNode. rewrite Hempty. simpl.
    by rewrite Hempty.
  - intros Hne.
    change (m_imageCache w') with (fst (QCache.insert key image 1 (m_imageCache w))).
    destruct (Z.lt_ge_cases (QCache.mx (m_imageCache w)) 1) as [Hsmall|Hroom].
    + left. unfold QCache.insert.
      destruct (Z.ltb_spec (QCache.mx (m_imageCache w)) 1); [|lia]. simpl.
      unfold QCache.remove, QCache.lookup, QCache.findNode.
      destruct (List.find (QCache.hasKey key) (QCache.chain (m_imageCache w))); [|done].
      simpl. f_equal. by apply find_without_ne.
    + rewrite lookup_insert_other by done.
      unfold QCache.lookup, QCache.findNode.
      destruct (List.find (QCache.hasKey other) (firstn _ _)) as [x|] eqn:E; [|by right].
      left. by rewrite (find_firstn _ _ _ _ E).
  - intros Hne Hfree. unfold QCache.count in Hfree.
    change (m_imageCache w') with (fst (QCache.insert key image 1 (m_imageCache w))).
    rewrite lookup_insert_other by (done || lia).
    rewrite firstn_all2; [done | lia].
Qed.

(** X6. Reading an image protects it from the next eviction: while the
    capacity is at least 2, an image that [getCachedImage] has just
    returned is still in the cache after the next [cacheImage]. *)
Theorem read_protects_from_eviction (ops : list Op) (key other : string)
    (image stored : QImage) :
  let w := run ops newWorld in
  QCache.lookup key (m_imageCache w) = Some stored →
  2 <= QCache.mx (m_imageCache w) →
  other ≠ key →
  let w' := cacheImage other image (snd (getCachedImage key w)) in
  hasCachedImage key w' = true ∧ fst (getCachedImage key w') = stored.
Proof.
  intros w Hl Hcap Hne w'.
  destruct (run_ok ops newWorld newWorld_ok) as [Hc Hb _]. fold w in Hc, Hb.
  destruct (getCachedImage_frame key w) as (_ & _ & _ & _ & _ & _ & Ec & _).
  destruct (object_ok key _ Hc Hb) as (Hc1 & Hb1 & Hmx1 & _).
  set (w1 := snd (getCachedImage key w)) in *. rewrite <- Ec in Hc1, Hb1, Hmx1.
  assert (QCache.lookup key (m_imageCache w') = Some stored) as Hkept.
  { change (m_imageCache w') with (fst (QCache.insert other image 1 (m_imageCache w1))).
    rewrite lookup_insert_other; [| done | congruence | lia].
    rewrite Ec. unfold QCache.object, QCache.lookup in *.
    destruct (QCache.findNode key (m_imageCache w)) as [n|] eqn:Hfind; [|done].
    simpl in Hl. injection Hl as Hn.
    assert (QCache.n_key n = key) as Hk by (by destruct (find_Some_key _ _ _ Hfind)).
    cbn [snd QCache.chain QCache.mx].
    replace (Z.to_nat (QCache.mx (m_imageCache w) - 1))
      with (S (Z.to_nat (QCache.mx (m_imageCache w) - 2))) by lia.
    cbn [firstn List.find]. unfold QCache.hasKey at 1. by rewrite Hk, String.eqb_refl, <- Hn. }
  destruct (getCachedImage_frame key w') as (_ & _ & _ & _ & _ & _ & _ & ->).
  rewrite Hkept. split; [|done].
  unfold hasCachedImage, QCache.contains. unfold QCache.lookup in Hkept.
  by destruct (QCache.findNode key (m_imageCache w')).
Qed.

Lemma read_protects_from_eviction_witness :
  let w := run [SetCacheSize 2; CacheImage "a" (Image {| sz_w := 1; sz_h := 1 |} "a");
                CacheImage "b" NullImage] newWorld in
  let w' := cacheImage "c" NullImage (snd (getCachedImage "a" w)) in
  hasCachedImage "a" w' = true ∧ hasCachedImage "b" w' = false.
Proof.
  intros w w'.
  destruct (read_protects_from_eviction
              [SetCacheSize 2; CacheImage "a" (Image {| sz_w := 1; sz_h := 1 |} "a");
               CacheImage "b" NullImage] "a" "c" NullImage
              (Image {| sz_w := 1; sz_h := 1 |} "a") eq_refl) as [H _];
    [vm_compute; discriminate | discriminate |].
  split; [exact H | vm_compute; reflexivity].
Defined.

(** ** Requests: the paths of the constructor *)

Section RequestFacts.

Implicit Types (w : World) (h : string) (x this : addr) (r : ThumbnailResponse).

(** The constructor on a cache hit. *)
Lemma newThumbnailResponse_hit env h filePath size rs w image :
  QCache.lookup (cacheKey h size) (m_imageCache w) = Some image →
  let this := fresh (dom (heap w)) in
  let w' := snd (newThumbnailResponse env h filePath size rs w) in
  fst (newThumbnailResponse env h filePath size rs w) = this ∧
  heap w' = <[this := withImage image (freshResponse h filePath size rs)]> (heap w) ∧
  m_pendingRequests w' = m_pendingRequests w ∧
  m_imageCache w' = snd (QCache.object (cacheKey h size) (m_imageCache w)) ∧
  enqueued w' = enqueued w ∧ handled w' = handled w ∧ decodes w' = decodes w ∧
  finishedSignals w' = finishedSignals w ++ [this].
Proof.
  intros Hl this w'. subst w'. unfold newThumbnailResponse. fold this.
  fold (freshResponse h filePath size rs).
  set (w0 := setHeap _ w).
  assert (hasCachedImage (cacheKey h size) w0 = true) as ->.
  { unfold hasCachedImage, QCache.contains. unfold QCache.lookup in Hl.
    change (m_imageCache w0) with (m_imageCache w).
    by destruct (QCache.findNode (cacheKey h size) (m_imageCache w)). }
  destruct (getCachedImage_frame (cacheKey h size) w0) as (Ep & Eh & Eq & Ed & Edec & Ef & Ec & Ei).
  change (m_imageCache w0) with (m_imageCache w) in Ec, Ei. rewrite Hl in Ei. simpl in Ei.
  destruct (getCachedImage (cacheKey h size) w0) as [image0 w1]. simpl in *. subst image0.
  rewrite Eh. repeat split; try done; [by rewrite insert_insert_eq | by rewrite Ef].
Qed.

(** The constructor off the cache: nothing but the new object changes
    before the disk is probed. *)
Lemma newThumbnailResponse_miss env h filePath size rs w :
  hasCachedImage (cacheKey h size) w = false →
  let this := fresh (dom (heap w)) in
  let w0 := setHeap (<[this := freshResponse h filePath size rs]> (heap w)) w in
  let path := getThumbnailPath env h size in
  newThumbnailResponse env h filePath size rs w
  = if negb (QStr.isEmpty path) && fileExists env path
    then (this, loadFromPath env this path w0)
    else if QStr.isEmpty filePath
    then (this, finishWithError this "Missing file path for thumbnail request" w0)
    else (this, enqueueThumbnailsBatch
                  [ {| rq_filePath := filePath; rq_fileHash := h; rq_size := size |} ]
                  (addPendingRequest h this w0)).
Proof.
  intros Hmiss this w0 path. unfold newThumbnailResponse. fold this.
  fold (freshResponse h filePath size rs). fold w0.
  change (hasCachedImage (cacheKey h size) w0) with (hasCachedImage (cacheKey h size) w).
  rewrite Hmiss. fold path. by destruct (_ && _); [|destruct (QStr.isEmpty filePath)].
Qed.

Lemma fresh_absent w : heap w !! fresh (dom (heap w)) = None.
Proof. apply not_elem_of_dom, is_fresh. Qed.

(** A finishing response that waits nowhere leaves the registry alone. *)
Lemma finish_fresh_pending w this r :
  registry_ok w → heap w !! this = None →
  m_pendingRequests
    (removePendingRequest (m_fileHash r) this (setHeap (<[this := r]> (heap w)) w))
  = m_pendingRequests w.
Proof.
  intros Hreg Hnone.
  rewrite (removePending_cong _ _ _ w) by done.
  rewrite removePending_absent; [done | apply Hreg |].
  by apply dead_not_waiter.
Qed.

(** Taking out a waiter that was just put in gives the registry back. *)
Lemma remove_add_pending h x w :
  (∀ h' (s : gset addr), m_pendingRequests w !! h' = Some s → s ≠ ∅) →
  x ∉ waiters w h →
  m_pendingRequests (removePendingRequest h x (addPendingRequest h x w))
  = m_pendingRequests w.
Proof.
  intros Hne Hnot. unfold removePendingRequest, addPendingRequest, waiters in *.
  cbn [m_pendingRequests setPending]. rewrite lookup_insert_eq.
  destruct (m_pendingRequests w !! h) as [s|] eqn:E; simpl in *.
  - assert ((s ∪ {[x]}) ∖ {[x]} = s) as -> by set_solver.
    destruct (decide (s = ∅)) as [->|_]; [by destruct (Hne h ∅ E)|].
    simpl. rewrite insert_insert_eq. by apply insert_id.
  - assert (((∅ : gset addr) ∪ {[x]}) ∖ {[x]} = ∅) as -> by set_solver.
    destruct (decide ((∅ : gset addr) = ∅)); [|done].
    simpl. by apply delete_insert_id.
Qed.

End RequestFacts.

(** X7. A request whose key is in the image cache is finished in the
    constructor with the cached image, whatever the disk holds and whether or
    not it has a file path: nothing is probed, decoded, registered or
    enqueued, [finished()] is emitted once, and every key of the cache keeps
    its image. *)
Theorem cache_hit_request (env env' : Env) (fileHash filePath size : string) (rs : QSize)
    (w : World) (image : QImage) :
  QCache.lookup (cacheKey fileHash size) (m_imageCache w) = Some image →
  let this := fst (newThumbnailResponse env fileHash filePath size rs w) in
  let w' := snd (newThumbnailResponse env fileHash filePath size rs w) in
  heap w' !! this = Some (withImage image (freshResponse fileHash filePath size rs)) ∧
  newThumbnailResponse env' fileHash filePath size rs w
    = newThumbnailResponse env fileHash filePath size rs w ∧
  m_pendingRequests w' = m_pendingRequests w ∧
  enqueued w' = enqueued w ∧ decodes w' = decodes w ∧
  finishedSignals w' = finishedSignals w ++ [this] ∧
  (∀ key, QCache.lookup key (m_imageCache w') = QCache.lookup key (m_imageCache w)).
Proof.
  intros Hl this w'.
  destruct (newThumbnailResponse_hit env fileHash filePath size rs w image Hl)
    as (Ethis & Eh & Ep & Ec & Eq & _ & Ed & Ef).
  destruct (newThumbnailResponse_hit env' fileHash filePath size rs w image Hl)
    as (Ethis' & Eh' & Ep' & Ec' & Eq' & Eha' & Ed' & Ef').
  subst this w'. rewrite Ethis.
  split; [by rewrite Eh, lookup_insert_eq|].
  split; [|split; [done | split; [done | split; [done | split; [done|]]]]].
  - unfold newThumbnailResponse.
    assert (hasCachedImage (cacheKey fileHash size)
              (setHeap (<[fresh (dom (heap w)) :=
                 {| m_fileHash := fileHash; m_filePath := filePath; m_size := size;
                    m_requestedSize := rs; m_image := NullImage;
                    m_errorString := ""; m_finished := false |}]> (heap w)) w) = true) as ->;
      [|done].
    unfold hasCachedImage, QCache.contains. unfold QCache.lookup in Hl. simpl.
    by destruct (QCache.findNode (cacheKey fileHash size) (m_imageCache w)).
  - intros key. rewrite Ec. apply lookup_object.
Qed.

Lemma cache_hit_request_witness :
  let w := run [CacheImage "h1/medium" (Image {| sz_w := 8; sz_h := 8 |} "px")] newWorld in
  let rw := newThumbnailResponse diskEnv "h1" "" "medium" noSize w in
  heap (snd rw) !! fst rw
  = Some (withImage (Image {| sz_w := 8; sz_h := 8 |} "px") (freshResponse "h1" "" "medium" noSize)).
Proof.
  intros w rw.
  destruct (cache_hit_request diskEnv diskEnv "h1" "" "medium" noSize w
              (Image {| sz_w := 8; sz_h := 8 |} "px") eq_refl) as (H & _).
  exact H.
Defined.

(** X8. A request whose key is not in the image cache and whose thumbnail
    is on disk is finished in the constructor by reading that file, with or
    without a file path of its own: it is Delivered with the image read, or
    Failed with the reader's error when the image is null. It is registered
    nowhere and nothing is enqueued. *)
Theorem disk_hit_request (ops : list Op) (env : Env) (fileHash filePath size : string)
    (rs : QSize) :
  let w := run ops newWorld in
  let path := getThumbnailPath env fileHash size in
  let image := readerRead env path (scaledSizeFor rs) in
  hasCachedImage (cacheKey fileHash size) w = false →
  QStr.isEmpty path = false → fileExists env path = true →
  let this := fst (newThumbnailResponse env fileHash filePath size rs w) in
  let w' := snd (newThumbnailResponse env fileHash filePath size rs w) in
  decodes w' = decodes w ++ [(this, ReadPath path (scaledSizeFor rs))] ∧
  m_pendingRequests w' = m_pendingRequests w ∧
  enqueued w' = enqueued w ∧
  finishedSignals w' = finishedSignals w ++ [this] ∧
  (isNull image = false →
     heap w' !! this = Some (withImage image (freshResponse fileHash filePath size rs)) ∧
     stateOf (withImage image (freshResponse fileHash filePath size rs)) = Delivered image) ∧
  (isNull image = true →
     heap w' !! this
       = Some (withError (readerErrorString env path (scaledSizeFor rs))
                 (freshResponse fileHash filePath size rs)) ∧
     stateOf (withError (readerErrorString env path (scaledSizeFor rs))
                (freshResponse fileHash filePath size rs))
       = Failed (readerErrorString env path (scaledSizeFor rs)) ∧
     m_imageCache w' = m_imageCache w).
Proof.
  intros w path image Hmiss Hpath Hexists this w'. subst this w'.
  destruct (run_ok ops newWorld newWorld_ok) as [_ _ Hreg]. fold w in Hreg.
  rewrite (newThumbnailResponse_miss env fileHash filePath size rs w Hmiss).
  fold path. rewrite Hpath, Hexists. cbn [negb andb fst snd].
  set (this := fresh (dom (heap w))). set (r0 := freshResponse fileHash filePath size rs).
  set (w0 := setHeap _ w).
  assert (heap w0 !! this = Some r0) as H0 by apply lookup_insert_eq.
  destruct (loadFromPath_outcome env this path w0 r0 H0) as (Hd & _ & Hq & Hcase).
  change (scaledSizeFor (m_requestedSize r0)) with (scaledSizeFor rs) in *.
  fold image in Hcase.
  set (w1 := logDecode this (ReadPath path (scaledSizeFor rs)) w0) in *.
  assert (heap w1 !! this = Some r0) as H1 by done.
  assert (m_pendingRequests (removePendingRequest (m_fileHash r0) this w1)
          = m_pendingRequests w) as Hpend.
  { rewrite (removePending_cong _ _ w1 (setHeap (<[this := r0]> (heap w)) w)) by done.
    apply finish_fresh_pending; [done | apply fresh_absent]. }
  split; [done|].
  destruct (isNull image) eqn:Hnull; rewrite Hcase.
  - destruct (finishWithError_fields this (readerErrorString env path (scaledSizeFor rs)) w1 r0 H1)
      as (Eh & Ep & Ec & Eq & _ & _ & Ef).
    split; [by rewrite Ep|]. split; [by rewrite Eq|]. split; [by rewrite Ef|].
    split; [intros [=]|].
    intros _. rewrite Eh. split; [apply lookup_insert_eq|]. split; [|by rewrite Ec].
    unfold stateOf. simpl. by destruct (readerErrorString env path (scaledSizeFor rs)).
  - destruct (finishWithImage_fields this image w1 r0 H1) as (Eh & Ep & Ec & Eq & _ & _ & Ef).
    split; [by rewrite Ep|]. split; [by rewrite Eq|]. split; [by rewrite Ef|].
    split; [|intros [=]].
    intros _. rewrite Eh. split; [apply lookup_insert_eq|].
    unfold stateOf. simpl. by rewrite Hnull.
Qed.

Lemma disk_hit_request_witness :
  let rw := newThumbnailResponse diskEnv "h3" "" "small" noSize (run [] newWorld) in
  enqueued (snd rw) = [] ∧ m_pendingRequests (snd rw) = ∅.
Proof.
  intros rw.
  destruct (disk_hit_request [] diskEnv "h3" "" "small" noSize eq_refl eq_refl eq_refl)
    as (_ & Hp & Hq & _).
  split; [exact Hq | exact Hp].
Defined.

(** X9. A request that goes to the generation engine and is destroyed
    before a completion arrives leaves the registry, the live responses
    and the image cache as they were before it was made; the call of
    [enqueueThumbnailsBatch] it made is not taken back. *)
Theorem request_then_cancel (ops : list Op) (env : Env) (fileHash filePath size : string)
    (rs : QSize) :
  let w := run ops newWorld in
  hasCachedImage (cacheKey fileHash size) w = false →
  negb (QStr.isEmpty (getThumbnailPath env fileHash size))
    && fileExists env (getThumbnailPath env fileHash size) = false →
  QStr.isEmpty filePath = false →
  let this := fst (newThumbnailResponse env fileHash filePath size rs w) in
  let w' := deleteResponse this (snd (newThumbnailResponse env fileHash filePath size rs w)) in
  m_pendingRequests w' = m_pendingRequests w ∧
  heap w' = heap w ∧
  m_imageCache w' = m_imageCache w ∧
  finishedSignals w' = finishedSignals w ∧
  enqueued w' = enqueued w ++ [[ {| rq_filePath := filePath; rq_fileHash := fileHash;
                                    rq_size := size |} ]].
Proof.
  intros w Hmiss Hdisk Hpath this w'. subst this w'.
  destruct (run_ok ops newWorld newWorld_ok) as [_ _ Hreg]. fold w in Hreg.
  rewrite (newThumbnailResponse_miss env fileHash filePath size rs w Hmiss).
  rewrite Hdisk, Hpath. cbn [fst snd].
  set (this := fresh (dom (heap w))). set (r0 := freshResponse fileHash filePath size rs).
  unfold deleteResponse.
  cbn [heap enqueueThumbnailsBatch logEnqueue addPendingRequest setPending setHeap].
  rewrite lookup_insert_eq. cbn [m_finished r0 freshResponse m_fileHash].
  match goal with |- context [removePendingRequest fileHash this ?v] =>
    set (w1 := v);
    destruct (removePending_frame fileHash this w1) as (Ec & Eh & Eq & _ & _ & Ef) end.
  cbn [heap m_imageCache enqueued finishedSignals setHeap m_pendingRequests].
  rewrite Ec, Eh, Eq, Ef.
  split; [|split; [|done]].
  - pose proof (fresh_not_waiter w fileHash Hreg) as Hnot. fold this in Hnot.
    rewrite (removePending_cong _ _ w1 (addPendingRequest fileHash this w)) by done.
    apply remove_add_pending; [apply Hreg | done].
  - unfold w1. cbn [heap enqueueThumbnailsBatch logEnqueue addPendingRequest setPending setHeap].
    apply delete_insert_id, fresh_absent.
Qed.

Lemma request_then_cancel_witness :
  let w := run [Request diskEnv "h1|%2Fa.jpg/medium" noSize] newWorld in
  let rw := newThumbnailResponse diskEnv "h1" "/a.jpg" "large" noSize w in
  m_pendingRequests (deleteResponse (fst rw) (snd rw)) = m_pendingRequests w ∧
  heap (deleteResponse (fst rw) (snd rw)) = heap w.
Proof.
  intros w rw.
  destruct (request_then_cancel [Request diskEnv "h1|%2Fa.jpg/medium" noSize]
              diskEnv "h1" "/a.jpg" "large" noSize eq_refl eq_refl eq_refl)
    as (Hp & Hh & _).
  split; [exact Hp | exact Hh].
Defined.

(** ** The life of a response *)

Section LifeFacts.

Implicit Types (w : World) (h : string) (x y this : addr) (r : ThumbnailResponse).

Lemma hasCachedImage_lookup key w :
  hasCachedImage key w = true → ∃ image, QCache.lookup key (m_imageCache w) = Some image.
Proof.
  unfold hasCachedImage, QCache.contains, QCache.lookup.
  destruct (QCache.findNode key (m_imageCache w)) as [n|]; [|done]. by exists (QCache.n_t n).
Qed.

(** What the constructor does to the heap, the registry and the signals. *)
Lemma newThumbnailResponse_summary env h filePath size rs w :
  let this := fresh (dom (heap w)) in
  let w' := snd (newThumbnailResponse env h filePath size rs w) in
  fst (newThumbnailResponse env h filePath size rs w) = this ∧
  ∃ r', heap w' = <[this := r']> (heap w) ∧ m_fileHash r' = h ∧
    finishedSignals w' = finishedSignals w ++ (if m_finished r' then [this] else []) ∧
    ((m_finished r' = true ∧
      m_pendingRequests w' = m_pendingRequests (removePendingRequest h this w) ∧
      enqueued w' = enqueued w) ∨
     (m_finished r' = true ∧ m_pendingRequests w' = m_pendingRequests w ∧
      enqueued w' = enqueued w) ∨
     (r' = freshResponse h filePath size rs ∧
      m_pendingRequests w' = m_pendingRequests (addPendingRequest h this w) ∧
      QStr.isEmpty filePath = false ∧
      enqueued w' = enqueued w ++ [[requestOf (freshResponse h filePath size rs)]])).
Proof.
  intros this w'. subst w'.
  destruct (hasCachedImage (cacheKey h size) w) eqn:Hhit.
  - destruct (hasCachedImage_lookup _ _ Hhit) as [image Hl].
    destruct (newThumbnailResponse_hit env h filePath size rs w image Hl)
      as (Ethis & Eh & Ep & _ & Eq & _ & _ & Ef).
    split; [done|]. eexists. split; [exact Eh|]. split; [done|]. split; [done|].
    right. left. by split.
  - rewrite (newThumbnailResponse_miss env h filePath size rs w Hhit). fold this.
    set (r0 := freshResponse h filePath size rs). set (w0 := setHeap _ w).
    assert (heap w0 !! this = Some r0) as H0 by apply lookup_insert_eq.
    assert (∀ r', <[this := r']> (heap w0) = <[this := r']> (heap w)) as Hins
      by (intros r'; apply insert_insert_eq).
    destruct (_ && _).
    + cbn [fst snd]. split; [done|].
      destruct (loadFromPath_outcome env this (getThumbnailPath env h size) w0 r0 H0)
        as (_ & _ & _ & Hcase).
      set (w1 := logDecode this _ w0) in *.
      assert (heap w1 !! this = Some r0) as H1 by done.
      destruct (isNull _); rewrite Hcase.
      * destruct (finishWithError_fields this
                    (readerErrorString env (getThumbnailPath env h size)
                       (scaledSizeFor (m_requestedSize r0))) w1 r0 H1)
          as (Eh & Ep & _ & Eq & _ & _ & Ef).
        eexists. split; [rewrite Eh; apply Hins|]. split; [done|]. split; [done|].
        left. split; [done|]. rewrite Ep, Eq. split; [by apply removePending_cong | done].
      * destruct (finishWithImage_fields this
                    (readerRead env (getThumbnailPath env h size)
                       (scaledSizeFor (m_requestedSize r0))) w1 r0 H1)
          as (Eh & Ep & _ & Eq & _ & _ & Ef).
        eexists. split; [rewrite Eh; apply Hins|]. split; [done|]. split; [done|].
        left. split; [done|]. rewrite Ep, Eq. split; [by apply removePending_cong | done].
    + destruct (QStr.isEmpty filePath) eqn:Hpath; cbn [fst snd]; (split; [done|]).
      * destruct (finishWithError_fields this "Missing file path for thumbnail request" w0 r0 H0)
          as (Eh & Ep & _ & Eq & _ & _ & Ef).
        eexists. split; [rewrite Eh; apply Hins|]. split; [done|]. split; [done|].
        left. split; [done|]. rewrite Ep, Eq. split; [by apply removePending_cong | done].
      * exists r0. split; [done|]. split; [done|]. split; [by rewrite app_nil_r|].
        right. right. by repeat split.
Qed.

(** What [handleThumbnailReady] does to a live response that has not
    finished. *)
Lemma handleThumbnailReady_finish env this c w r :
  heap w !! this = Some r → m_finished r = false →
  ∃ r', ((∃ image, r' = withImage image r) ∨ (∃ error, r' = withError error r)) ∧
    heap (handleThumbnailReady env this c w) = <[this := r']> (heap w) ∧
    m_pendingRequests (handleThumbnailReady env this c w)
      = m_pendingRequests (removePendingRequest (m_fileHash r) this w) ∧
    finishedSignals (handleThumbnailReady env this c w) = finishedSignals w ++ [this].
Proof.
  intros Hr Hf.
  destruct (handleThumbnailReady_outcome env this c w r Hr Hf)
    as (w1 & (_ & Ep & Eh & _ & Ef) & [(image & _ & ->) | (error & ->)]);
    assert (heap w1 !! this = Some r) as Hr1 by (by rewrite Eh).
  - destruct (finishWithImage_fields this image w1 r Hr1) as (Eh' & Ep' & _ & _ & _ & _ & Ef').
    exists (withImage image r). split; [left; by eexists|].
    rewrite Eh', Ep', Ef', Eh, Ef. split; [done|]. split; [by apply removePending_cong | done].
  - destruct (finishWithError_fields this error w1 r Hr1) as (Eh' & Ep' & _ & _ & _ & _ & Ef').
    exists (withError error r). split; [right; by eexists|].
    rewrite Eh', Ep', Ef', Eh, Ef. split; [done|]. split; [by apply removePending_cong | done].
Qed.

(** On a response that has finished, or at an address that holds none, it
    records the call and does nothing else. *)
Lemma handleThumbnailReady_idle env this c w :
  (∀ r, heap w !! this = Some r → m_finished r = true) →
  handleThumbnailReady env this c w = logHandled this c w.
Proof.
  intros Hidle. unfold handleThumbnailReady.
  change (heap (logHandled this c w)) with (heap w).
  destruct (heap w !! this) as [r|]; [|done]. by rewrite (Hidle r eq_refl).
Qed.

Lemma handleThumbnailReady_keeps_record env y c w x r :
  heap w !! x = Some r → m_finished r = true →
  heap (handleThumbnailReady env y c w) !! x = Some r.
Proof.
  intros Hr Hf. destruct (decide (x = y)) as [->|Hne].
  - rewrite handleThumbnailReady_idle; [done|]. intros r'. rewrite Hr. by intros [= <-].
  - by rewrite handleThumbnailReady_other.
Qed.

Lemma deliverAll_keeps_record env c l w x r :
  heap w !! x = Some r → m_finished r = true →
  heap (deliverAll env c l w) !! x = Some r.
Proof.
  revert w. induction l as [|y l IH]; intros w Hr Hf; [done|].
  apply IH; [|done]. by apply handleThumbnailReady_keeps_record.
Qed.

Lemma step_keeps_record o w x r :
  heap w !! x = Some r → m_finished r = true → o ≠ Delete x →
  heap (step o w) !! x = Some r.
Proof.
  intros Hr Hf Ho. destruct o; simpl.
  - unfold requestImageResponse.
    destruct (newThumbnailResponse_summary env (t_hash (parseId id)) (t_filePath (parseId id))
                (t_size (parseId id)) requestedSize w) as (_ & r' & -> & _).
    rewrite lookup_insert_ne; [done|]. intros E.
    pose proof (fresh_absent w) as Hnone. rewrite E in Hnone. congruence.
  - assert (this ≠ x) as Hne by congruence.
    unfold deleteResponse. destruct (heap w !! this) as [r0|]; [|done].
    cbn [heap setHeap]. rewrite lookup_delete_ne by done.
    destruct (m_finished r0); [done|].
    by destruct (removePending_frame (m_fileHash r0) this w) as (_ & -> & _).
  - unfold notifyThumbnailReady. destruct (m_pendingRequests w !! fileHash); [|done].
    by apply deliverAll_keeps_record.
  - by apply handleThumbnailReady_keeps_record.
  - done.
  - done.
  - done.
  - by destruct (getCachedImage_frame key w) as (_ & -> & _).
Qed.

End LifeFacts.

(** X10. A finished response is final: nothing that happens to the
    provider afterwards, short of destroying the response, changes its
    image, its error or any other of its fields. *)
Theorem finished_is_final (w : World) (ops : list Op) (x : addr) (r : ThumbnailResponse) :
  heap w !! x = Some r → m_finished r = true →
  Forall (fun o => o ≠ Delete x) ops →
  heap (run ops w) !! x = Some r.
Proof.
  intros Hr Hf Hops. revert w Hr. induction Hops as [|o ops Ho Hops IH]; intros w Hr; [done|].
  apply IH. by apply step_keeps_record.
Qed.

Lemma finished_is_final_witness :
  let w := run [Request diskEnv "h3/small" noSize] newWorld in
  let c := {| cp_path := "/cache/other.jpg"; cp_isPlaceholder := false;
              cp_placeholderBase64 := ""; cp_useOriginal := false |} in
  heap (run [Handle diskEnv 0%nat c; Notify diskEnv "h3" "small" c; ClearCache] w) !! 0%nat
  = heap w !! 0%nat.
Proof.
  intros w c.
  assert (∃ r, heap w !! 0%nat = Some r ∧ m_finished r = true) as (r & Hr & Hf)
    by (eexists; vm_compute; done).
  rewrite Hr.
  apply (finished_is_final w _ 0%nat r Hr Hf).
  repeat constructor; discriminate.
Defined.

(** X11. [finished()] is emitted when a response becomes finished and at no
    other time: by the constructor exactly when the response it leaves is
    finished, by [handleThumbnailReady] on a live response exactly when the
    response had not finished before, and never by the destructor of a live
    response. *)
Theorem finished_emitted_once (env : Env) (fileHash filePath size : string) (rs : QSize)
    (this : addr) (c : Completion) (w : World) :
  (∃ r', heap (snd (newThumbnailResponse env fileHash filePath size rs w))
           !! fst (newThumbnailResponse env fileHash filePath size rs w) = Some r' ∧
         finishedSignals (snd (newThumbnailResponse env fileHash filePath size rs w))
         = finishedSignals w
           ++ (if m_finished r'
               then [fst (newThumbnailResponse env fileHash filePath size rs w)] else [])) ∧
  (∀ r, heap w !! this = Some r →
        finishedSignals (handleThumbnailReady env this c w)
        = finishedSignals w ++ (if m_finished r then [] else [this]) ∧
        finishedAt (handleThumbnailReady env this c w) this) ∧
  (∀ r, heap w !! this = Some r →
        finishedSignals (deleteResponse this w) = finishedSignals w).
Proof.
  split; [|split].
  - destruct (newThumbnailResponse_summary env fileHash filePath size rs w)
      as (-> & r' & Eh & _ & Ef & _).
    exists r'. split; [by rewrite Eh, lookup_insert_eq | done].
  - intros r Hr. split; [|apply handleThumbnailReady_finishes; by exists r].
    destruct (m_finished r) eqn:Hf.
    + rewrite handleThumbnailReady_idle; [by rewrite app_nil_r|].
      intros r'. rewrite Hr. by intros [= <-].
    + by destruct (handleThumbnailReady_finish env this c w r Hr Hf) as (r' & _ & _ & _ & ->).
  - intros r Hr. unfold deleteResponse. rewrite Hr.
    destruct (m_finished r); [done|]. cbn [finishedSignals setHeap].
    by destruct (removePending_frame (m_fileHash r) this w) as (_ & _ & _ & _ & _ & ->).
Qed.

(** ** Completions and the other identities *)

Section FanOutFacts.

Implicit Types (w : World) (h : string) (x y this : addr) (r : ThumbnailResponse).

(** [handleThumbnailReady] changes the waiter set of the hash of its
    response and no other. *)
Lemma handleThumbnailReady_waiters_other env y c w h :
  (∀ r, heap w !! y = Some r → m_fileHash r ≠ h) →
  waiters (handleThumbnailReady env y c w) h = waiters w h.
Proof.
  intros Hother. destruct (heap w !! y) as [r|] eqn:Hr.
  - destruct (m_finished r) eqn:Hf.
    + rewrite handleThumbnailReady_idle; [done|]. intros r'. rewrite Hr. by intros [= <-].
    + destruct (handleThumbnailReady_finish env y c w r Hr Hf) as (r' & _ & _ & Ep & _).
      rewrite (waiters_cong _ _ h Ep), removePending_waiters.
      destruct (decide (h = m_fileHash r)) as [->|_]; [by destruct (Hother r)|done].
  - rewrite handleThumbnailReady_idle; [done|]. intros r. by rewrite Hr.
Qed.

Lemma handleThumbnailReady_keeps_hash env y c w x h :
  hashAt w x h → hashAt (handleThumbnailReady env y c w) x h.
Proof.
  intros (r & Hr & Hh). destruct (decide (x = y)) as [->|Hne].
  - destruct (m_finished r) eqn:Hf.
    + exists r. split; [|done]. by apply handleThumbnailReady_keeps_record.
    + destruct (handleThumbnailReady_finish env y c w r Hr Hf)
        as (r' & Hshape & Eh & _).
      unfold hashAt. rewrite Eh.
      destruct Hshape as [[image ->] | [error ->]]; eexists;
        (split; [apply lookup_insert_eq | done]).
  - exists r. by rewrite handleThumbnailReady_other.
Qed.

Lemma deliverAll_waiters_other env c l w h h' :
  h' ≠ h → (∀ y, y ∈ l → hashAt w y h) →
  waiters (deliverAll env c l w) h' = waiters w h'.
Proof.
  intros Hne. revert w. induction l as [|y l IH]; intros w Hl; [done|].
  change (deliverAll env c (y :: l) w) with (deliverAll env c l (handleThumbnailReady env y c w)).
  rewrite IH.
  - apply handleThumbnailReady_waiters_other. intros r Hr.
    destruct (Hl y) as (r' & Hr' & Hh); [left|]. congruence.
  - intros z Hz. apply handleThumbnailReady_keeps_hash, Hl. by right.
Qed.

Lemma deliverAll_signals env c l w :
  NoDup l →
  (∀ x, x ∈ l → ∃ r, heap w !! x = Some r ∧ m_finished r = false) →
  finishedSignals (deliverAll env c l w) = finishedSignals w ++ l.
Proof.
  revert w. induction l as [|x l IH]; intros w Hnd Hlive; [by rewrite app_nil_r|].
  apply NoDup_cons in Hnd as [Hx Hnd].
  change (deliverAll env c (x :: l) w) with (deliverAll env c l (handleThumbnailReady env x c w)).
  destruct (Hlive x) as (r & Hr & Hf); [left|].
  destruct (handleThumbnailReady_finish env x c w r Hr Hf) as (r' & _ & _ & _ & Ef).
  rewrite IH, Ef, <- app_assoc; [done | done |].
  intros y Hy. rewrite handleThumbnailReady_other; [apply Hlive; by right|].
  intros ->. done.
Qed.

Lemma drained_ok w h (s : gset addr) :
  world_ok w → m_pendingRequests w !! h = Some s →
  ∀ y, y ∈ elements s →
    hashAt (setPending (delete h (m_pendingRequests w)) w) y h ∧
    ∃ r, heap (setPending (delete h (m_pendingRequests w)) w) !! y = Some r ∧
         m_finished r = false.
Proof.
  intros Hok Hs y Hy%elem_of_elements.
  destruct (ok_waiter w (ok_registry w Hok) h s y Hs Hy) as (r & Hr & Hh & Hf).
  split; exists r; by split.
Qed.

End FanOutFacts.

Lemma notifyThumbnailReady_others (env : Env) (fileHash size : string) (c : Completion)
    (w : World) :
  world_ok w →
  let w' := notifyThumbnailReady env fileHash size c w in
  (∀ h, h ≠ fileHash → waiters w' h = waiters w h) ∧
  (∀ x r, heap w !! x = Some r → m_fileHash r ≠ fileHash → heap w' !! x = Some r) ∧
  enqueued w' = enqueued w.
Proof.
  intros Hok w'.
  subst w'. unfold notifyThumbnailReady.
  destruct (m_pendingRequests w !! fileHash) as [s|] eqn:Hs; [|done].
  set (w1 := setPending (delete fileHash (m_pendingRequests w)) w).
  split; [|split].
  - intros h Hne.
    rewrite (deliverAll_waiters_other env c (elements s) w1 fileHash h Hne).
    + unfold waiters, w1. cbn [m_pendingRequests setPending]. by rewrite lookup_delete_ne.
    + intros y Hy. by destruct (drained_ok w fileHash s Hok Hs y Hy).
  - intros x r Hr Hne. rewrite deliverAll_heap_other; [done|].
    intros Hx%elem_of_elements.
    destruct (ok_waiter w (ok_registry w Hok) fileHash s x Hs Hx) as (r' & Hr' & Hh & _).
    congruence.
  - assert (∀ l v, enqueued (deliverAll env c l v) = enqueued v) as Hq; [|by rewrite Hq].
    intros l. induction l as [|y l IH]; intros v; [done|].
    change (deliverAll env c (y :: l) v) with (deliverAll env c l (handleThumbnailReady env y c v)).
    rewrite IH. unfold handleThumbnailReady. set (v0 := logHandled y c v).
    destruct (heap v0 !! y) as [r|] eqn:Hr; [|done]. destruct (m_finished r); [done|].
    destruct (_ && _).
    + by destruct (loadFromBase64_outcome env y (cp_placeholderBase64 c) v0) as (_ & _ & -> & _).
    + destruct (negb _).
      * by destruct (loadFromPath_outcome env y (cp_path c) v0 r Hr) as (_ & _ & -> & _).
      * by destruct (finishWithError_logs y "No thumbnail available" v0) as (-> & _).
Qed.

(** X12. A completion for one identity leaves the other identities alone:
    their waiter sets are as before, and so is every response whose hash is
    another one; and a completion enqueues nothing. *)
Theorem completion_isolated (ops : list Op) (env : Env) (fileHash size : string)
    (c : Completion) :
  let w := run ops newWorld in
  let w' := notifyThumbnailReady env fileHash size c w in
  (∀ h, h ≠ fileHash → waiters w' h = waiters w h) ∧
  (∀ x r, heap w !! x = Some r → m_fileHash r ≠ fileHash → heap w' !! x = Some r) ∧
  enqueued w' = enqueued w.
Proof.
  intros w. apply notifyThumbnailReady_others, run_ok, newWorld_ok.
Qed.

(** X13. Fan-out treats every waiter on its own: after a completion for an
    identity, each waiter of the identity has the record it would have if it
    alone had been handed the completion, and [finished()] has been emitted
    once for each of them. *)
Theorem fan_out_independent (ops : list Op) (env : Env) (fileHash size : string)
    (c : Completion) :
  let w := run ops newWorld in
  let w' := notifyThumbnailReady env fileHash size c w in
  (∀ x, x ∈ waiters w fileHash →
     heap w' !! x = heap (handleThumbnailReady env x c w) !! x) ∧
  finishedSignals w' = finishedSignals w ++ elements (waiters w fileHash).
Proof.
  intros w w'.
  pose proof (run_ok ops newWorld newWorld_ok) as Hok. fold w in Hok.
  subst w'. unfold notifyThumbnailReady, waiters.
  destruct (m_pendingRequests w !! fileHash) as [s|] eqn:Hs; simpl.
  - set (w1 := setPending (delete fileHash (m_pendingRequests w)) w). split.
    + intros x Hx. rewrite deliverAll_independent;
        [| apply NoDup_elements | by apply elem_of_elements].
      by apply handleThumbnailReady_local.
    + rewrite deliverAll_signals; [done | apply NoDup_elements |].
      intros y Hy. by destruct (drained_ok w fileHash s Hok Hs y Hy).
  - split; [set_solver | by rewrite elements_empty, app_nil_r].
Qed.

(** ** Waiting responses *)

Section WaitingFacts.

Implicit Types (w : World) (h : string) (x y this : addr) (r : ThumbnailResponse).

Lemma handleThumbnailReady_enqueued env y c w :
  enqueued (handleThumbnailReady env y c w) = enqueued w.
Proof.
  unfold handleThumbnailReady. set (v0 := logHandled y c w).
  destruct (heap v0 !! y) as [r|] eqn:Hr; [|done]. destruct (m_finished r); [done|].
  destruct (_ && _).
  - by destruct (loadFromBase64_outcome env y (cp_placeholderBase64 c) v0) as (_ & _ & -> & _).
  - destruct (negb _).
    + by destruct (loadFromPath_outcome env y (cp_path c) v0 r Hr) as (_ & _ & -> & _).
    + by destruct (finishWithError_logs y "No thumbnail available" v0) as (-> & _).
Qed.

Lemma deliverAll_enqueued env c l w : enqueued (deliverAll env c l w) = enqueued w.
Proof.
  revert w. induction l as [|y l IH]; intros w; [done|].
  change (deliverAll env c (y :: l) w) with (deliverAll env c l (handleThumbnailReady env y c w)).
  by rewrite IH, handleThumbnailReady_enqueued.
Qed.

(** A world that differs from another where the invariant holds by one
    response that finished, or went away, and left its waiter set. *)
Lemma unfinished_wait_shrink w w' this h :
  unfinished_wait w →
  (∀ x, x ≠ this → heap w' !! x = heap w !! x) →
  (∀ r, heap w' !! this = Some r → m_finished r = true) →
  m_pendingRequests w' = m_pendingRequests (removePendingRequest h this w) ∨
  m_pendingRequests w' = m_pendingRequests w →
  enqueued w' = enqueued w →
  unfinished_wait w'.
Proof.
  intros Hu Hheap Hthis Hpend Hq x r Hr Hf.
  assert (x ≠ this) as Hne by (intros ->; specialize (Hthis r Hr); congruence).
  rewrite Hheap in Hr by done. destruct (Hu x r Hr Hf) as (Hw & Hp & He).
  rewrite Hq. split; [|done].
  destruct Hpend as [Ep|Ep]; rewrite (waiters_cong _ _ _ Ep); [|done].
  rewrite removePending_waiters. destruct (decide (m_fileHash r = h)) as [<-|_]; set_solver.
Qed.

Lemma step_unfinished_wait o w :
  world_ok w → unfinished_wait w → unfinished_wait (step o w).
Proof.
  intros Hok Hu. destruct o; simpl.
  - unfold requestImageResponse.
    set (h := t_hash (parseId id)). set (fp := t_filePath (parseId id)).
    set (sz := t_size (parseId id)).
    destruct (newThumbnailResponse_summary env h fp sz requestedSize w)
      as (_ & r' & Eh & Hh & _ & Hcases).
    set (this := fresh (dom (heap w))) in *.
    set (w' := snd (newThumbnailResponse env h fp sz requestedSize w)) in *.
    destruct Hcases as [(Hf & Ep & Eq) | [(Hf & Ep & Eq) | (-> & Ep & Hpath & Eq)]].
    + apply (unfinished_wait_shrink w w' this h); [done | | | by left | done].
      * intros x Hne. by rewrite Eh, lookup_insert_ne.
      * intros r. rewrite Eh, lookup_insert_eq. by intros [= <-].
    + apply (unfinished_wait_shrink w w' this h); [done | | | by right | done].
      * intros x Hne. by rewrite Eh, lookup_insert_ne.
      * intros r. rewrite Eh, lookup_insert_eq. by intros [= <-].
    + intros x r Hr Hf. rewrite Eh in Hr. rewrite (waiters_cong _ _ _ Ep), addPending_waiters, Eq.
      destruct (decide (x = this)) as [->|Hne].
      * rewrite lookup_insert_eq in Hr. injection Hr as <-. cbn [m_fileHash freshResponse].
        destruct (decide (h = h)); [|done].
        split; [set_solver | split; [done|]]. apply elem_of_app. right. by left.
      * rewrite lookup_insert_ne in Hr by done.
        destruct (Hu x r Hr Hf) as (Hw & Hp & He).
        split; [|split; [done | apply elem_of_app; by left]].
        destruct (decide (m_fileHash r = h)) as [<-|_]; set_solver.
  - unfold deleteResponse. destruct (heap w !! this) as [r0|] eqn:Hr0; [|done].
    apply (unfinished_wait_shrink w _ this (m_fileHash r0)); [done | | | |].
    + intros x Hne. cbn [heap setHeap]. rewrite lookup_delete_ne by done.
      destruct (m_finished r0); [done|].
      by destruct (removePending_frame (m_fileHash r0) this w) as (_ & -> & _).
    + intros r. cbn [heap setHeap]. by rewrite lookup_delete_eq.
    + destruct (m_finished r0); [by right | by left].
    + destruct (m_finished r0); [done|]. cbn [enqueued setHeap].
      by destruct (removePending_frame (m_fileHash r0) this w) as (_ & _ & -> & _).
  - unfold notifyThumbnailReady.
    destruct (m_pendingRequests w !! fileHash) as [s|] eqn:Hs; [|done].
    set (w1 := setPending (delete fileHash (m_pendingRequests w)) w).
    intros x r Hr Hf.
    assert (x ∉ elements s) as Hx.
    { intros Hx.
      destruct (deliverAll_finishes env c (elements s) w1 x Hx) as (r' & Hr' & Hf').
      - intros y Hy. destruct (drained_ok w fileHash s Hok Hs y Hy) as (_ & ry & Hy' & _).
        by exists ry.
      - congruence. }
    rewrite deliverAll_heap_other in Hr by done.
    destruct (Hu x r Hr Hf) as (Hw & Hp & He).
    assert (m_fileHash r ≠ fileHash) as Hne.
    { intros E. rewrite E, (waiters_Some _ _ _ Hs) in Hw. by apply Hx, elem_of_elements. }
    rewrite deliverAll_enqueued. split; [|done].
    rewrite (deliverAll_waiters_other env c (elements s) w1 fileHash _ Hne).
    + unfold waiters, w1. cbn [m_pendingRequests setPending]. by rewrite lookup_delete_ne.
    + intros y Hy. by destruct (drained_ok w fileHash s Hok Hs y Hy).
  - destruct (heap w !! this) as [r0|] eqn:Hr0.
    + destruct (m_finished r0) eqn:Hf0.
      * rewrite handleThumbnailReady_idle; [done|]. intros r'. rewrite Hr0. by intros [= <-].
      * destruct (handleThumbnailReady_finish env this c w r0 Hr0 Hf0)
          as (r' & Hshape & Eh & Ep & _).
        apply (unfinished_wait_shrink w _ this (m_fileHash r0));
          [done | | | by left | apply handleThumbnailReady_enqueued].
        -- intros x Hne. by rewrite Eh, lookup_insert_ne.
        -- intros r. rewrite Eh, lookup_insert_eq. intros [= <-].
           by destruct Hshape as [[image ->] | [error ->]].
    + rewrite handleThumbnailReady_idle; [done|]. intros r. by rewrite Hr0.
  - done.
  - done.
  - done.
  - intros x r. destruct (getCachedImage_frame key w) as (Ep & Eh & Eq & _).
    rewrite Eh, Eq, (waiters_cong _ _ _ Ep). apply Hu.
Qed.

Lemma run_unfinished_wait ops : unfinished_wait (run ops newWorld).
Proof.
  assert (∀ w, world_ok w → unfinished_wait w → unfinished_wait (run ops w)) as H.
  { induction ops as [|o ops IH]; intros w Hok Hu; [done|].
    apply IH; [by apply step_ok | by apply step_unfinished_wait]. }
  apply H; [apply newWorld_ok|]. intros x r. simpl. by rewrite lookup_empty.
Qed.

End WaitingFacts.

(** X14. In every state the provider reaches, a live response waits for a
    completion exactly when it has not finished: it is in the waiter set of
    its own hash and in no other, it has a file path, it has no image and no
    error yet, and [enqueueThumbnailsBatch] was called for it. A finished
    response is in no waiter set. *)
Theorem waiter_iff_unfinished (ops : list Op) (x : addr) (r : ThumbnailResponse) :
  let w := run ops newWorld in
  heap w !! x = Some r →
  (x ∈ waiters w (m_fileHash r) ↔ m_finished r = false) ∧
  (∀ h, x ∈ waiters w h → h = m_fileHash r) ∧
  (m_finished r = false →
     QStr.isEmpty (m_filePath r) = false ∧ stateOf r = AwaitingGeneration ∧
     m_image r = NullImage ∧ m_errorString r = EmptyString ∧
     [requestOf r] ∈ enqueued w).
Proof.
  intros w Hr.
  pose proof (run_ok ops newWorld newWorld_ok) as Hok. fold w in Hok.
  pose proof (run_unfinished_wait ops) as Hu. fold w in Hu.
  pose proof (run_heap_ok ops) as Hheap. fold w in Hheap.
  split; [split|split].
  - intros Hin. destruct (waiter_live w _ x (ok_registry w Hok) Hin) as (r' & Hr' & _ & Hf).
    congruence.
  - intros Hf. by destruct (Hu x r Hr Hf).
  - intros h Hin. destruct (waiter_live w _ x (ok_registry w Hok) Hin) as (r' & Hr' & Hh & _).
    congruence.
  - intros Hf. destruct (Hu x r Hr Hf) as (_ & Hp & He).
    destruct (Hheap x r Hr Hf) as [Hi Herr].
    split; [done|]. split; [by unfold stateOf; rewrite Hf|]. by repeat split.
Qed.

Lemma waiter_iff_unfinished_witness :
  let w := run [Request diskEnv "h1|%2Fa.jpg/medium" noSize;
                Request diskEnv "h3/small" noSize] newWorld in
  0%nat ∈ waiters w "h1" ∧ ¬ 1%nat ∈ waiters w "h3".
Proof.
  intros w.
  assert (∃ r, heap w !! 0%nat = Some r ∧ m_finished r = false ∧ m_fileHash r = "h1"%string)
    as (r0 & Hr0 & Hf0 & Hh0) by (eexists; vm_compute; done).
  assert (∃ r, heap w !! 1%nat = Some r ∧ m_finished r = true ∧ m_fileHash r = "h3"%string)
    as (r1 & Hr1 & Hf1 & Hh1) by (eexists; vm_compute; done).
  destruct (waiter_iff_unfinished _ 0%nat r0 Hr0) as ([_ Hin0] & _).
  destruct (waiter_iff_unfinished _ 1%nat r1 Hr1) as ([Hin1 _] & _).
  rewrite Hh0 in Hin0. rewrite Hh1 in Hin1.
  split; [by apply Hin0|]. intros H. specialize (Hin1 H). congruence.
Defined.

(** ** Completions that cannot be decoded *)

Section FailingFacts.

Implicit Types (w : World) (x y : addr) (r : ThumbnailResponse).

(** A completion with a placeholder that does not decode, or with neither a
    placeholder nor a path, and the error it ends in. *)
Lemma handleThumbnailReady_failing env x c w r error :
  (cp_isPlaceholder c && negb (QStr.isEmpty (cp_placeholderBase64 c)) = true ∧
   isNull (imageFromData env (fromBase64 env (cp_placeholderBase64 c))) = true ∧
   error = "Failed to decode base64 image"%string) ∨
  (cp_isPlaceholder c && negb (QStr.isEmpty (cp_placeholderBase64 c)) = false ∧
   QStr.isEmpty (cp_path c) = true ∧ error = "No thumbnail available"%string) →
  heap w !! x = Some r → m_finished r = false →
  handleThumbnailReady env x c w
  = finishWithError x error
      (if cp_isPlaceholder c && negb (QStr.isEmpty (cp_placeholderBase64 c))
       then logDecode x (LoadData (cp_placeholderBase64 c)) (logHandled x c w)
       else logHandled x c w).
Proof.
  intros Hfail Hr Hf. unfold handleThumbnailReady.
  change (heap (logHandled x c w)) with (heap w). rewrite Hr, Hf.
  destruct Hfail as [(-> & Hnull & ->) | (-> & -> & ->)]; [|done].
  destruct (loadFromBase64_outcome env x (cp_placeholderBase64 c) (logHandled x c w))
    as (_ & _ & _ & H).
  by rewrite Hnull in H.
Qed.

Lemma handleThumbnailReady_failing_cache env x c w error :
  (cp_isPlaceholder c && negb (QStr.isEmpty (cp_placeholderBase64 c)) = true ∧
   isNull (imageFromData env (fromBase64 env (cp_placeholderBase64 c))) = true ∧
   error = "Failed to decode base64 image"%string) ∨
  (cp_isPlaceholder c && negb (QStr.isEmpty (cp_placeholderBase64 c)) = false ∧
   QStr.isEmpty (cp_path c) = true ∧ error = "No thumbnail available"%string) →
  m_imageCache (handleThumbnailReady env x c w) = m_imageCache w.
Proof.
  intros Hfail. destruct (heap w !! x) as [r|] eqn:Hr.
  - destruct (m_finished r) eqn:Hf.
    + rewrite handleThumbnailReady_idle; [done|]. intros r'. rewrite Hr. by intros [= <-].
    + rewrite (handleThumbnailReady_failing env x c w r error Hfail Hr Hf).
      match goal with |- context [finishWithError x error ?v] =>
        assert (heap v !! x = Some r) as Hv by (by destruct (_ && _));
        destruct (finishWithError_fields x error v r Hv) as (_ & _ & -> & _) end.
      by destruct (_ && _).
  - rewrite handleThumbnailReady_idle; [done|]. intros r. by rewrite Hr.
Qed.

End FailingFacts.

Lemma notifyThumbnailReady_failing (env : Env) (fileHash size error : string)
    (c : Completion) (w : World) :
  world_ok w →
  let w' := notifyThumbnailReady env fileHash size c w in
  (cp_isPlaceholder c && negb (QStr.isEmpty (cp_placeholderBase64 c)) = true ∧
   isNull (imageFromData env (fromBase64 env (cp_placeholderBase64 c))) = true ∧
   error = "Failed to decode base64 image"%string) ∨
  (cp_isPlaceholder c && negb (QStr.isEmpty (cp_placeholderBase64 c)) = false ∧
   QStr.isEmpty (cp_path c) = true ∧ error = "No thumbnail available"%string) →
  (∀ x r, x ∈ waiters w fileHash → heap w !! x = Some r →
     heap w' !! x = Some (withError error r) ∧
     stateOf (withError error r) = Failed error) ∧
  m_imageCache w' = m_imageCache w ∧
  (∀ x path scaled, (x, ReadPath path scaled) ∈ decodes w' →
     (x, ReadPath path scaled) ∈ decodes w).
Proof.
  intros Hok w' Hfail.
  assert (∀ l v, m_imageCache (deliverAll env c l v) = m_imageCache v) as Hcache.
  { intros l. induction l as [|y l IH]; intros v; [done|].
    change (deliverAll env c (y :: l) v) with (deliverAll env c l (handleThumbnailReady env y c v)).
    by rewrite IH, (handleThumbnailReady_failing_cache env y c v error Hfail). }
  assert (∀ y v p sc, (y, ReadPath p sc) ∈ decodes (handleThumbnailReady env y c v) →
            (y, ReadPath p sc) ∈ decodes v) as Hstep.
  { intros y v p sc. destruct (heap v !! y) as [r|] eqn:Hr.
    - destruct (m_finished r) eqn:Hf.
      + rewrite handleThumbnailReady_idle; [done|]. intros r'. rewrite Hr. by intros [= <-].
      + rewrite (handleThumbnailReady_failing env y c v r error Hfail Hr Hf).
        match goal with |- context [finishWithError y error ?u] =>
          destruct (finishWithError_logs y error u) as (_ & _ & ->) end.
        destruct (_ && _); [|done]. cbn [decodes logDecode logHandled].
        intros [H|H]%elem_of_app; [done|]. apply list_elem_of_singleton in H. congruence.
    - rewrite handleThumbnailReady_idle; [done|]. intros r. by rewrite Hr. }
  assert (∀ l v z p sc, (z, ReadPath p sc) ∈ decodes (deliverAll env c l v) →
            (z, ReadPath p sc) ∈ decodes v) as Hdec.
  { intros l. induction l as [|y l IH]; intros v z p sc; [done|].
    change (deliverAll env c (y :: l) v) with (deliverAll env c l (handleThumbnailReady env y c v)).
    intros H%IH. destruct (decide (z = y)) as [->|Hne]; [by apply Hstep|].
    revert H. destruct (heap v !! y) as [r|] eqn:Hr.
    - destruct (m_finished r) eqn:Hf.
      + rewrite handleThumbnailReady_idle; [done|]. intros r'. rewrite Hr. by intros [= <-].
      + rewrite (handleThumbnailReady_failing env y c v r error Hfail Hr Hf).
        match goal with |- context [finishWithError y error ?u] =>
          destruct (finishWithError_logs y error u) as (_ & _ & ->) end.
        destruct (_ && _); [|done]. cbn [decodes logDecode logHandled].
        intros [H|H]%elem_of_app; [done|]. apply list_elem_of_singleton in H. congruence.
    - rewrite handleThumbnailReady_idle; [done|]. intros r. by rewrite Hr. }
  subst w'. unfold notifyThumbnailReady, waiters.
  destruct (m_pendingRequests w !! fileHash) as [s|] eqn:Hs; simpl.
  - set (w1 := setPending (delete fileHash (m_pendingRequests w)) w).
    split; [|split; [by rewrite Hcache | intros x p sc H; by apply Hdec in H]].
    intros x r Hx Hr.
    destruct (ok_waiter w (ok_registry w Hok) fileHash s x Hs Hx) as (r' & Hr' & _ & Hf).
    assert (r' = r) as -> by congruence.
    rewrite deliverAll_independent; [| apply NoDup_elements | by apply elem_of_elements].
    rewrite (handleThumbnailReady_failing env x c w1 r error Hfail Hr Hf).
    match goal with |- context [finishWithError x error ?v] =>
      assert (heap v !! x = Some r) as Hv by (by destruct (_ && _));
      destruct (finishWithError_fields x error v r Hv) as (-> & _) end.
    split; [apply lookup_insert_eq|].
    unfold stateOf. simpl. by destruct Hfail as [(_ & _ & ->) | (_ & _ & ->)].
  - split; [set_solver | done].
Qed.

(** X15. A completion whose placeholder payload does not decode fails
    every waiter of its identity with "Failed to decode base64 image", even
    when it carries a path as well: the path is not tried. A completion with
    neither a placeholder nor a path fails them with "No thumbnail
    available". In both cases the image cache is left as it was. *)
Theorem failed_completion (ops : list Op) (env : Env) (fileHash size error : string)
    (c : Completion) :
  let w := run ops newWorld in
  let w' := notifyThumbnailReady env fileHash size c w in
  (cp_isPlaceholder c && negb (QStr.isEmpty (cp_placeholderBase64 c)) = true ∧
   isNull (imageFromData env (fromBase64 env (cp_placeholderBase64 c))) = true ∧
   error = "Failed to decode base64 image"%string) ∨
  (cp_isPlaceholder c && negb (QStr.isEmpty (cp_placeholderBase64 c)) = false ∧
   QStr.isEmpty (cp_path c) = true ∧ error = "No thumbnail available"%string) →
  (∀ x r, x ∈ waiters w fileHash → heap w !! x = Some r →
     heap w' !! x = Some (withError error r) ∧
     stateOf (withError error r) = Failed error) ∧
  m_imageCache w' = m_imageCache w ∧
  (∀ x path scaled, (x, ReadPath path scaled) ∈ decodes w' →
     (x, ReadPath path scaled) ∈ decodes w).
Proof.
  intros w. apply notifyThumbnailReady_failing, run_ok, newWorld_ok.
Qed.

Lemma failed_completion_witness :
  let w := run [Request diskEnv "h2|%2Fb.jpg/small" noSize;
                Request diskEnv "h2|%2Fb.jpg/large" noSize] newWorld in
  let c := {| cp_path := ""; cp_isPlaceholder := false;
              cp_placeholderBase64 := ""; cp_useOriginal := false |} in
  let w' := notifyThumbnailReady diskEnv "h2" "small" c w in
  (stateOf <$> heap w' !! 1%nat) = Some (Failed "No thumbnail available") ∧
  m_imageCache w' = m_imageCache w.
Proof.
  intros w c w'.
  assert (∃ r, heap w !! 1%nat = Some r) as (r & Hr) by (eexists; vm_compute; done).
  destruct (failed_completion [Request diskEnv "h2|%2Fb.jpg/small" noSize;
                               Request diskEnv "h2|%2Fb.jpg/large" noSize]
              diskEnv "h2" "small" "No thumbnail available" c) as (H & Hc & _);
    [right; by repeat split|].
  destruct (H 1%nat r) as [Hafter Hstate]; [vm_compute; set_solver | done|].
  split; [|exact Hc].
  etrans; [exact (f_equal (fmap stateOf) Hafter)|]. simpl. by rewrite Hstate.
Defined.

(** ** A second request for a delivered image *)

Section SecondRequest.

Implicit Types (w : World) (x this : addr) (r : ThumbnailResponse).



End SecondRequest.



(** ** String lists in JSON *)

Section JsonFacts.

Lemma toStringList_length arr :
  (length (JsonHelper.toStringList arr) <= length arr)%nat.
Proof.
  induction arr as [|v arr IH]; simpl; [lia|]. destruct v; simpl; lia.
Qed.

End JsonFacts.

(** X17. [fromStringList] and [toStringList] are inverse on string lists:
    [toStringList] reads back every list [fromStringList] wrote, and
    [fromStringList] rebuilds a JSON array from its [toStringList] exactly
    when every element of the array is a string; the other elements are
    dropped silently, so the list is never longer than the array. *)
Theorem stringList_roundtrip (l : list string) (arr : list QJsonValue) :
  JsonHelper.toStringList (JsonHelper.fromStringList l) = l ∧
  (JsonHelper.fromStringList (JsonHelper.toStringList arr) = arr
     ↔ forallb JsonHelper.isString arr = true) ∧
  (length (JsonHelper.toStringList arr) <= length arr)%nat.
Proof.
  split; [|split].
  - induction l as [|s l IH]; simpl; [done|]. by f_equal.
  - induction arr as [|v arr IH]; simpl; [done|].
    destruct v; simpl;
      try (split; [|done]; intros E; apply (f_equal (@length _)) in E;
           unfold JsonHelper.fromStringList in E; rewrite length_map in E; simpl in E;
           pose proof (toStringList_length arr); lia).
    split.
    + intros [= E]. by apply IH.
    + intros E. f_equal. by apply IH.
  - apply toStringList_length.
Qed.

(** ** Events *)

(** X18. How [processEvent] reaches the provider. An event with another
    name than thumbnail-ready changes nothing. A thumbnail-ready event
    whose payload has no string [fileHash] (it does not parse, is no object,
    lacks the key or has another type there) is delivered for the empty
    hash: the waiters and the responses of every non-empty hash are left as
    they were. If the payload object is empty altogether, the waiters of the
    empty hash fail with "No thumbnail available". *)
Theorem event_routing (ops : list Op) (parse : string → option QJsonValue) (env : Env)
    (name payload : string) :
  let w := run ops newWorld in
  let obj := eventObject (parse payload) in
  let w' := processEvent parse env name payload w in
  (name ≠ "thumbnail-ready"%string → w' = w) ∧
  ((∀ s, obj !! "fileHash"%string ≠ Some (JString s)) →
     (∀ h, h ≠ EmptyString → waiters w' h = waiters w h) ∧
     (∀ x r, heap w !! x = Some r → m_fileHash r ≠ EmptyString → heap w' !! x = Some r)) ∧
  (name = "thumbnail-ready"%string → obj = ∅ →
     ∀ x r, x ∈ waiters w EmptyString → heap w !! x = Some r →
       heap w' !! x = Some (withError "No thumbnail available" r)).
Proof.
  intros w obj w'.
  pose proof (run_ok ops newWorld newWorld_ok) as Hok. fold w in Hok.
  subst w'. unfold processEvent, thumbnailReadySignal. fold obj.
  split; [|split].
  - intros Hne. by apply String.eqb_neq in Hne as ->.
  - intros Hno. destruct (String.eqb name "thumbnail-ready"); [|done].
    assert (JsonHelper.getString obj "fileHash" EmptyString = EmptyString) as ->.
    { unfold JsonHelper.getString. destruct (obj !! "fileHash"%string) as [[]|] eqn:E; try done.
      by destruct (Hno s). }
    match goal with |- context [notifyThumbnailReady env _ ?size ?c w] =>
      destruct (notifyThumbnailReady_others env EmptyString size c w Hok) as (H1 & H2 & _) end.
    split; [exact H1 | exact H2].
  - intros -> Ho x r Hx Hr. rewrite Ho. simpl.
    match goal with |- context [notifyThumbnailReady env ?h ?size ?c w] =>
      destruct (notifyThumbnailReady_failing env h size "No thumbnail available" c w Hok)
        as (H & _) end.
    + right. by repeat split.
    + by destruct (H x r Hx Hr).
Qed.

(** ** Completions and the contents of the cache *)

Section CacheOblivious.

Implicit Types (w : World) (x : addr) (cache : QCache.t).

Lemma removePending_setCache h x cache w :
  removePendingRequest h x (setCache cache w) = setCache cache (removePendingRequest h x w).
Proof.
  unfold removePendingRequest. cbn [m_pendingRequests setCache].
  destruct (m_pendingRequests w !! h); [|done]. by destruct (decide _).
Qed.

Lemma finishWithError_setCache x error cache w :
  finishWithError x error (setCache cache w) = setCache cache (finishWithError x error w).
Proof.
  unfold finishWithError. cbn [heap setCache].
  destruct (heap w !! x) as [r|]; [|done].
  change (setHeap (<[x:=withError error r]> (heap w)) (setCache cache w))
    with (setCache cache (setHeap (<[x:=withError error r]> (heap w)) w)).
  by rewrite removePending_setCache.
Qed.

Lemma finishWithImage_setCache x image cache w :
  ∃ cache', finishWithImage x image (setCache cache w)
            = setCache cache' (finishWithImage x image w).
Proof.
  unfold finishWithImage. cbn [heap setCache].
  destruct (heap w !! x) as [r|]; [|by exists cache].
  eexists. unfold cacheImage.
  match goal with |- context [setCache ?c1 (setHeap ?h (setCache cache w))] =>
    change (setCache c1 (setHeap h (setCache cache w))) with (setCache c1 (setHeap h w)) end.
  match goal with |- _ = setCache _ (emitFinished x (removePendingRequest ?h ?y (setCache ?c2 ?v))) =>
    rewrite (removePending_setCache h y c2 v) end.
  rewrite removePending_setCache. reflexivity.
Qed.

Lemma handleThumbnailReady_setCache env x c cache w :
  ∃ cache', handleThumbnailReady env x c (setCache cache w)
            = setCache cache' (handleThumbnailReady env x c w).
Proof.
  unfold handleThumbnailReady.
  change (logHandled x c (setCache cache w)) with (setCache cache (logHandled x c w)).
  set (w0 := logHandled x c w). cbn [heap setCache].
  destruct (heap w0 !! x) as [r|] eqn:Hr; [|by exists cache].
  destruct (m_finished r); [by exists cache|].
  destruct (_ && _).
  - unfold loadFromBase64.
    change (logDecode x ?d (setCache cache w0)) with (setCache cache (logDecode x d w0)).
    destruct (negb _); [apply finishWithImage_setCache|].
    exists cache. apply finishWithError_setCache.
  - destruct (negb _).
    + unfold loadFromPath. cbn [heap setCache]. rewrite Hr.
      change (logDecode x ?d (setCache cache w0)) with (setCache cache (logDecode x d w0)).
      destruct (isNull _); [|apply finishWithImage_setCache].
      exists cache. apply finishWithError_setCache.
    + exists cache. apply finishWithError_setCache.
Qed.

Lemma deliverAll_setCache env c l cache w :
  ∃ cache', deliverAll env c l (setCache cache w) = setCache cache' (deliverAll env c l w).
Proof.
  revert cache w. induction l as [|y l IH]; intros cache w; [by exists cache|].
  change (deliverAll env c (y :: l) ?v) with (deliverAll env c l (handleThumbnailReady env y c v)).
  destruct (handleThumbnailReady_setCache env y c cache w) as [cache1 ->]. apply IH.
Qed.

Lemma notifyThumbnailReady_setCache env fileHash size c cache w :
  ∃ cache', notifyThumbnailReady env fileHash size c (setCache cache w)
            = setCache cache' (notifyThumbnailReady env fileHash size c w).
Proof.
  unfold notifyThumbnailReady. cbn [m_pendingRequests setCache].
  destruct (m_pendingRequests w !! fileHash) as [s|]; [|by exists cache].
  change (setPending ?p (setCache cache w)) with (setCache cache (setPending p w)).
  apply deliverAll_setCache.
Qed.

Lemma cacheOp_setCache o w : cacheOp o = true → ∃ cache, step o w = setCache cache w.
Proof.
  destruct o; try done; intros _; simpl.
  - by eexists.
  - by eexists.
  - by eexists.
  - unfold getCachedImage. destruct (QCache.object _ _). by eexists.
Qed.

End CacheOblivious.

(** X19. What the image cache holds has no influence on a completion:
    after [clearCache], [setCacheSize], [cacheImage] or [getCachedImage],
    [notifyThumbnailReady] finishes the same responses with the same images
    and errors, decodes the same payloads and emits the same signals as it
    would have without that operation. *)
Theorem completion_ignores_cache (env : Env) (fileHash size : string) (c : Completion)
    (o : Op) (w : World) :
  cacheOp o = true →
  let w1 := notifyThumbnailReady env fileHash size c w in
  let w2 := notifyThumbnailReady env fileHash size c (step o w) in
  heap w2 = heap w1 ∧ m_pendingRequests w2 = m_pendingRequests w1 ∧
  decodes w2 = decodes w1 ∧ handled w2 = handled w1 ∧
  finishedSignals w2 = finishedSignals w1 ∧ enqueued w2 = enqueued w1.
Proof.
  intros Ho w1 w2. subst w1 w2.
  destruct (cacheOp_setCache o w Ho) as [cache ->].
  by destruct (notifyThumbnailReady_setCache env fileHash size c cache w) as [cache' ->].
Qed.

Lemma completion_ignores_cache_witness :
  let w := run [Request diskEnv "h2|%2Fb.jpg/small" noSize] newWorld in
  let c := {| cp_path := "/cache/h2_small.jpg"; cp_isPlaceholder := false;
              cp_placeholderBase64 := ""; cp_useOriginal := false |} in
  heap (notifyThumbnailReady diskEnv "h2" "small" c (step ClearCache w))
  = heap (notifyThumbnailReady diskEnv "h2" "small" c w).
Proof.
  intros w c.
  destruct (completion_ignores_cache diskEnv "h2" "small" c ClearCache w eq_refl) as (H & _).
  exact H.
Defined.
